(** * The Ngram contrib operator (onnxruntime/contrib_ops/cpu/ngram.cc)

    A shallow embedding of the n-gram / skip-gram TF-IDF kernel: the
    [NgramItem] keys with their running hash, the pool sets, the kernel
    constructor with every [ORT_ENFORCE] it performs, the scanning loops of
    [ComputeImpl], the encoder [OutputResult] and the dtype dispatch of
    [Compute].

    Conventions.
    - [int64_t] and [size_t] values are integers in [Z]; conversions and
      wrap-arounds are written out ([to_size_t], [wrap64], [wrap32]).
    - [std::vector] is [list]; an iterator into a vector is the suffix of the
      vector it points at.
    - [std::unordered_set] is a list of pairwise unequal elements, looked up
      with the element type's [operator==].
    - [float] is IEEE binary32, as [spec_float] at precision 24 and
      exponent bound 128.
    - [ORT_ENFORCE] throws and [assert] aborts: both are results [Err].
    - [int] is 32 bits wide and incrementing [INT_MAX] is undefined: a
      result [Err]. Adding 1 to the largest [int64_t] wraps around.
    - [std::vector::resize] beyond [max_size()] throws: a result [Err].
      Running out of memory below that size is outside the model. *)

From Stdlib Require Import ZArith Lia String.
From Stdlib Require Import Floats.SpecFloat.
From stdpp Require Import base decidable option list strings.

Local Open Scope Z_scope.

(** ** Failures *)

(** One constructor per [ORT_ENFORCE] site of the file. *)
Inductive enforce_site : Type :=
| E_mode_required
| E_unrecognized_mode
| E_positive_M
| E_N_not_below_M
| E_non_negative_S
| E_all_required
| E_non_empty_ngram_counts
| E_M_inbounds
| E_N_inbounds
| E_non_empty_ngram_indexes
| E_negative_ngram_indexes
| E_weights_size
| E_pool_strings_empty
| E_pool_int64s_required
| E_counts_out_of_bounds (ngram_size : Z)
| E_whole_ngrams (ngram_size : Z)
| E_int64_duplicates (ngram_size : Z)
| E_string_duplicates (ngram_size : Z)
| E_negative_index.

(** One constructor per [assert] of the file that an execution can reach. *)
Inductive assert_site : Type :=
| A_id_in_ngram_indexes
| A_bin_in_frequencies
| A_weights_match_frequencies
| A_weighting_criteria.

Inductive failure : Type :=
| Enforce (e : enforce_site)
| Assert (a : assert_site)
| ReadPastEnd
| SignedOverflow
| LengthError.

Inductive result (A : Type) : Type :=
| Ok (a : A)
| Err (f : failure).
Arguments Ok {A} a.
Arguments Err {A} f.

#[global] Instance result_ret : MRet result := @Ok.
#[global] Instance result_bind : MBind result :=
  fun A B k m => match m with Ok a => k a | Err f => Err f end.

Definition ORT_ENFORCE (cond : bool) (e : enforce_site) : result unit :=
  if cond then Ok tt else Err (Enforce e).

Definition ASSERT (cond : bool) (a : assert_site) : result unit :=
  if cond then Ok tt else Err (Assert a).

Definition is_ok {A} (r : result A) : bool :=
  match r with Ok _ => true | Err _ => false end.

(** ** Machine integers *)

Definition wrap64 (z : Z) : Z := z mod 2 ^ 64.
Definition wrap32 (z : Z) : Z := z mod 2 ^ 32.

(** [int64_t] to [size_t]: a negative value is reinterpreted modulo 2^64, a
    non-negative one is unchanged. *)
Definition to_size_t (z : Z) : Z := if z <? 0 then z mod 2 ^ 64 else z.

(** [x + 1] for an [int64_t] [x]: [INT64_MAX + 1] wraps around to
    [INT64_MIN]. *)
Definition int64_succ (x : Z) : Z :=
  if x <? 2 ^ 63 - 1 then x + 1 else x + 1 - 2 ^ 64.

(** [++i] for an [int] counter [i]. *)
Definition INT_MAX : Z := 2 ^ 31 - 1.
Definition int_succ (i : Z) : result Z :=
  if i <? INT_MAX then Ok (i + 1) else Err SignedOverflow.

(** [std::vector<uint32_t>::max_size()] where [ptrdiff_t] has 64 bits, and
    [v.resize(n, 0)] on an empty vector. *)
Definition vector_max_size : Z := 2 ^ 61 - 1.
Definition vector_resize (n : Z) : result (list Z) :=
  if n <=? vector_max_size then Ok (replicate (Z.to_nat n) 0)
  else Err LengthError.

(** ** Single precision floats *)

Definition float32 : Type := spec_float.

(** [static_cast<float>] of an unsigned counter, round to nearest even. *)
Definition float_of_uint32 (f : Z) : float32 := binary_normalize 24 128 f 0 false.

Definition float_mul (x y : float32) : float32 := SFmul 24 128 x y.

Definition float_zero : float32 := S754_zero false.
(** [1.0f] is 2^23 * 2^-23 and [2.0f] is 2^23 * 2^-22. *)
Definition float_one : float32 := S754_finite false 8388608 (-23).
Definition float_two : float32 := S754_finite false 8388608 (-22).

(** ** NgramItem *)

Section NgramItem.
Context {T : Type} `{EqDecision T}.
(** [std::hash<T>], implementation defined. *)
Variable hf : T -> Z.

(** [NgramElementBase::id_] with the [items_] and [hash_] of
    [NgramItem<T>]. For strings [items_] holds references; the referenced
    strings are immutable while the item lives, so their values stand for
    them. *)
Record NgramItem : Type := MkNgramItem {
  Id : Z;
  items_ : list T;
  hash_ : Z
}.

(** [hash_ ^= hf(v) + 0x9e3779b9 + (hash_ << 6) + (hash_ >> 2)] on
    [size_t]. *)
Definition RunningHash (hash : Z) (v : T) : Z :=
  Z.lxor hash
    (wrap64 (hf v + 2654435769 + wrap64 (Z.shiftl hash 6) + Z.shiftr hash 2)).

(** [NgramItem(id, first, last)]: every element of the range is hashed and
    pushed, in order. *)
Definition NgramItem_range (id : Z) (range : list T) : NgramItem :=
  {| Id := id; items_ := range; hash_ := foldl RunningHash 0 range |}.

(** [NgramItem()], for sampling. *)
Definition NgramItem_sample : NgramItem :=
  {| Id := 0; items_ := []; hash_ := 0 |}.

Definition AddItem (s : NgramItem) (v : T) : NgramItem :=
  {| Id := Id s; items_ := items_ s ++ [v]; hash_ := RunningHash (hash_ s) v |}.

Definition Clear (s : NgramItem) : NgramItem :=
  {| Id := Id s; items_ := []; hash_ := 0 |}.

(** [operator==]: the items only, neither the id nor the hash. *)
Definition NgramItem_eqb (a o : NgramItem) : bool :=
  bool_decide (items_ a = items_ o).

Definition Hash (a : NgramItem) : Z := hash_ a.

(** *** The pool set *)

Definition PoolSet : Type := list NgramItem.

(** [unordered_set::find]: the stored element equal to the sample. *)
Definition set_find (c : PoolSet) (i : NgramItem) : option NgramItem :=
  List.find (fun e => NgramItem_eqb e i) c.

(** [unordered_set::emplace]: nothing happens when an equal element is
    stored already. *)
Definition set_emplace (c : PoolSet) (i : NgramItem) : PoolSet :=
  match set_find c i with
  | Some _ => c
  | None => i :: c
  end.

Definition set_size (c : PoolSet) : Z := Z.of_nat (length c).

(** [Emplace(first, ngrams, ngram_size, ngram_id, c)]; [ngram_id] is passed
    by reference, so its final value is returned with the set. *)
Fixpoint Emplace (first : list T) (ngrams : nat) (ngram_size : nat)
         (ngram_id : Z) (c : PoolSet) : Z * PoolSet :=
  match ngrams with
  | O => (ngram_id, c)
  | S ngrams' =>
      let c' := set_emplace c (NgramItem_range ngram_id (take ngram_size first)) in
      Emplace (drop ngram_size first) ngrams' ngram_size (ngram_id + 1) c'
  end.
End NgramItem.

Arguments NgramItem T : clear implicits.
Arguments PoolSet T : clear implicits.

(** ** The kernel *)

Inductive WeightingCriteria : Type := kNone | kTF | kIDF | kTFIDF.

(** The attributes of the node, as [OpKernelInfo::GetAttr] and [GetAttrs]
    deliver them: [None] is a failed status. *)
Record OpKernelInfo : Type := {
  attr_mode : option string;
  attr_M : option Z;
  attr_N : option Z;
  attr_S : option Z;
  attr_all : option Z;
  attr_ngram_counts : option (list Z);
  attr_ngram_indexes : option (list Z);
  attr_weights : option (list float32);
  attr_pool_strings : option (list string);
  attr_pool_int64s : option (list Z)
}.

(** [Status::IsOK] of a [GetAttr] call, and the value left in the output
    argument: the attribute when the call succeeded, else the initial value
    of the member. *)
Definition IsOK {A} (status : option A) : bool :=
  match status with Some _ => true | None => false end.
Definition fetched {A} (init : A) (status : option A) : A :=
  match status with Some a => a | None => init end.

Definition IntegerPoolSet : Type := PoolSet Z.
Definition StringPoolSet : Type := PoolSet string.

Record Impl : Type := {
  weighting_criteria_ : WeightingCriteria;
  N_ : Z;
  M_ : Z;
  S_ : Z;
  all_ : bool;
  ngram_counts_ : list Z;
  ngram_indexes_ : list Z;
  weights_ : list float32;
  pool_strings_ : list string;
  str_set_ : StringPoolSet;
  int_set_ : IntegerPoolSet;
  output_size_ : Z
}.

Definition size {A} (v : list A) : Z := Z.of_nat (length v).
Definition empty {A} (v : list A) : bool :=
  match v with [] => true | _ => false end.

(** [*std::max_element(first, last)] on a non-empty range. *)
Definition max_element (v : list Z) : Z :=
  match v with
  | [] => 0
  | x :: v' => foldl Z.max x v'
  end.

Section Kernel.
(** [std::hash<int64_t>] and [std::hash<std::string>]. *)
Variable hash_int64 : Z -> Z.
Variable hash_string : string -> Z.

(** *** Loading the pool: the loop of the constructor *)

Section Load.
Variables (all : bool) (M N : Z).
Variable ngram_counts : list Z.
Variable pool_strings : list string.
Variable pool_int64s : list Z.
Variable total_items : Z.

(** The variables the loop updates. *)
Record load_state : Type := {
  ngram_id : Z;
  ngram_size : Z;
  int_set : IntegerPoolSet;
  str_set : StringPoolSet
}.

(** The body of [for (size_t i = 0; i < ngram_counts_.size(); ++i)],
    [++ngram_size] included. *)
Definition load_body (i : nat) (st : load_state) : result load_state :=
  let start_idx := to_size_t (nth i ngram_counts 0) in
  let end_idx :=
    if Z.of_nat i + 1 <? size ngram_counts
    then to_size_t (nth (S i) ngram_counts 0)
    else total_items in
  _ ← ORT_ENFORCE ((start_idx <=? end_idx) && (end_idx <=? total_items))
        (E_counts_out_of_bounds (ngram_size st));
  let items := end_idx - start_idx in
  if 0 <? items then
    _ ← ORT_ENFORCE (items mod ngram_size st =? 0)
          (E_whole_ngrams (ngram_size st));
    let ngrams := items / ngram_size st in
    if (all && ((M <=? ngram_size st) && (ngram_size st <=? N)))
       || (ngram_size st =? N)
    then
      if empty pool_strings then
        let before_insert := set_size (int_set st) in
        let '(ngram_id', int_set') :=
          Emplace hash_int64 (drop (Z.to_nat start_idx) pool_int64s)
            (Z.to_nat ngrams) (Z.to_nat (ngram_size st))
            (ngram_id st) (int_set st) in
        _ ← ORT_ENFORCE (before_insert + ngrams =? set_size int_set')
              (E_int64_duplicates (ngram_size st));
        mret {| ngram_id := ngram_id'; ngram_size := ngram_size st + 1;
                int_set := int_set'; str_set := str_set st |}
      else
        let before_insert := set_size (str_set st) in
        let '(ngram_id', str_set') :=
          Emplace hash_string (drop (Z.to_nat start_idx) pool_strings)
            (Z.to_nat ngrams) (Z.to_nat (ngram_size st))
            (ngram_id st) (str_set st) in
        _ ← ORT_ENFORCE (before_insert + ngrams =? set_size str_set')
              (E_string_duplicates (ngram_size st));
        mret {| ngram_id := ngram_id'; ngram_size := ngram_size st + 1;
                int_set := int_set st; str_set := str_set' |}
    else
      mret {| ngram_id := ngram_id st + ngrams;
              ngram_size := ngram_size st + 1;
              int_set := int_set st; str_set := str_set st |}
  else
    mret {| ngram_id := ngram_id st; ngram_size := ngram_size st + 1;
            int_set := int_set st; str_set := str_set st |}.

(** The iterations [i, i+1, ..., i + todo - 1] of the loop. *)
Fixpoint load_loop (todo : nat) (i : nat) (st : load_state)
  : result load_state :=
  match todo with
  | O => mret st
  | S todo' => st' ← load_body i st; load_loop todo' (S i) st'
  end.

Definition load_pool : result load_state :=
  load_loop (length ngram_counts) 0
    {| ngram_id := 0; ngram_size := 1; int_set := []; str_set := [] |}.
End Load.

(** *** [Ngram::Ngram(const OpKernelInfo&)] *)

Definition mode_criteria (mode : string) : WeightingCriteria :=
  if String.eqb mode "TF" then kTF
  else if String.eqb mode "IDF" then kIDF
  else if String.eqb mode "TFIDF" then kTFIDF
  else kNone.

Definition is_kNone (w : WeightingCriteria) : bool :=
  match w with kNone => true | _ => false end.

(** The constructor up to the loop: the members read from the attributes,
    both sets still empty, and the local [pool_int64s]. *)
Definition Ngram_attributes (info : OpKernelInfo) : result (Impl * list Z) :=
  let status := attr_mode info in
  _ ← ORT_ENFORCE (IsOK status) E_mode_required;
  let weighting_criteria := mode_criteria (fetched EmptyString status) in
  _ ← ORT_ENFORCE (negb (is_kNone weighting_criteria)) E_unrecognized_mode;
  let status := attr_M info in
  let M := fetched 0 status in
  _ ← ORT_ENFORCE (IsOK status && (0 <? M)) E_positive_M;
  let status := attr_N info in
  let N := fetched 0 status in
  _ ← ORT_ENFORCE (IsOK status && (M <=? N)) E_N_not_below_M;
  let status := attr_S info in
  let S := fetched 0 status in
  _ ← ORT_ENFORCE (IsOK status && (0 <=? N)) E_non_negative_S;
  let status := attr_all info in
  let all := fetched 0 status in
  _ ← ORT_ENFORCE (IsOK status) E_all_required;
  let all_flag := negb (all =? 0) in
  let status := attr_ngram_counts info in
  let ngram_counts := fetched [] status in
  _ ← ORT_ENFORCE (IsOK status && negb (empty ngram_counts))
        E_non_empty_ngram_counts;
  _ ← ORT_ENFORCE (to_size_t M <=? size ngram_counts) E_M_inbounds;
  _ ← ORT_ENFORCE (to_size_t N <=? size ngram_counts) E_N_inbounds;
  let status := attr_ngram_indexes info in
  let ngram_indexes := fetched [] status in
  _ ← ORT_ENFORCE (IsOK status && negb (empty ngram_indexes))
        E_non_empty_ngram_indexes;
  _ ← ORT_ENFORCE (forallb (fun i => 0 <=? i) ngram_indexes)
        E_negative_ngram_indexes;
  let greatest_hit := max_element ngram_indexes in
  let output_size := to_size_t (greatest_hit + 1) in
  let status := attr_weights info in
  let weights := fetched [] status in
  _ ← (if IsOK status
       then ORT_ENFORCE (size weights =? size ngram_indexes) E_weights_size
       else mret tt);
  let status := attr_pool_strings info in
  let pool_strings := fetched [] status in
  pool_int64s ←
    (if IsOK status
     then _ ← ORT_ENFORCE (negb (empty pool_strings)) E_pool_strings_empty;
          mret []
     else let status := attr_pool_int64s info in
          let pool_int64s := fetched [] status in
          _ ← ORT_ENFORCE (IsOK status && negb (empty pool_int64s))
                E_pool_int64s_required;
          mret pool_int64s);
  mret ({| weighting_criteria_ := weighting_criteria;
           N_ := N; M_ := M; S_ := S; all_ := all_flag;
           ngram_counts_ := ngram_counts;
           ngram_indexes_ := ngram_indexes;
           weights_ := weights;
           pool_strings_ := pool_strings;
           str_set_ := [];
           int_set_ := [];
           output_size_ := output_size |}, pool_int64s).

(** [total_items] of the constructor. *)
Definition vocabulary_size (pool_strings : list string) (pool_int64s : list Z)
  : Z :=
  if empty pool_strings then size pool_int64s else size pool_strings.

(** The loop of the constructor on the members read so far. *)
Definition Ngram_load (impl : Impl) (pool_int64s : list Z)
  : result load_state :=
  let total_items := vocabulary_size (pool_strings_ impl) pool_int64s in
  let M := to_size_t (M_ impl) in
  let N := to_size_t (N_ impl) in
  load_pool (all_ impl) M N (ngram_counts_ impl) (pool_strings_ impl)
    pool_int64s total_items.

Definition with_sets (impl : Impl) (st : load_state) : Impl :=
  {| weighting_criteria_ := weighting_criteria_ impl;
     N_ := N_ impl; M_ := M_ impl; S_ := S_ impl; all_ := all_ impl;
     ngram_counts_ := ngram_counts_ impl;
     ngram_indexes_ := ngram_indexes_ impl;
     weights_ := weights_ impl;
     pool_strings_ := pool_strings_ impl;
     str_set_ := str_set st;
     int_set_ := int_set st;
     output_size_ := output_size_ impl |}.

Definition Ngram_ctor (info : OpKernelInfo) : result Impl :=
  '(impl, pool_int64s) ← Ngram_attributes info;
  st ← Ngram_load impl pool_int64s;
  mret (with_sets impl st).
End Kernel.

(** ** Compute *)

(** [Impl::IncrementCount]. [ngram_id] is a [size_t]. *)
Definition IncrementCount (impl : Impl) (ngram_id : Z) (frequencies : list Z)
  : result (list Z) :=
  _ ← ASSERT (ngram_id <? size (ngram_indexes_ impl)) A_id_in_ngram_indexes;
  let output_idx := nth (Z.to_nat ngram_id) (ngram_indexes_ impl) 0 in
  _ ← ORT_ENFORCE (0 <=? output_idx) E_negative_index;
  _ ← ASSERT (to_size_t output_idx <? size frequencies) A_bin_in_frequencies;
  mret (alter (fun c => wrap32 (c + 1)) (Z.to_nat output_idx) frequencies).

(** [Ngram::OutputResult]: the contents written to the output tensor [Y],
    whose single dimension is [frequences.size()]. The label of [kTFIDF]
    sits inside the block of [kIDF], after its [break]; control reaches it
    only through the [switch]. *)
Definition OutputResult (impl : Impl) (frequences : list Z)
  : result (list float32) :=
  let w := weights_ impl in
  match weighting_criteria_ impl with
  | kTF => mret (map float_of_uint32 frequences)
  | kIDF =>
      if negb (empty w) then
        _ ← ASSERT (size frequences =? size w) A_weights_match_frequencies;
        mret (zip_with (fun f wi => if 0 <? f then wi else float_zero)
                frequences w)
      else
        mret (map (fun f => if 0 <? f then float_one else float_zero)
                frequences)
  | kTFIDF =>
      if negb (empty w) then
        _ ← ASSERT (size frequences =? size w) A_weights_match_frequencies;
        mret (zip_with (fun f wi => float_mul (float_of_uint32 f) wi)
                frequences w)
      else
        mret (map float_of_uint32 frequences)
  | kNone => Err (Assert A_weighting_criteria)
  end.

Section ComputeImpl.
Context {T : Type} `{EqDecision T}.
Variable hf : T -> Z.
Variable impl : Impl.
(** The set [PoolFind<T>] searches and [PoolEnd<T>] ends. *)
Variable pool : PoolSet T.
(** [X->Data<T>()]; a pointer into the input is its offset from
    [input_data], so [end_data] is [total_items]. *)
Variable input_data : list T.
Variable end_data : Z.

Definition deref (p : Z) : result T :=
  match input_data !! Z.to_nat p with
  | Some v => Ok v
  | None => Err ReadPastEnd
  end.

(** [hit = PoolFind(sample); if (hit != set_end) IncrementCount(hit->Id(),
    frequencies)], the lookup both passes perform. *)
Definition count_hit (sample : NgramItem T) (frequencies : list Z)
  : result (list Z) :=
  match set_find pool sample with
  | Some hit => IncrementCount impl (Id hit) frequencies
  | None => mret frequencies
  end.

(** [while (ngram_start < end_data)] of the unigram pass; [todo] is
    [end_data - ngram_start]. The sample is cleared before every use and
    [Clear] resets all but the id, which no one changes. *)
Fixpoint unigram_loop (todo : nat) (ngram_start : Z) (frequencies : list Z)
  : result (list Z) :=
  match todo with
  | O => mret frequencies
  | S todo' =>
      let sample := Clear NgramItem_sample in
      v ← deref ngram_start;
      let sample := AddItem hf sample v in
      frequencies ← count_hit sample frequencies;
      unigram_loop todo' (ngram_start + 1) frequencies
  end.

(** [for (ni = 1; ni <= N && ngram_item < end_data; ++ni, ngram_item += si)]
    with [ni] an [int]; [todo] is [N - ni + 1]. *)
Fixpoint item_loop (todo : nat) (si start_ngram_size : Z) (ni ngram_item : Z)
         (sample : NgramItem T) (frequencies : list Z) : result (list Z) :=
  match todo with
  | O => mret frequencies
  | S todo' =>
      if ngram_item <? end_data then
        v ← deref ngram_item;
        let sample := AddItem hf sample v in
        frequencies ←
          (if start_ngram_size <=? ni then count_hit sample frequencies
           else mret frequencies);
        ni ← int_succ ni;
        item_loop todo' si start_ngram_size ni (ngram_item + si)
          sample frequencies
      else mret frequencies
  end.

(** [while (ngram_start < end_data)] of one skip distance, with its
    [break]; [todo] is [end_data - ngram_start]. *)
Fixpoint start_loop (todo : nat) (si start_ngram_size : Z) (ngram_start : Z)
         (frequencies : list Z) : result (list Z) :=
  match todo with
  | O => mret frequencies
  | S todo' =>
      let at_least_this := ngram_start + si * (start_ngram_size - 1) in
      if end_data <=? at_least_this then mret frequencies
      else
        let sample := Clear NgramItem_sample in
        frequencies ←
          item_loop (Z.to_nat (N_ impl)) si start_ngram_size 1 ngram_start
            sample frequencies;
        start_loop todo' si start_ngram_size (ngram_start + 1) frequencies
  end.

(** [for (auto si = 1; si <= S; ++si)] with [si] an [int] and [S] an
    [int64_t]; [todo] is [S - si + 1]. *)
Fixpoint skip_loop (todo : nat) (si start_ngram_size : Z)
         (frequencies : list Z) : result (list Z) :=
  match todo with
  | O => mret frequencies
  | S todo' =>
      frequencies ←
        start_loop (Z.to_nat end_data) si start_ngram_size 0 frequencies;
      si ← int_succ si;
      skip_loop todo' si start_ngram_size frequencies
  end.

(** [ComputeImpl] up to its calls of [OutputResult]: the frequencies it
    hands over. *)
Definition ComputeImpl_frequencies : result (list Z) :=
  frequencies ← vector_resize (output_size_ impl);
  let N := N_ impl in
  let S := int64_succ (S_ impl) in
  let start_ngram_size := if all_ impl then M_ impl else N in
  if start_ngram_size =? 1 then
    frequencies ← unigram_loop (Z.to_nat end_data) 0 frequencies;
    let start_ngram_size := start_ngram_size + 1 in
    if N <? start_ngram_size then mret frequencies
    else skip_loop (Z.to_nat S) 1 start_ngram_size frequencies
  else skip_loop (Z.to_nat S) 1 start_ngram_size frequencies.

(** [ComputeImpl<T>]: both exits call [OutputResult] on the frequencies. *)
Definition ComputeImpl : result (list float32) :=
  frequencies ← ComputeImpl_frequencies;
  OutputResult impl frequencies.
End ComputeImpl.

(** *** Tensors and the kernel context *)

Inductive MLDataType : Type :=
| dt_int32 | dt_int64 | dt_string | dt_float | dt_double | dt_bool.

(** The buffer of a tensor; its constructor is the element type. *)
Inductive TensorBuffer : Type :=
| buffer_int32 (d : list Z)
| buffer_int64 (d : list Z)
| buffer_string (d : list string)
| buffer_float (d : list float32)
| buffer_double (d : list spec_float)
| buffer_bool (d : list bool).

Record Tensor : Type := {
  Shape : list Z;
  Buffer : TensorBuffer
}.

Definition DataType (X : Tensor) : MLDataType :=
  match Buffer X with
  | buffer_int32 _ => dt_int32
  | buffer_int64 _ => dt_int64
  | buffer_string _ => dt_string
  | buffer_float _ => dt_float
  | buffer_double _ => dt_double
  | buffer_bool _ => dt_bool
  end.

(** [X->Data<int32_t>()] and [X->Data<int64_t>()], the former widened as
    [AddItem(int64_t)] receives it, and [X->Data<std::string>()]. *)
Definition Data_integer (X : Tensor) : list Z :=
  match Buffer X with
  | buffer_int32 d | buffer_int64 d => d
  | _ => []
  end.
Definition Data_string (X : Tensor) : list string :=
  match Buffer X with
  | buffer_string d => d
  | _ => []
  end.

Inductive Status : Type :=
| Status_OK
| Status_INVALID_ARGUMENT (msg : string).

(** What an invocation can read and write: the kernel's [impl_], the input
    tensor and the output tensor of the context. *)
Record Session : Type := {
  impl_ : Impl;
  Input0 : Tensor;
  Output0 : option (list float32)
}.

Definition total_items_of (input_dims : list Z) : Z :=
  if empty input_dims
     || ((size input_dims =? 1) && (nth 0 input_dims 0 =? 0))
  then 1
  else foldl (fun total_items dim => wrap64 (total_items * to_size_t dim))
         1 input_dims.

Section Compute.
Variable hash_int64 : Z -> Z.
Variable hash_string : string -> Z.

(** The effect of [ComputeImpl<T>(ctx, total_items)] on the session:
    the output tensor is set when it returns. *)
Definition run_ComputeImpl (r : result (list float32)) (s : Session)
  : result unit * Session :=
  match r with
  | Ok Y => (Ok tt, {| impl_ := impl_ s; Input0 := Input0 s;
                       Output0 := Some Y |})
  | Err f => (Err f, s)
  end.

(** [Ngram::Compute]. *)
Definition Compute (s : Session) : result Status * Session :=
  let X := Input0 s in
  let total_items := total_items_of (Shape X) in
  match DataType X with
  | dt_int32 =>
      let '(r, s') :=
        run_ComputeImpl
          (ComputeImpl hash_int64 (impl_ s) (int_set_ (impl_ s))
             (Data_integer X) total_items) s in
      (_ ← r; mret Status_OK, s')
  | dt_int64 =>
      let '(r, s') :=
        run_ComputeImpl
          (ComputeImpl hash_int64 (impl_ s) (int_set_ (impl_ s))
             (Data_integer X) total_items) s in
      (_ ← r; mret Status_OK, s')
  | dt_string =>
      let '(r, s') :=
        run_ComputeImpl
          (ComputeImpl hash_string (impl_ s) (str_set_ (impl_ s))
             (Data_string X) total_items) s in
      (_ ← r; mret Status_OK, s')
  | _ =>
      (mret (Status_INVALID_ARGUMENT "Invalid type of the input argument"), s)
  end.
End Compute.

(** * Specification-side definitions *)

(** ** The runs of the vocabulary *)

Section Runs.
Context {T : Type}.
Variable ngram_counts : list Z.
Variable total_items : Z.

(** The boundaries of the run of order [i + 1], as the loop reads them. *)
Definition start_idx_of (i : nat) : Z := to_size_t (nth i ngram_counts 0).
Definition end_idx_of (i : nat) : Z :=
  if Z.of_nat i + 1 <? size ngram_counts
  then to_size_t (nth (S i) ngram_counts 0)
  else total_items.

Definition run_in_bounds (i : nat) : bool :=
  (start_idx_of i <=? end_idx_of i) && (end_idx_of i <=? total_items).
Definition run_whole (i : nat) : bool :=
  (end_idx_of i - start_idx_of i) mod (Z.of_nat i + 1) =? 0.
Definition run_ok (i : nat) : bool := run_in_bounds i && run_whole i.

(** [(end - start) / k], the number of n-grams of the run. *)
Definition run_count (i : nat) : Z :=
  (end_idx_of i - start_idx_of i) / (Z.of_nat i + 1).

(** [ngrams] consecutive windows of [k] tokens, from [first] on. *)
Fixpoint ngrams_of (first : list T) (ngrams k : nat) : list (list T) :=
  match ngrams with
  | O => []
  | S ngrams' => take k first :: ngrams_of (drop k first) ngrams' k
  end.

(** The n-grams of the run of order [i + 1], in vocabulary order. *)
Definition run_ngrams (vocab : list T) (i : nat) : list (list T) :=
  ngrams_of (drop (Z.to_nat (start_idx_of i)) vocab)
    (Z.to_nat (run_count i)) (S i).

(** The n-grams of the runs of orders [1..i], and of all runs: the full
    id space. *)
Definition ngrams_upto (vocab : list T) (i : nat) : list (list T) :=
  concat (map (run_ngrams vocab) (seq 0 i)).
Definition vocabulary_ngrams (vocab : list T) : list (list T) :=
  ngrams_upto vocab (length ngram_counts).
End Runs.

(** The retention test of the loop, on an order [k]. *)
Definition retained_order (all : bool) (M N : Z) (k : Z) : bool :=
  (all && ((M <=? k) && (k <=? N))) || (k =? N).

Section EmplaceAll.
Context {T : Type} `{EqDecision T}.
Variable hf : T -> Z.

(** Emplacing the n-grams [gs] under the ids [id, id + 1, ...]. *)
Fixpoint emplace_all (id : Z) (gs : list (list T)) (c : PoolSet T)
  : PoolSet T :=
  match gs with
  | [] => c
  | g :: gs' =>
      emplace_all (id + 1) gs' (set_emplace c (NgramItem_range hf id g))
  end.
End EmplaceAll.

Section PoolSpec.
Context {T : Type} `{EqDecision T}.
Variable hf : T -> Z.
Variables (all : bool) (M N : Z).
Variable ngram_counts : list Z.
Variable total_items : Z.
Variable vocab : list T.

(** The set holds exactly the n-grams of retained order among the runs of
    orders [1..i], each under its position in the id space. *)
Definition pool_holds (i : nat) (c : PoolSet T) : Prop :=
  forall e,
    e ∈ c <->
    exists (p : nat) (g : list T),
      ngrams_upto ngram_counts total_items vocab i !! p = Some g
      /\ retained_order all M N (size g) = true
      /\ e = NgramItem_range hf (Z.of_nat p) g.
End PoolSpec.

(** Two structurally equal n-grams at different places of a run. *)
Definition duplicate_in {T : Type} (gs : list (list T)) : Prop :=
  exists (t1 t2 : nat) (g : list T),
    t1 <> t2 /\ gs !! t1 = Some g /\ gs !! t2 = Some g.

Section LoadSpec.
Variable hash_int64 : Z -> Z.
Variable hash_string : string -> Z.
Variables (all : bool) (M N : Z).
Variable ngram_counts : list Z.
Variable pool_strings : list string.
Variable pool_int64s : list Z.
Variable total_items : Z.

(** The run of order [i + 1] is loaded into the pool. *)
Definition run_retained (i : nat) : bool :=
  retained_order all M N (Z.of_nat i + 1).

(** The run of order [i + 1] holds two equal n-grams, in the vocabulary in
    use. *)
Definition run_duplicated (i : nat) : Prop :=
  if empty pool_strings
  then duplicate_in (run_ngrams ngram_counts total_items pool_int64s i)
  else duplicate_in (run_ngrams ngram_counts total_items pool_strings i).

Definition run_distinct (i : nat) : bool :=
  if empty pool_strings
  then bool_decide (NoDup (run_ngrams ngram_counts total_items pool_int64s i))
  else bool_decide (NoDup (run_ngrams ngram_counts total_items pool_strings i)).

Definition E_duplicates (ngram_size : Z) : enforce_site :=
  if empty pool_strings then E_int64_duplicates ngram_size
  else E_string_duplicates ngram_size.

(** What the run of order [i + 1] violates, if anything. *)
Definition run_failure (i : nat) : option enforce_site :=
  if negb (run_in_bounds ngram_counts total_items i)
  then Some (E_counts_out_of_bounds (Z.of_nat i + 1))
  else if negb (run_whole ngram_counts total_items i)
  then Some (E_whole_ngrams (Z.of_nat i + 1))
  else if run_retained i && negb (run_distinct i)
  then Some (E_duplicates (Z.of_nat i + 1))
  else None.

(** The violation of the first faulty run among [i, ..., i + todo - 1]. *)
Fixpoint first_failure (todo : nat) (i : nat) : option enforce_site :=
  match todo with
  | O => None
  | S todo' =>
      match run_failure i with
      | Some e => Some e
      | None => first_failure todo' (S i)
      end
  end.

(** The state of the loop when it enters iteration [i]. *)
Definition load_inv (i : nat) (st : load_state) : Prop :=
  ngram_size st = Z.of_nat i + 1
  /\ ngram_id st = size (ngrams_upto ngram_counts total_items pool_int64s i)
  /\ if empty pool_strings
     then pool_holds hash_int64 all M N ngram_counts total_items
            pool_int64s i (int_set st)
          /\ str_set st = []
     else pool_holds hash_string all M N ngram_counts total_items
            pool_strings i (str_set st)
          /\ int_set st = [].
End LoadSpec.

(** ** Frequencies *)

(** Every slot holds a [uint32_t] value. *)
Definition counters (f : list Z) : Prop :=
  Forall (fun c => 0 <= c < 2 ^ 32) f.

(** The frequencies [ComputeImpl] starts from. *)
Definition zeros (impl : Impl) : list Z :=
  replicate (Z.to_nat (output_size_ impl)) 0.

(** The frequencies have one slot per output bin. *)
Definition sized (impl : Impl) (f : list Z) : Prop :=
  length f = length (zeros impl).

(** The kernel with another skip count. *)
Definition with_S (impl : Impl) (S : Z) : Impl :=
  {| weighting_criteria_ := weighting_criteria_ impl;
     N_ := N_ impl; M_ := M_ impl; S_ := S; all_ := all_ impl;
     ngram_counts_ := ngram_counts_ impl;
     ngram_indexes_ := ngram_indexes_ impl;
     weights_ := weights_ impl;
     pool_strings_ := pool_strings_ impl;
     str_set_ := str_set_ impl;
     int_set_ := int_set_ impl;
     output_size_ := output_size_ impl |}.

(** Every id of the set has an entry in [ngram_indexes_]. *)
Definition pool_safe {T : Type} (impl : Impl) (pool : PoolSet T) : Prop :=
  forall e, e ∈ pool -> 0 <= Id e < size (ngram_indexes_ impl).

(** Every entry of [ngram_indexes_] is a slot of the frequencies. *)
Definition indexes_safe (impl : Impl) : Prop :=
  Forall (fun idx => 0 <= idx < output_size_ impl) (ngram_indexes_ impl).

(** A property the loops keep: the frequencies stay a vector of the same
    length whose slots are [uint32_t] values. *)
Definition keeps (f : list Z) (r : result (list Z)) : Prop :=
  forall f', r = Ok f' -> length f' = length f /\ (counters f -> counters f').

Section Passes.
Context {T : Type} `{EqDecision T}.
Variable hf : T -> Z.
Variable impl : Impl.
Variable pool : PoolSet T.
Variable input_data : list T.
Variable end_data : Z.

(** [start_ngram_size] as [ComputeImpl] initialises it. *)
Definition first_order : Z := if all_ impl then M_ impl else N_ impl.

(** The counts of the unigram pass alone. *)
Definition unigram_pass : result (list Z) :=
  frequencies ← vector_resize (output_size_ impl);
  if first_order =? 1
  then unigram_loop hf impl pool input_data (Z.to_nat end_data) 0 frequencies
  else mret frequencies.

(** What the scan needs to run without a failure: ids and bins in range,
    the scanned items inside the buffer, orders from 1 to [N_], the
    counters [ni] and [si] below [INT_MAX] and frequencies that [resize]
    can hold. *)
Definition scan_safe : Prop :=
  pool_safe impl pool /\ indexes_safe impl
  /\ 0 <= end_data <= size input_data
  /\ 0 < first_order <= N_ impl
  /\ N_ impl < INT_MAX /\ S_ impl + 1 < INT_MAX
  /\ output_size_ impl <= vector_max_size.
End Passes.

(** The hits of [todo] passes of distances [si, si + 1, ...] over [len]
    equal tokens, for a pool that holds the bigram of that token: a pass of
    distance [d] has one hit per start position [p] with [p + d < len]. *)
Fixpoint constant_hits (todo : nat) (si : Z) (len : Z) : Z :=
  match todo with
  | O => 0
  | S todo' => Z.max 0 (len - si) + constant_hits todo' (si + 1) len
  end.

(** ** Statements about the constructor *)

(** The result is the failure of one of the two duplicate checks. *)
Definition duplicate_error {A : Type} (r : result A) : Prop :=
  exists k, r = Err (Enforce (E_int64_duplicates k))
            \/ r = Err (Enforce (E_string_duplicates k)).

Section DuplicateClaim.
Variable hash_int64 : Z -> Z.
Variable hash_string : string -> Z.
Variable impl : Impl.
Variable pool_int64s : list Z.

(** Some retained run of the vocabulary holds two equal n-grams. *)
Definition vocabulary_duplicate : Prop :=
  exists i,
    (i < length (ngram_counts_ impl))%nat
    /\ run_retained (all_ impl) (to_size_t (M_ impl)) (to_size_t (N_ impl)) i
       = true
    /\ run_duplicated (ngram_counts_ impl) (pool_strings_ impl) pool_int64s
         (vocabulary_size (pool_strings_ impl) pool_int64s) i.

(** Every run passes the bounds check and the whole n-gram check. *)
Definition runs_ok : Prop :=
  forall i,
    (i < length (ngram_counts_ impl))%nat ->
    run_ok (ngram_counts_ impl)
      (vocabulary_size (pool_strings_ impl) pool_int64s) i = true.

(** Loading the pool fails on duplicates exactly when the vocabulary has
    some. *)
Definition duplicate_detection : Prop :=
  duplicate_error (Ngram_load hash_int64 hash_string impl pool_int64s)
  <-> vocabulary_duplicate.
End DuplicateClaim.

(** What the constructor has checked when it enters its loop. *)
Record accepted (info : OpKernelInfo) (impl : Impl) (pool_int64s : list Z)
  : Prop := {
  accepted_mode :
    exists mode, attr_mode info = Some mode
                 /\ weighting_criteria_ impl = mode_criteria mode
                 /\ weighting_criteria_ impl <> kNone;
  accepted_M : attr_M info = Some (M_ impl) /\ 0 < M_ impl;
  accepted_N : attr_N info = Some (N_ impl) /\ M_ impl <= N_ impl;
  accepted_S : attr_S info = Some (S_ impl);
  accepted_counts :
    attr_ngram_counts info = Some (ngram_counts_ impl)
    /\ N_ impl <= size (ngram_counts_ impl);
  accepted_indexes :
    attr_ngram_indexes info = Some (ngram_indexes_ impl)
    /\ ngram_indexes_ impl <> []
    /\ Forall (fun idx => 0 <= idx) (ngram_indexes_ impl);
  accepted_output_size :
    output_size_ impl = max_element (ngram_indexes_ impl) + 1;
  accepted_weights :
    (attr_weights info = None /\ weights_ impl = [])
    \/ (attr_weights info = Some (weights_ impl)
        /\ size (weights_ impl) = size (ngram_indexes_ impl));
  accepted_sets : str_set_ impl = [] /\ int_set_ impl = []
}.

(** The ids of a constructed kernel are the positions in the vocabulary:
    the loop that built it ended with the counter at the number of n-grams
    of all runs, every run took [run_count] ids whether it was retained or
    not, and the set in use holds exactly the n-grams of retained order,
    each under its position among all n-grams. *)
Definition ids_are_positions (hash_int64 : Z -> Z) (hash_string : string -> Z)
           (info : OpKernelInfo) (kernel : Impl) : Prop :=
  exists impl pool_int64s st,
    Ngram_attributes info = Ok (impl, pool_int64s)
    /\ Ngram_load hash_int64 hash_string impl pool_int64s = Ok st
    /\ int_set_ kernel = int_set st /\ str_set_ kernel = str_set st
    /\ let counts := ngram_counts_ impl in
       let total := vocabulary_size (pool_strings_ impl) pool_int64s in
       let retained := retained_order (all_ impl) (M_ impl) (N_ impl) in
       ngram_id st = size (vocabulary_ngrams counts total pool_int64s)
       /\ (forall i,
              (i < length counts)%nat ->
              0 <= run_count counts total i
              /\ size (ngrams_upto counts total pool_int64s (S i))
                 = size (ngrams_upto counts total pool_int64s i)
                   + run_count counts total i)
       /\ (empty (pool_strings_ impl) = true ->
           str_set_ kernel = []
           /\ forall e : NgramItem Z,
                e ∈ int_set_ kernel <->
                exists (p : nat) (g : list Z),
                  vocabulary_ngrams counts total pool_int64s !! p = Some g
                  /\ retained (size g) = true
                  /\ e = NgramItem_range hash_int64 (Z.of_nat p) g)
       /\ (empty (pool_strings_ impl) = false ->
           int_set_ kernel = []
           /\ forall e : NgramItem string,
                e ∈ str_set_ kernel <->
                exists (p : nat) (g : list string),
                  vocabulary_ngrams counts total (pool_strings_ impl) !! p
                  = Some g
                  /\ retained (size g) = true
                  /\ e = NgramItem_range hash_string (Z.of_nat p) g).

(** ** Statements about Compute *)

(** The element types [Compute] dispatches on. *)
Definition supported (dt : MLDataType) : bool :=
  match dt with
  | dt_int32 | dt_int64 | dt_string => true
  | _ => false
  end.

(** The number of elements the buffer of a tensor holds. *)
Definition elements (X : Tensor) : Z :=
  match Buffer X with
  | buffer_int32 d | buffer_int64 d => size d
  | buffer_string d => size d
  | buffer_float d | buffer_double d => size d
  | buffer_bool d => size d
  end.

(** The scan stays inside the buffer. *)
Definition tensor_fits (X : Tensor) : Prop :=
  total_items_of (Shape X) <= elements X.

(** [OutputResult] passes its assertions. *)
Definition output_safe (impl : Impl) : Prop :=
  match weighting_criteria_ impl with
  | kNone => False
  | kTF => True
  | kIDF | kTFIDF =>
      weights_ impl = [] \/ size (weights_ impl) = output_size_ impl
  end.

(** A kernel whose invocations cannot fail. *)
Definition kernel_safe (impl : Impl) : Prop :=
  pool_safe impl (int_set_ impl) /\ pool_safe impl (str_set_ impl)
  /\ indexes_safe impl /\ output_safe impl /\ 0 <= output_size_ impl
  /\ 0 < first_order impl <= N_ impl
  /\ N_ impl < INT_MAX /\ S_ impl + 1 < INT_MAX
  /\ output_size_ impl <= vector_max_size.

(** The session with another output tensor. *)
Definition with_output (s : Session) (out : option (list float32)) : Session :=
  {| impl_ := impl_ s; Input0 := Input0 s; Output0 := out |}.

(** The session with another input tensor. *)
Definition with_input (s : Session) (X : Tensor) : Session :=
  {| impl_ := impl_ s; Input0 := X; Output0 := Output0 s |}.

(** The call of [ComputeImpl] that [Compute] dispatches to, if any. *)
Definition dispatch (hash_int64 : Z -> Z) (hash_string : string -> Z)
           (s : Session) : option (result (list float32)) :=
  let X := Input0 s in
  let total_items := total_items_of (Shape X) in
  match DataType X with
  | dt_int32 | dt_int64 =>
      Some (ComputeImpl hash_int64 (impl_ s) (int_set_ (impl_ s))
              (Data_integer X) total_items)
  | dt_string =>
      Some (ComputeImpl hash_string (impl_ s) (str_set_ (impl_ s))
              (Data_string X) total_items)
  | _ => None
  end.

(** ** Statements about the skip count *)

Section SkipClaim.
Context {T : Type} `{EqDecision T}.
Variable hf : T -> Z.
Variable impl : Impl.
Variable pool : PoolSet T.
Variable input_data : list T.
Variable end_data : Z.

(** No slot of the frequencies for skip count [S + 1] is below the slot
    for skip count [S]. *)
Definition skip_monotone (S : Z) : Prop :=
  forall f0 f1,
    ComputeImpl_frequencies hf (with_S impl S) pool input_data end_data
    = Ok f0 ->
    ComputeImpl_frequencies hf (with_S impl (S + 1)) pool input_data end_data
    = Ok f1 ->
    Forall2 Z.le f0 f1.
End SkipClaim.

(** ** Hashers and configurations used in examples *)

(** [std::hash<int64_t>] as libstdc++ and libc++ define it: the value,
    converted to [size_t]. *)
Definition identity_hash (v : Z) : Z := to_size_t v.

(** [std::hash<std::string>] as the 64-bit FNV-1a of the bytes, one of the
    hashers in use. *)
Fixpoint fnv1a (h : Z) (s : string) : Z :=
  match s with
  | EmptyString => h
  | String c s' =>
      fnv1a (wrap64 (Z.lxor h (Z.of_N (Ascii.N_of_ascii c)) * 1099511628211)) s'
  end.
Definition fnv1a_hash (s : string) : Z := fnv1a 14695981039346656037 s.

(** The scenario of the specification: unigrams "a" and "b" under ids 0 and
    1, the bigram ("a", "b") under id 2, all orders retained, mode TF. *)
Definition scenario_info (S : Z) : OpKernelInfo := {|
  attr_mode := Some "TF"%string;
  attr_M := Some 1;
  attr_N := Some 2;
  attr_S := Some S;
  attr_all := Some 1;
  attr_ngram_counts := Some [0; 2];
  attr_ngram_indexes := Some [0; 1; 2];
  attr_weights := None;
  attr_pool_strings := Some ["a"; "b"; "a"; "b"]%string;
  attr_pool_int64s := None
|}.

(** The scenario with [N = 3]: there is no third boundary. *)
Definition trigram_request_info : OpKernelInfo := {|
  attr_mode := Some "TF"%string;
  attr_M := Some 1;
  attr_N := Some 3;
  attr_S := Some 0;
  attr_all := Some 1;
  attr_ngram_counts := Some [0; 2];
  attr_ngram_indexes := Some [0; 1; 2];
  attr_weights := None;
  attr_pool_strings := Some ["a"; "b"; "a"; "b"]%string;
  attr_pool_int64s := None
|}.

Definition scenario_input : Tensor :=
  {| Shape := [3]; Buffer := buffer_string ["a"; "b"; "a"]%string |}.

(** Order 2 is cut into one and a half bigrams, which the loop rejects
    before it reaches order 3, the only retained order, whose run holds the
    trigram (7, 7, 7) twice. *)
Definition broken_run_pool : list Z := [1; 2; 2; 2; 7; 7; 7; 7; 7; 7].

Definition broken_run_info : OpKernelInfo := {|
  attr_mode := Some "TF"%string;
  attr_M := Some 3;
  attr_N := Some 3;
  attr_S := Some 0;
  attr_all := Some 0;
  attr_ngram_counts := Some [0; 1; 4];
  attr_ngram_indexes := Some [0; 1; 2; 3];
  attr_weights := None;
  attr_pool_strings := None;
  attr_pool_int64s := Some broken_run_pool
|}.

(** The members the constructor reads from [broken_run_info]. *)
Definition broken_run_impl : Impl := {|
  weighting_criteria_ := kTF;
  N_ := 3; M_ := 3; S_ := 0; all_ := false;
  ngram_counts_ := [0; 1; 4];
  ngram_indexes_ := [0; 1; 2; 3];
  weights_ := [];
  pool_strings_ := [];
  str_set_ := [];
  int_set_ := [];
  output_size_ := 4
|}.

(** Two runs that pass the checks of the loop; the bigram (7, 8) comes
    twice. *)
Definition twin_bigram_impl : Impl := {|
  weighting_criteria_ := kTF;
  N_ := 2; M_ := 1; S_ := 0; all_ := true;
  ngram_counts_ := [0; 2];
  ngram_indexes_ := [0; 1; 2; 3];
  weights_ := [];
  pool_strings_ := [];
  str_set_ := [];
  int_set_ := [];
  output_size_ := 4
|}.
Definition twin_bigram_pool : list Z := [7; 8; 7; 8; 7; 8].

(** Three unigrams under the ids 0, 1 and 2, and a single entry in
    [ngram_indexes]. *)
Definition short_indexes_info : OpKernelInfo := {|
  attr_mode := Some "TF"%string;
  attr_M := Some 1;
  attr_N := Some 1;
  attr_S := Some 0;
  attr_all := Some 0;
  attr_ngram_counts := Some [0];
  attr_ngram_indexes := Some [0];
  attr_weights := None;
  attr_pool_strings := None;
  attr_pool_int64s := Some [1; 2; 3]
|}.

Definition short_indexes_input : Tensor :=
  {| Shape := [1]; Buffer := buffer_int64 [2] |}.

(** A pool of the single bigram (5, 5), bigrams only. *)
Definition bigram_info (S : Z) : OpKernelInfo := {|
  attr_mode := Some "TF"%string;
  attr_M := Some 2;
  attr_N := Some 2;
  attr_S := Some S;
  attr_all := Some 0;
  attr_ngram_counts := Some [0; 0];
  attr_ngram_indexes := Some [0];
  attr_weights := None;
  attr_pool_strings := None;
  attr_pool_int64s := Some [5; 5]
|}.

(** The kernel the constructor builds from [bigram_info S]. *)
Definition bigram_kernel (hash_int64 : Z -> Z) (S : Z) : Impl := {|
  weighting_criteria_ := kTF;
  N_ := 2; M_ := 2; S_ := S; all_ := false;
  ngram_counts_ := [0; 0];
  ngram_indexes_ := [0];
  weights_ := [];
  pool_strings_ := [];
  str_set_ := [];
  int_set_ := [NgramItem_range hash_int64 0 [5; 5]];
  output_size_ := 1
|}.

(** 2^17 tokens, all equal to 5. *)
Definition long_input : list Z := replicate (Z.to_nat 131072) 5.

(** An input of an element type the kernel is not registered for. *)
Definition float_input : Tensor :=
  {| Shape := [2]; Buffer := buffer_float [float_one; float_two] |}.

(** The scenario in mode TFIDF, without weights. *)
Definition scenario_TFIDF_info : OpKernelInfo := {|
  attr_mode := Some "TFIDF"%string;
  attr_M := Some 1;
  attr_N := Some 2;
  attr_S := Some 0;
  attr_all := Some 1;
  attr_ngram_counts := Some [0; 2];
  attr_ngram_indexes := Some [0; 1; 2];
  attr_weights := None;
  attr_pool_strings := Some ["a"; "b"; "a"; "b"]%string;
  attr_pool_int64s := None
|}.

(** "a" and "b" with one token between them. *)
Definition gapped_input : list string := ["a"; "x"; "b"]%string.

(** The scenario with bigrams only: the two unigrams are not retained. *)
Definition bigrams_only_info : OpKernelInfo := {|
  attr_mode := Some "TF"%string;
  attr_M := Some 2;
  attr_N := Some 2;
  attr_S := Some 0;
  attr_all := Some 0;
  attr_ngram_counts := Some [0; 2];
  attr_ngram_indexes := Some [0; 1; 2];
  attr_weights := None;
  attr_pool_strings := Some ["a"; "b"; "a"; "b"]%string;
  attr_pool_int64s := None
|}.


(** * Definitions for further properties *)

(** The attributes the constructor accepts before it loads the pool. *)
Definition attributes_valid (info : OpKernelInfo) : bool :=
  match attr_mode info, attr_M info, attr_N info, attr_S info, attr_all info,
        attr_ngram_counts info, attr_ngram_indexes info with
  | Some mode, Some M, Some N, Some _, Some _, Some counts, Some indexes =>
      negb (is_kNone (mode_criteria mode))
      && (0 <? M) && (M <=? N)
      && negb (empty counts) && (N <=? size counts)
      && negb (empty indexes) && forallb (fun i => 0 <=? i) indexes
      && match attr_weights info with
         | Some weights => size weights =? size indexes
         | None => true
         end
      && match attr_pool_strings info with
         | Some pool_strings => negb (empty pool_strings)
         | None =>
             match attr_pool_int64s info with
             | Some pool_int64s => negb (empty pool_int64s)
             | None => false
             end
         end
  | _, _, _, _, _, _, _ => false
  end.

(** [OutputResult] uses the weights: the mode is IDF or TFIDF and the
    weights are not empty. *)
Definition weighted (impl : Impl) : bool :=
  match weighting_criteria_ impl with
  | kIDF | kTFIDF => negb (empty (weights_ impl))
  | _ => false
  end.

(** A count as IDF sees it: present or absent. *)
Definition presence (c : Z) : Z := if 0 <? c then 1 else 0.

(** ** The windows a scan looks up *)

Section Windows.
Context {T : Type} `{EqDecision T}.
Variable impl : Impl.
Variable pool : PoolSet T.
Variable input_data : list T.
Variable end_data : Z.

(** The [k] tokens at the offsets [p], [p + si], ..., [p + (k - 1) * si]. *)
Definition window (p si : Z) (k : nat) : list T :=
  omap (fun j => input_data !! Z.to_nat (p + Z.of_nat j * si)) (seq 0 k).

(** The last token of that window lies before [end_data]. *)
Definition fits (p si : Z) (k : nat) : bool :=
  p + (Z.of_nat k - 1) * si <? end_data.

(** The windows that start at [p], of distance [si] and of an order from
    [k0] to [N_], shortest first. *)
Definition windows_at (si k0 : Z) (p : nat) : list (list T) :=
  flat_map
    (fun k => if (k0 <=? Z.of_nat k) && fits (Z.of_nat p) si k
              then [window (Z.of_nat p) si k] else [])
    (seq 1 (Z.to_nat (N_ impl))).

(** The windows of one pass of distance [si], by start offset. *)
Definition pass_windows (si k0 : Z) : list (list T) :=
  flat_map (windows_at si k0) (seq 0 (Z.to_nat end_data)).

(** The single tokens, by offset. *)
Definition unigram_windows : list (list T) :=
  flat_map (fun p => [window (Z.of_nat p) 1 1]) (seq 0 (Z.to_nat end_data)).

(** Every window the scan looks up in the pool, in the order of the scan:
    the single tokens once if the first order is 1, then for each distance
    [1, ..., S_ + 1] the windows of the orders from the first order (from 2
    if that is 1) to [N_]. *)
Definition tested_windows : list (list T) :=
  (if first_order impl =? 1 then unigram_windows else [])
  ++ flat_map
       (fun j =>
          pass_windows (1 + Z.of_nat j)
            (if first_order impl =? 1 then first_order impl + 1
             else first_order impl))
       (seq 0 (Z.to_nat (S_ impl + 1))).

(** The id of the pool entry whose items are the window, and the output bin
    [ngram_indexes_] gives for it. *)
Definition lookup_id (w : list T) : option Z :=
  match set_find pool {| Id := 0; items_ := w; hash_ := 0 |} with
  | Some hit => Some (Id hit)
  | None => None
  end.
Definition bin_of (w : list T) : option nat :=
  match lookup_id w with
  | Some id => Some (Z.to_nat (nth (Z.to_nat id) (ngram_indexes_ impl) 0))
  | None => None
  end.

(** One more occurrence in bin [b]. *)
Definition bump (b : nat) (f : list Z) : list Z :=
  alter (fun c => wrap32 (c + 1)) b f.

(** The frequencies after the windows [ws] were looked up. *)
Definition tally (ws : list (list T)) (f : list Z) : list Z :=
  foldl (fun f w => match bin_of w with Some b => bump b f | None => f end)
    f ws.

(** How many of the windows [ws] fall into bin [b]. *)
Definition occurrences (b : nat) (ws : list (list T)) : Z :=
  Z.of_nat
    (length (List.filter (fun w => bool_decide (bin_of w = Some b)) ws)).
End Windows.

(** The number of windows of the tensor [X] that the scan of the kernel
    looks up and finds in the pool under an id of bin [b]. *)
Definition hits (impl : Impl) (X : Tensor) (b : nat) : Z :=
  let total_items := total_items_of (Shape X) in
  match Buffer X with
  | buffer_int32 d | buffer_int64 d =>
      occurrences impl (int_set_ impl) b (tested_windows impl d total_items)
  | buffer_string d =>
      occurrences impl (str_set_ impl) b (tested_windows impl d total_items)
  | _ => 0
  end.

(** The product of the dimensions, each read as a [size_t]. *)
Definition dims_product (input_dims : list Z) : Z :=
  foldr (fun dim product => to_size_t dim * product) 1 input_dims.

(** ** Further configurations used in examples *)

(** The two runs of [twin_bigram_impl] with a negative first boundary. *)
Definition negative_boundary_impl : Impl := {|
  weighting_criteria_ := kTF;
  N_ := 2; M_ := 1; S_ := 0; all_ := true;
  ngram_counts_ := [-1; 2];
  ngram_indexes_ := [0; 1; 2; 3];
  weights_ := [];
  pool_strings_ := [];
  str_set_ := [];
  int_set_ := [];
  output_size_ := 4
|}.

(** The scenario with a pool of integers beside the pool of strings. *)
Definition both_pools_info : OpKernelInfo := {|
  attr_mode := Some "TF"%string;
  attr_M := Some 1;
  attr_N := Some 2;
  attr_S := Some 0;
  attr_all := Some 1;
  attr_ngram_counts := Some [0; 2];
  attr_ngram_indexes := Some [0; 1; 2];
  attr_weights := None;
  attr_pool_strings := Some ["a"; "b"; "a"; "b"]%string;
  attr_pool_int64s := Some [1; 2; 3; 4]
|}.

(** Mode IDF without weights, three bins. *)
Definition idf_impl : Impl := {|
  weighting_criteria_ := kIDF;
  N_ := 2; M_ := 1; S_ := 0; all_ := true;
  ngram_counts_ := [0; 2];
  ngram_indexes_ := [0; 1; 2];
  weights_ := [];
  pool_strings_ := [];
  str_set_ := [];
  int_set_ := [];
  output_size_ := 3
|}.

(** The scenario in mode IDF with a weight per entry of [ngram_indexes],
    whose largest entry is 5: six bins for three weights. *)
Definition sparse_weights_info : OpKernelInfo := {|
  attr_mode := Some "IDF"%string;
  attr_M := Some 1;
  attr_N := Some 2;
  attr_S := Some 0;
  attr_all := Some 1;
  attr_ngram_counts := Some [0; 2];
  attr_ngram_indexes := Some [0; 1; 5];
  attr_weights := Some [float_one; float_two; float_two];
  attr_pool_strings := Some ["a"; "b"; "a"; "b"]%string;
  attr_pool_int64s := None
|}.

(** Three unigrams of integers, a bin for each, and a skip count. *)
Definition unigram_info (S : Z) : OpKernelInfo := {|
  attr_mode := Some "TF"%string;
  attr_M := Some 1;
  attr_N := Some 1;
  attr_S := Some S;
  attr_all := Some 0;
  attr_ngram_counts := Some [0];
  attr_ngram_indexes := Some [0; 1; 2];
  attr_weights := None;
  attr_pool_strings := None;
  attr_pool_int64s := Some [1; 2; 3]
|}.

(** * TransposeBase (onnxruntime/core/providers/cpu/tensor/transpose.h)

    [ORT_THROW] throws; [operator[]] of a vector past its end is a
    failure of its own. *)

Inductive transpose_failure : Type :=
| T_outside_range (i : Z)
| T_repeated (i : Z)
| T_vector_past_end.

Inductive outcome (A : Type) : Type :=
| Done (a : A)
| Thrown (f : transpose_failure).
Arguments Done {A} a.
Arguments Thrown {A} f.

Definition is_done {A} (r : outcome A) : bool :=
  match r with Done _ => true | Thrown _ => false end.

Record TransposeBase : Type := {
  perm_specified_ : bool;
  perm_ : list Z
}.

(** The loop of the constructor over [perm_]; [rank] is [perm_.size()] and
    [seen] the vector of flags. *)
Fixpoint perm_check (rank : Z) (perm : list Z) (seen : list bool)
  : outcome (list bool) :=
  match perm with
  | [] => Done seen
  | i :: perm' =>
      if (i <? 0) || (i >=? rank) then Thrown (T_outside_range i)
      else
        match seen !! Z.to_nat i with
        | None => Thrown T_vector_past_end
        | Some true => Thrown (T_repeated i)
        | Some false => perm_check rank perm' (<[Z.to_nat i := true]> seen)
        end
  end.

(** [TransposeBase::TransposeBase]. [attr_perm] is the attribute "perm" if
    [GetAttrs] finds it; otherwise [perm_] stays empty. *)
Definition TransposeBase_ctor (attr_perm : option (list Z))
  : outcome TransposeBase :=
  let status := attr_perm in
  let perm := fetched [] status in
  if IsOK status then
    let rank := size perm in
    let seen := replicate (Z.to_nat rank) false in
    match perm_check rank perm seen with
    | Done _ => Done {| perm_specified_ := true; perm_ := perm |}
    | Thrown f => Thrown f
    end
  else Done {| perm_specified_ := false; perm_ := perm |}.

(** [for (int i = 0; i < rank; ++i) default_perm[i] = rank - i - 1;] *)
Fixpoint default_perm_loop (todo : nat) (i rank : Z) (default_perm : list Z)
  : list Z :=
  match todo with
  | O => default_perm
  | S todo' =>
      default_perm_loop todo' (i + 1) rank
        (<[Z.to_nat i := rank - i - 1]> default_perm)
  end.

(** [for (int i = 0; i < rank; i++) output_dims[i] = input_dims[p_perm[i]];]
    with the entry of the permutation converted to [size_t]. *)
Fixpoint output_dims_loop (todo : nat) (i : Z)
         (input_dims p_perm output_dims : list Z) : outcome (list Z) :=
  match todo with
  | O => Done output_dims
  | S todo' =>
      match p_perm !! Z.to_nat i with
      | None => Thrown T_vector_past_end
      | Some v =>
          let inpdim := to_size_t v in
          match input_dims !! Z.to_nat inpdim with
          | None => Thrown T_vector_past_end
          | Some d =>
              output_dims_loop todo' (i + 1) input_dims p_perm
                (<[Z.to_nat i := d]> output_dims)
          end
      end
  end.

(** What [ComputeOutputShape] leaves in its three output arguments. *)
Record OutputShape : Type := {
  output_dims_ : list Z;
  default_perm_ : list Z;
  p_perm_ : list Z
}.

(** [TransposeBase::ComputeOutputShape]; [input_dims] is [X.Shape()], and
    [output_dims] and [default_perm] are the vectors as the caller passes
    them. *)
Definition ComputeOutputShape (this : TransposeBase)
           (input_dims output_dims default_perm : list Z)
  : outcome OutputShape :=
  let rank := size input_dims in
  let default_perm := resize (Z.to_nat rank) 0 default_perm in
  let default_perm :=
    if perm_specified_ this then default_perm
    else default_perm_loop (Z.to_nat rank) 0 rank default_perm in
  let p_perm := if perm_specified_ this then perm_ this else default_perm in
  let output_dims := resize (Z.to_nat rank) 0 output_dims in
  match output_dims_loop (Z.to_nat rank) 0 input_dims p_perm output_dims with
  | Done output_dims =>
      Done {| output_dims_ := output_dims; default_perm_ := default_perm;
              p_perm_ := p_perm |}
  | Thrown f => Thrown f
  end.

(** The identity permutation of [rank] axes. *)
Definition axes (rank : nat) : list Z := Z.of_nat <$> seq 0 rank.

(** Examples: a cyclic permutation of three axes and a shape to apply it
    to. *)
Definition rotate_perm : list Z := [2; 0; 1].
Definition sample_dims : list Z := [5; 6; 7].

(** The dimension [output_dims[j]] is set to: the dimension of the input
    at the [j]-th entry of the permutation, if both are there. *)
Definition picked (input_dims p_perm : list Z) (j : nat) : option Z :=
  match p_perm !! j with
  | Some v => input_dims !! Z.to_nat (to_size_t v)
  | None => None
  end.

(** * Properties *)

(** ** The result monad *)

Lemma bind_Ok {A B} (m : result A) (k : A -> result B) (b : B) :
  m ≫= k = Ok b -> exists a, m = Ok a /\ k a = Ok b.
Proof. destruct m as [a|f]; simpl; [eauto | discriminate]. Qed.

Lemma bind_Err {A B} (m : result A) (k : A -> result B) (f : failure) :
  m ≫= k = Err f -> m = Err f \/ exists a, m = Ok a /\ k a = Err f.
Proof. destruct m as [a|f']; simpl; [eauto | intros [= ->]; auto]. Qed.

Lemma ORT_ENFORCE_Ok cond e u : ORT_ENFORCE cond e = Ok u -> cond = true.
Proof. destruct cond; [reflexivity | discriminate]. Qed.

Lemma ASSERT_Ok cond a u : ASSERT cond a = Ok u -> cond = true.
Proof. destruct cond; [reflexivity | discriminate]. Qed.

(** ** NgramItem and the pool set *)

Section NgramItemFacts.
Context {T : Type} `{EqDecision T}.
Variable hf : T -> Z.

Implicit Types (c : PoolSet T) (e i : NgramItem T) (g : list T).

Lemma NgramItem_eqb_eq e i : NgramItem_eqb e i = true <-> items_ e = items_ i.
Proof. unfold NgramItem_eqb. apply bool_decide_eq_true. Qed.

(** Items built by the constructor, or by [AddItem] from a cleared
    sample, carry the hash of their items. *)
Definition hashed e : Prop := hash_ e = foldl (RunningHash hf) 0 (items_ e).

Lemma hashed_range id g : hashed (NgramItem_range hf id g).
Proof. reflexivity. Qed.

Lemma hashed_Clear e : hashed (Clear e).
Proof. reflexivity. Qed.

Lemma hashed_AddItem e v : hashed e -> hashed (AddItem hf e v).
Proof.
  unfold hashed. simpl. intros ->. now rewrite foldl_app.
Qed.

(** The hash is consistent with [operator==], as [std::unordered_set]
    requires of its hasher. *)
Lemma Hash_consistent e i :
  hashed e -> hashed i -> NgramItem_eqb e i = true -> Hash e = Hash i.
Proof.
  unfold hashed, Hash. intros -> -> Heq%NgramItem_eqb_eq. now rewrite Heq.
Qed.

Lemma set_find_Some c i e :
  set_find c i = Some e -> e ∈ c /\ items_ e = items_ i.
Proof.
  unfold set_find. intros [Hin Heq]%find_some.
  split; [now apply list_elem_of_In | now apply NgramItem_eqb_eq].
Qed.

Lemma set_find_None c i :
  set_find c i = None <-> forall e, e ∈ c -> items_ e <> items_ i.
Proof.
  unfold set_find. split.
  - intros Hnone e Hin%list_elem_of_In Heq.
    pose proof (find_none _ _ Hnone e Hin) as Hf. simpl in Hf.
    apply NgramItem_eqb_eq in Heq. congruence.
  - intros Hall. destruct (find _ c) as [e|] eqn:Hf; [|reflexivity].
    apply find_some in Hf as [Hin Heq].
    apply list_elem_of_In in Hin. apply NgramItem_eqb_eq in Heq.
    now destruct (Hall e Hin).
Qed.

Lemma set_find_items c i i' :
  items_ i = items_ i' -> set_find c i = set_find c i'.
Proof.
  intros Heq. unfold set_find, NgramItem_eqb. now rewrite Heq.
Qed.
End NgramItemFacts.

(** ** Emplace *)

Section EmplaceFacts.
Context {T : Type} `{EqDecision T}.
Variable hf : T -> Z.

Implicit Types (c : PoolSet T) (e : NgramItem T) (g : list T)
  (gs : list (list T)).

Lemma Emplace_emplace_all first ngrams k id c :
  Emplace hf first ngrams k id c
  = (id + Z.of_nat ngrams, emplace_all hf id (ngrams_of first ngrams k) c).
Proof.
  revert first id c. induction ngrams as [|n IH]; intros first id c; simpl.
  - f_equal. lia.
  - rewrite IH. f_equal. lia.
Qed.

Lemma set_emplace_length c i :
  (length c <= length (set_emplace c i) <= S (length c))%nat.
Proof. unfold set_emplace. destruct (set_find c i); simpl; lia. Qed.

Lemma emplace_all_length_le id gs c :
  (length c <= length (emplace_all hf id gs c) <= length c + length gs)%nat.
Proof.
  revert id c. induction gs as [|g gs IH]; intros id c; simpl; [lia|].
  specialize (IH (id + 1) (set_emplace c (NgramItem_range hf id g))).
  pose proof (set_emplace_length c (NgramItem_range hf id g)). lia.
Qed.

(** No emplacement is skipped exactly when the n-grams are pairwise
    different and none is stored already. *)
Lemma emplace_all_length_eq id gs c :
  length (emplace_all hf id gs c) = (length c + length gs)%nat
  <-> NoDup gs /\ forall g e, g ∈ gs -> e ∈ c -> items_ e <> g.
Proof.
  revert id c. induction gs as [|g gs IH]; intros id c; simpl.
  - split; [intros _; split; [constructor | intros g e Hg; inversion Hg]
           | lia].
  - unfold set_emplace at 1.
    destruct (set_find c (NgramItem_range hf id g)) as [e0|] eqn:Hf.
    + apply set_find_Some in Hf as [Hin Heq]. simpl in Heq. split.
      * pose proof (emplace_all_length_le (id + 1) gs c). lia.
      * intros [_ Hnew]. destruct (Hnew g e0); auto. left.
    + replace (length c + S (length gs))%nat
        with (length (NgramItem_range hf id g :: c) + length gs)%nat
        by (simpl; lia).
      rewrite IH.
      pose proof (proj1 (set_find_None c _) Hf) as Hnone. simpl in Hnone.
      rewrite NoDup_cons. split.
      * intros [Hnd Hnew]. split; [split; [|exact Hnd]|].
        -- intros Hg. apply (Hnew g (NgramItem_range hf id g) Hg); [left|].
           reflexivity.
        -- intros g' e [->|Hg']%elem_of_cons He; [now apply Hnone|].
           apply Hnew; [exact Hg' | now right].
      * intros [[Hg Hnd] Hnew]. split; [exact Hnd|].
        intros g' e Hg' [->|He]%elem_of_cons.
        -- simpl. intros <-. contradiction.
        -- apply Hnew; [now right | exact He].
Qed.

Lemma emplace_all_elem_of id gs c e :
  e ∈ emplace_all hf id gs c ->
  e ∈ c \/ exists t g, gs !! t = Some g
                       /\ e = NgramItem_range hf (id + Z.of_nat t) g.
Proof.
  revert id c. induction gs as [|g gs IH]; intros id c; simpl; [auto|].
  intros [Hin|(t & g' & Ht & ->)]%IH.
  - unfold set_emplace in Hin. destruct (set_find _ _).
    + now left.
    + apply elem_of_cons in Hin as [->|Hin]; [|now left].
      right. exists 0%nat, g. split; [reflexivity|]. f_equal. lia.
  - right. exists (S t), g'. split; [exact Ht|]. f_equal. lia.
Qed.

Lemma emplace_all_mono id gs c e : e ∈ c -> e ∈ emplace_all hf id gs c.
Proof.
  revert id c. induction gs as [|g gs IH]; intros id c Hin; simpl; [easy|].
  apply IH. unfold set_emplace. destruct (set_find _ _); [easy | now right].
Qed.

Lemma emplace_all_new id gs c t g :
  NoDup gs -> (forall g e, g ∈ gs -> e ∈ c -> items_ e <> g) ->
  gs !! t = Some g ->
  NgramItem_range hf (id + Z.of_nat t) g ∈ emplace_all hf id gs c.
Proof.
  revert id c t. induction gs as [|g0 gs IH]; intros id c t Hnd Hnew Ht;
    [discriminate|].
  apply NoDup_cons in Hnd as [Hg0 Hnd]. simpl.
  assert (Hf : set_find c (NgramItem_range hf id g0) = None).
  { apply set_find_None. intros e He. simpl. apply Hnew; [left | exact He]. }
  unfold set_emplace at 1. rewrite Hf. destruct t as [|t]; simpl in Ht.
  - injection Ht as ->. apply emplace_all_mono.
    replace (id + Z.of_nat 0) with id by lia. left.
  - replace (id + Z.of_nat (S t)) with (id + 1 + Z.of_nat t) by lia.
    apply IH; [exact Hnd | | exact Ht].
    intros g' e Hg' [->|He]%elem_of_cons.
    + simpl. intros <-. contradiction.
    + apply Hnew; [now right | exact He].
Qed.
End EmplaceFacts.

(** ** Runs and their n-grams *)

Lemma to_size_t_nonneg z : 0 <= to_size_t z.
Proof.
  unfold to_size_t. destruct (Z.ltb_spec z 0); [|lia].
  apply Z.mod_pos_bound. lia.
Qed.

Lemma to_size_t_id z : 0 <= z -> to_size_t z = z.
Proof. unfold to_size_t. intros Hz. destruct (Z.ltb_spec z 0); lia. Qed.

Section RunFacts.
Context {T : Type}.
Variable ngram_counts : list Z.
Variable total_items : Z.

Implicit Types (vocab first : list T) (g : list T).

Local Abbreviation runs := (run_ngrams ngram_counts total_items).
Local Abbreviation upto := (ngrams_upto ngram_counts total_items).
Local Abbreviation count_of := (run_count ngram_counts total_items).
Local Abbreviation start_of := (start_idx_of ngram_counts).
Local Abbreviation end_of := (end_idx_of ngram_counts total_items).

Lemma ngrams_of_length first ngrams k :
  length (ngrams_of first ngrams k) = ngrams.
Proof.
  revert first. induction ngrams as [|n IH]; intros first; simpl;
    [reflexivity | now rewrite IH].
Qed.

Lemma ngrams_of_lookup first ngrams k t g :
  ngrams_of first ngrams k !! t = Some g ->
  (t < ngrams)%nat /\ g = take k (drop (t * k) first).
Proof.
  revert first t. induction ngrams as [|n IH]; intros first t; simpl;
    [done|].
  destruct t as [|t]; simpl.
  - intros [= <-]. split; [lia | reflexivity].
  - intros [Hlt ->]%IH. split; [lia|]. rewrite drop_drop.
    reflexivity.
Qed.

Lemma ngrams_of_item_length first ngrams k g :
  (ngrams * k <= length first)%nat ->
  g ∈ ngrams_of first ngrams k -> length g = k.
Proof.
  intros Hfit (t & Ht)%list_elem_of_lookup.
  apply ngrams_of_lookup in Ht as [Hlt ->].
  rewrite length_take, length_drop. nia.
Qed.

Lemma ngrams_of_item_length_le first ngrams k g :
  g ∈ ngrams_of first ngrams k -> (length g <= k)%nat.
Proof.
  intros (t & Ht)%list_elem_of_lookup.
  apply ngrams_of_lookup in Ht as [_ ->]. rewrite length_take. lia.
Qed.

Lemma run_ngrams_length vocab i :
  length (runs vocab i) = Z.to_nat (count_of i).
Proof. apply ngrams_of_length. Qed.

Lemma ngrams_upto_S vocab i :
  upto vocab (S i) = upto vocab i ++ runs vocab i.
Proof.
  unfold ngrams_upto.
  rewrite seq_S, map_app, concat_app. simpl. now rewrite app_nil_r.
Qed.

Lemma ngrams_upto_item_length_le vocab i g :
  g ∈ upto vocab i -> (length g <= i)%nat.
Proof.
  induction i as [|i IH]; [intros Hg; inversion Hg|].
  rewrite ngrams_upto_S.
  intros [Hg|Hg]%elem_of_app; [specialize (IH Hg); lia|].
  now apply ngrams_of_item_length_le in Hg.
Qed.

(** In a run that passed the two checks of the loop, every n-gram has
    the order of the run. *)
Lemma run_ngrams_item_length vocab i g :
  total_items = size vocab ->
  run_ok ngram_counts total_items i = true ->
  g ∈ runs vocab i -> length g = S i.
Proof.
  unfold run_ok, run_in_bounds, run_whole, size.
  intros Htotal [[Hse Het]%andb_prop Hwhole%Z.eqb_eq]%andb_prop Hg.
  apply Z.leb_le in Hse, Het.
  pose proof (to_size_t_nonneg (nth i ngram_counts 0)) as Hs0.
  fold (start_of i) in Hs0.
  apply ngrams_of_item_length in Hg; [exact Hg|].
  rewrite length_drop. unfold run_count.
  set (d := end_of i - start_of i) in *.
  assert (Hd : d = (Z.of_nat i + 1) * (d / (Z.of_nat i + 1))).
  { rewrite (Z.div_mod d (Z.of_nat i + 1)) at 1 by lia. lia. }
  assert (0 <= d / (Z.of_nat i + 1)) by (apply Z.div_pos; lia).
  nia.
Qed.
End RunFacts.

(** The size of the id space does not depend on the tokens. *)
Lemma ngrams_upto_length {T U : Type} ngram_counts total_items
      (vocab : list T) (vocab' : list U) i :
  length (ngrams_upto ngram_counts total_items vocab i)
  = length (ngrams_upto ngram_counts total_items vocab' i).
Proof.
  induction i as [|i IH]; [reflexivity|].
  rewrite !ngrams_upto_S, !length_app, IH.
  now rewrite !run_ngrams_length.
Qed.

(** ** One run of the loop, on either vocabulary *)

Lemma duplicate_in_NoDup {T : Type} (gs : list (list T)) :
  NoDup gs -> ~ duplicate_in gs.
Proof.
  intros Hnd (t1 & t2 & g & Hne & H1 & H2).
  apply Hne. eapply NoDup_lookup; eauto.
Qed.

Lemma not_NoDup_duplicate_in {T : Type} `{EqDecision T} (gs : list (list T)) :
  ~ NoDup gs -> duplicate_in gs.
Proof.
  induction gs as [|g gs IH]; intros Hnd; [destruct Hnd; constructor|].
  destruct (decide (g ∈ gs)) as [Hin|Hnin].
  - apply list_elem_of_lookup in Hin as [t Ht].
    exists 0%nat, (S t), g. split; [lia | split; [reflexivity | exact Ht]].
  - destruct IH as (t1 & t2 & g' & Hne & H1 & H2).
    + intros Hgs. apply Hnd. now constructor.
    + exists (S t1), (S t2), g'. split; [lia | split; assumption].
Qed.

Section PoolStep.
Context {T : Type} `{EqDecision T}.
Variable hf : T -> Z.
Variables (all : bool) (M N : Z).
Variable ngram_counts : list Z.
Variable total_items : Z.
Variable vocab : list T.
Hypothesis total_items_eq : total_items = size vocab.

Local Abbreviation runs := (run_ngrams ngram_counts total_items vocab).
Local Abbreviation upto := (ngrams_upto ngram_counts total_items vocab).
Local Abbreviation holds :=
  (pool_holds hf all M N ngram_counts total_items vocab).

Implicit Types (c : PoolSet T) (e : NgramItem T) (g : list T).

(** What the set holds is older and shorter than the run being loaded. *)
Lemma pool_holds_fresh i c g e :
  holds i c -> run_ok ngram_counts total_items i = true ->
  g ∈ runs i -> e ∈ c -> items_ e <> g.
Proof.
  intros Hc Hok Hg (p & g' & Hp & _ & ->)%Hc. simpl. intros ->.
  apply (run_ngrams_item_length _ _ _ _ _ total_items_eq Hok) in Hg.
  apply list_elem_of_lookup_2, ngrams_upto_item_length_le in Hp. lia.
Qed.

(** A run that is not retained leaves the set as it is. *)
Lemma pool_holds_skip i c :
  holds i c -> run_ok ngram_counts total_items i = true ->
  retained_order all M N (Z.of_nat i + 1) = false ->
  holds (S i) c.
Proof.
  intros Hc Hok Hret e. rewrite (Hc e), ngrams_upto_S. split.
  - intros (p & g & Hp & Hr & ->). exists p, g.
    split; [now apply lookup_app_l_Some | auto].
  - intros (p & g & [Hp|[Hle Hp]]%lookup_app_Some & Hr & ->).
    + exists p, g. auto.
    + apply list_elem_of_lookup_2 in Hp.
      apply (run_ngrams_item_length _ _ _ _ _ total_items_eq Hok) in Hp.
      unfold size in Hr. rewrite Hp in Hr.
      replace (Z.of_nat (S i)) with (Z.of_nat i + 1) in Hr by lia.
      congruence.
Qed.

(** A retained run without duplicates enters the set under the next ids. *)
Lemma pool_holds_emplace i c :
  holds i c -> run_ok ngram_counts total_items i = true ->
  retained_order all M N (Z.of_nat i + 1) = true ->
  NoDup (runs i) ->
  holds (S i) (emplace_all hf (size (upto i)) (runs i) c).
Proof.
  intros Hc Hok Hret Hnd e. rewrite ngrams_upto_S. split.
  - intros [Hin|(t & g & Ht & ->)]%emplace_all_elem_of.
    + apply Hc in Hin as (p & g & Hp & Hr & ->). exists p, g.
      split; [now apply lookup_app_l_Some | auto].
    + exists (length (upto i) + t)%nat, g. split; [|split].
      * rewrite lookup_app_r by lia.
        now replace (length (upto i) + t - length (upto i))%nat with t by lia.
      * apply list_elem_of_lookup_2 in Ht.
        apply (run_ngrams_item_length _ _ _ _ _ total_items_eq Hok) in Ht.
        unfold size. rewrite Ht.
        now replace (Z.of_nat (S i)) with (Z.of_nat i + 1) by lia.
      * f_equal. unfold size. lia.
  - intros (p & g & [Hp|[Hle Hp]]%lookup_app_Some & Hr & ->).
    + apply emplace_all_mono, Hc. exists p, g. auto.
    + replace (Z.of_nat p)
        with (size (upto i) + Z.of_nat (p - length (upto i)))
        by (unfold size; lia).
      apply emplace_all_new; [exact Hnd | | exact Hp].
      intros g' e' Hg' He'. eapply pool_holds_fresh; eauto.
Qed.

(** The comparison of the sizes before and after [Emplace] detects the
    duplicates of the run, and nothing else. *)
Lemma emplace_check i c id :
  holds i c -> run_ok ngram_counts total_items i = true ->
  0 <= run_count ngram_counts total_items i ->
  (set_size c + run_count ngram_counts total_items i
   =? set_size (emplace_all hf id (runs i) c)) = true
  <-> NoDup (runs i).
Proof.
  intros Hc Hok Hcount. rewrite Z.eqb_eq. unfold set_size.
  pose proof (emplace_all_length_eq hf id (runs i) c) as Heq.
  rewrite run_ngrams_length in Heq. split.
  - intros Hlen. apply Heq. lia.
  - intros Hnd. destruct Heq as [_ Heq]. rewrite Heq; [lia|].
    split; [exact Hnd|]. intros g e Hg He. eapply pool_holds_fresh; eauto.
Qed.

Lemma pool_holds_empty_run i c : runs i = [] -> holds i c -> holds (S i) c.
Proof.
  intros Hrun Hc e. rewrite (Hc e), ngrams_upto_S, Hrun, app_nil_r.
  reflexivity.
Qed.

(** The retained branch of the loop body, on either vocabulary. *)
Lemma retained_step i c id :
  holds i c -> run_ok ngram_counts total_items i = true ->
  retained_order all M N (Z.of_nat i + 1) = true ->
  0 <= run_count ngram_counts total_items i ->
  id = size (upto i) ->
  let c' := emplace_all hf id (runs i) c in
  if bool_decide (NoDup (runs i))
  then (set_size c + run_count ngram_counts total_items i =? set_size c')
       = true /\ holds (S i) c'
  else (set_size c + run_count ngram_counts total_items i =? set_size c')
       = false.
Proof.
  intros Hc Hok Hret Hcount -> c'.
  pose proof (emplace_check i c (size (upto i)) Hc Hok Hcount) as Hcheck.
  fold c' in Hcheck. case_bool_decide as Hnd.
  - split; [now apply Hcheck | now apply pool_holds_emplace].
  - apply not_true_is_false. now intros Heq%Hcheck.
Qed.
End PoolStep.

(** ** The loop of the constructor *)

Section LoadFacts.
Variable hash_int64 : Z -> Z.
Variable hash_string : string -> Z.
Variables (all : bool) (M N : Z).
Variable ngram_counts : list Z.
Variable pool_strings : list string.
Variable pool_int64s : list Z.
Variable total_items : Z.
Hypothesis total_items_eq :
  total_items = vocabulary_size pool_strings pool_int64s.

Local Abbreviation body :=
  (load_body hash_int64 hash_string all M N ngram_counts pool_strings
     pool_int64s total_items).
Local Abbreviation loop :=
  (load_loop hash_int64 hash_string all M N ngram_counts pool_strings
     pool_int64s total_items).
Local Abbreviation inv :=
  (load_inv hash_int64 hash_string all M N ngram_counts pool_strings
     pool_int64s total_items).
Local Abbreviation failure_of :=
  (run_failure all M N ngram_counts pool_strings pool_int64s total_items).
Local Abbreviation count_of := (run_count ngram_counts total_items).

Lemma run_count_nonneg i :
  run_in_bounds ngram_counts total_items i = true -> 0 <= count_of i.
Proof.
  unfold run_in_bounds, run_count. intros [Hse _]%andb_prop.
  apply Z.leb_le in Hse. apply Z.div_pos; lia.
Qed.

Lemma vocabulary_size_int64s :
  empty pool_strings = true -> total_items = size pool_int64s.
Proof. rewrite total_items_eq. unfold vocabulary_size. now intros ->. Qed.

Lemma vocabulary_size_strings :
  empty pool_strings = false -> total_items = size pool_strings.
Proof. rewrite total_items_eq. unfold vocabulary_size. now intros ->. Qed.

Lemma load_body_spec i st :
  inv i st ->
  match failure_of i with
  | Some e => body i st = Err (Enforce e)
  | None => exists st', body i st = Ok st' /\ inv (S i) st'
  end.
Proof.
  intros (Hsize & Hid & Hsets).
  unfold load_body, run_failure. rewrite Hsize.
  fold (start_idx_of ngram_counts i) (end_idx_of ngram_counts total_items i).
  fold (run_in_bounds ngram_counts total_items i).
  destruct (run_in_bounds ngram_counts total_items i) eqn:Hb; simpl;
    [|reflexivity].
  pose proof (run_count_nonneg i Hb) as Hcount.
  set (items := end_idx_of ngram_counts total_items i
                - start_idx_of ngram_counts i) in *.
  change (items `div` (Z.of_nat i + 1)) with (count_of i).
  change (items `mod` (Z.of_nat i + 1) =? 0)
    with (run_whole ngram_counts total_items i).
  change (all && ((M <=? Z.of_nat i + 1) && (Z.of_nat i + 1 <=? N))
          || (Z.of_nat i + 1 =? N)) with (run_retained all M N i).
  replace (Z.to_nat (Z.of_nat i + 1)) with (S i) by lia.
  rewrite !Emplace_emplace_all.
  change (ngrams_of (drop (Z.to_nat (start_idx_of ngram_counts i)) pool_int64s)
            (Z.to_nat (count_of i)) (S i))
    with (run_ngrams ngram_counts total_items pool_int64s i).
  change (ngrams_of (drop (Z.to_nat (start_idx_of ngram_counts i)) pool_strings)
            (Z.to_nat (count_of i)) (S i))
    with (run_ngrams ngram_counts total_items pool_strings i).
  assert (Hnext : forall {U} (vocab : list U),
             size (ngrams_upto ngram_counts total_items vocab (S i))
             = ngram_id st + count_of i).
  { intros U vocab. rewrite Hid. unfold size.
    rewrite ngrams_upto_S, length_app, run_ngrams_length.
    rewrite (ngrams_upto_length _ _ vocab pool_int64s). lia. }
  destruct (0 <? items) eqn:Hpos.
  - destruct (run_whole ngram_counts total_items i) eqn:Hw; simpl;
      [|reflexivity].
    assert (Hok : run_ok ngram_counts total_items i = true)
      by (unfold run_ok; now rewrite Hb, Hw).
    unfold run_distinct, E_duplicates.
    destruct (run_retained all M N i) eqn:Hret; simpl.
    + destruct (empty pool_strings) eqn:Hmode; destruct Hsets as [Hc Hother].
      * pose proof (retained_step hash_int64 all M N ngram_counts total_items
                      pool_int64s (vocabulary_size_int64s Hmode) i
                      (int_set st) (ngram_id st) Hc Hok Hret Hcount Hid)
          as Hstep.
        simpl in Hstep. destruct (bool_decide _); simpl.
        -- destruct Hstep as [-> Hc']. simpl. eexists. split; [reflexivity|].
           split; [simpl; lia|]. split; [simpl; rewrite Hnext; lia|].
           rewrite Hmode. simpl. auto.
        -- now rewrite Hstep.
      * assert (Hid' : ngram_id st
                       = size (ngrams_upto ngram_counts total_items
                                 pool_strings i)).
        { rewrite Hid. unfold size. f_equal. apply ngrams_upto_length. }
        pose proof (retained_step hash_string all M N ngram_counts total_items
                      pool_strings (vocabulary_size_strings Hmode) i
                      (str_set st) (ngram_id st) Hc Hok Hret Hcount Hid')
          as Hstep.
        simpl in Hstep. destruct (bool_decide _); simpl.
        -- destruct Hstep as [-> Hc']. simpl. eexists. split; [reflexivity|].
           split; [simpl; lia|]. split; [simpl; rewrite Hnext; lia|].
           rewrite Hmode. simpl. auto.
        -- now rewrite Hstep.
    + eexists. split; [reflexivity|].
      split; [simpl; lia|]. split; [simpl; rewrite Hnext; lia|]. simpl.
      destruct (empty pool_strings) eqn:Hmode; destruct Hsets as [Hc Hother];
        (split; [|exact Hother]).
      * now apply pool_holds_skip; [apply vocabulary_size_int64s| | |].
      * now apply pool_holds_skip; [apply vocabulary_size_strings| | |].
  - assert (Hzero : items = 0).
    { unfold run_in_bounds in Hb. apply andb_prop in Hb as [Hse _].
      apply Z.leb_le in Hse. apply Z.ltb_ge in Hpos. lia. }
    assert (Hc0 : count_of i = 0).
    { unfold run_count. fold items. now rewrite Hzero. }
    assert (Hw : run_whole ngram_counts total_items i = true).
    { unfold run_whole. fold items. now rewrite Hzero. }
    assert (Hrun : forall {U} (vocab : list U),
               run_ngrams ngram_counts total_items vocab i = []).
    { intros U vocab. unfold run_ngrams. now rewrite Hc0. }
    rewrite Hw. unfold run_distinct. rewrite !Hrun. simpl.
    replace (run_retained all M N i
             && negb (if empty pool_strings then true else true))
      with false
      by (destruct (empty pool_strings), (run_retained all M N i);
          reflexivity).
    eexists. split; [reflexivity|].
    split; [simpl; lia|]. split; [simpl; rewrite Hnext; lia|]. simpl.
    destruct (empty pool_strings) eqn:Hmode; destruct Hsets as [Hc Hother];
      (split; [|exact Hother]); now apply pool_holds_empty_run.
Qed.

Lemma load_loop_spec todo i st :
  inv i st ->
  match first_failure all M N ngram_counts pool_strings pool_int64s
          total_items todo i with
  | Some e => loop todo i st = Err (Enforce e)
  | None => exists st', loop todo i st = Ok st' /\ inv (i + todo) st'
  end.
Proof.
  revert i st. induction todo as [|todo IH]; intros i st Hinv; simpl.
  - exists st. split; [reflexivity|]. now rewrite Nat.add_0_r.
  - pose proof (load_body_spec i st Hinv) as Hbody.
    destruct (failure_of i) as [e|].
    + now rewrite Hbody.
    + destruct Hbody as (st' & -> & Hinv'). simpl.
      specialize (IH (S i) st' Hinv').
      now replace (i + S todo)%nat with (S i + todo)%nat by lia.
Qed.

Lemma load_inv_init :
  inv 0 {| ngram_id := 0; ngram_size := 1; int_set := []; str_set := [] |}.
Proof.
  split; [reflexivity|]. split; [reflexivity|]. simpl.
  assert (Hnone : forall (U : Type) (hf : U -> Z) (vocab : list U),
             pool_holds hf all M N ngram_counts total_items vocab 0 []).
  { intros U hf vocab e. split; [intros He; inversion He|].
    intros (p & g & Hp & _). discriminate Hp. }
  destruct (empty pool_strings); (split; [apply Hnone | reflexivity]).
Qed.

Lemma load_pool_spec :
  match first_failure all M N ngram_counts pool_strings pool_int64s
          total_items (length ngram_counts) 0 with
  | Some e =>
      load_pool hash_int64 hash_string all M N ngram_counts pool_strings
        pool_int64s total_items = Err (Enforce e)
  | None =>
      exists st,
        load_pool hash_int64 hash_string all M N ngram_counts pool_strings
          pool_int64s total_items = Ok st
        /\ inv (length ngram_counts) st
  end.
Proof. exact (load_loop_spec (length ngram_counts) 0 _ load_inv_init). Qed.

(** *** The violations of a run *)

Local Abbreviation duplicated :=
  (run_duplicated ngram_counts pool_strings pool_int64s total_items).
Local Abbreviation first_failure_of :=
  (first_failure all M N ngram_counts pool_strings pool_int64s total_items).

Lemma run_distinct_spec i :
  run_distinct ngram_counts pool_strings pool_int64s total_items i = true
  <-> ~ duplicated i.
Proof.
  unfold run_distinct, run_duplicated.
  destruct (empty pool_strings); rewrite bool_decide_eq_true; split;
    try apply duplicate_in_NoDup;
    intros Hnd; destruct (decide (NoDup (run_ngrams ngram_counts total_items
                                           pool_int64s i))) as [Hd|Hd];
    destruct (decide (NoDup (run_ngrams ngram_counts total_items
                               pool_strings i))) as [Hd'|Hd'];
    try assumption;
    exfalso; apply Hnd; now apply not_NoDup_duplicate_in.
Qed.

Lemma run_distinct_false i :
  run_distinct ngram_counts pool_strings pool_int64s total_items i = false
  -> duplicated i.
Proof.
  unfold run_distinct, run_duplicated.
  destruct (empty pool_strings); intros Hd%bool_decide_eq_false;
    now apply not_NoDup_duplicate_in.
Qed.

Lemma run_failure_None i :
  failure_of i = None
  <-> run_ok ngram_counts total_items i = true
      /\ (run_retained all M N i = true -> ~ duplicated i).
Proof.
  unfold run_failure, run_ok.
  destruct (run_in_bounds _ _ i); simpl; [|now split; [|intros [? _]]].
  destruct (run_whole _ _ i); simpl; [|now split; [|intros [? _]]].
  destruct (run_retained all M N i); simpl.
  - rewrite <- run_distinct_spec. destruct (run_distinct _ _ _ _ i); simpl.
    + split; auto.
    + split; [discriminate|]. intros [_ Hd]. now specialize (Hd eq_refl).
  - split; [|reflexivity]. intros _. split; [reflexivity | discriminate].
Qed.

Lemma run_failure_duplicates i k :
  failure_of i = Some (E_duplicates pool_strings k)
  <-> k = Z.of_nat i + 1
      /\ run_ok ngram_counts total_items i = true
      /\ run_retained all M N i = true
      /\ duplicated i.
Proof.
  unfold run_failure, run_ok, E_duplicates.
  destruct (run_in_bounds _ _ i); simpl;
    [|split; [destruct (empty pool_strings); discriminate
             | now intros (_ & ? & _)]].
  destruct (run_whole _ _ i); simpl;
    [|split; [destruct (empty pool_strings); discriminate
             | now intros (_ & ? & _)]].
  pose proof (run_distinct_spec i) as Hspec.
  destruct (run_retained all M N i); simpl;
    [|split; [discriminate | now intros (_ & _ & ? & _)]].
  destruct (run_distinct _ _ _ _ i) eqn:Hdist; simpl.
  - split; [discriminate|]. intros (_ & _ & _ & Hd).
    exfalso. now apply (proj1 Hspec).
  - split.
    + intros Heq. split; [|split; [reflexivity|split; [reflexivity|]]].
      * destruct (empty pool_strings); congruence.
      * now apply run_distinct_false.
    + now intros (-> & _).
Qed.

(** In a run that passes the bounds and whole n-gram checks, only
    duplicates can be wrong. *)
Lemma run_failure_ok i e :
  run_ok ngram_counts total_items i = true ->
  failure_of i = Some e -> e = E_duplicates pool_strings (Z.of_nat i + 1).
Proof.
  unfold run_failure, run_ok. intros [-> ->]%andb_prop. simpl.
  destruct (_ && _); [now intros [= <-] | discriminate].
Qed.

Lemma first_failure_Some todo i0 e :
  first_failure_of todo i0 = Some e
  <-> exists i, (i0 <= i < i0 + todo)%nat
                /\ failure_of i = Some e
                /\ forall j, (i0 <= j < i)%nat -> failure_of j = None.
Proof.
  revert i0. induction todo as [|todo IH]; intros i0; simpl.
  - split; [discriminate | intros (i & ? & _); lia].
  - destruct (failure_of i0) as [e0|] eqn:Hf0.
    + split.
      * intros [= ->]. exists i0. split; [lia|]. split; [exact Hf0|].
        intros j ?. lia.
      * intros (i & Hi & Hf & Hbefore).
        destruct (decide (i = i0)) as [->|Hne]; [congruence|].
        rewrite (Hbefore i0) in Hf0 by lia. discriminate.
    + rewrite IH. split.
      * intros (i & Hi & Hf & Hbefore). exists i.
        split; [lia|]. split; [exact Hf|]. intros j Hj.
        destruct (decide (j = i0)) as [->|Hne]; [exact Hf0|].
        apply Hbefore. lia.
      * intros (i & Hi & Hf & Hbefore). exists i.
        assert (i <> i0) by congruence.
        split; [lia|]. split; [exact Hf|]. intros j Hj. apply Hbefore. lia.
Qed.

Lemma first_failure_None todo i0 :
  first_failure_of todo i0 = None
  <-> forall i, (i0 <= i < i0 + todo)%nat -> failure_of i = None.
Proof.
  revert i0. induction todo as [|todo IH]; intros i0; simpl.
  - split; [intros _ i ?; lia | reflexivity].
  - destruct (failure_of i0) as [e0|] eqn:Hf0.
    + split; [discriminate|]. intros Hall.
      rewrite (Hall i0) in Hf0 by lia. discriminate.
    + rewrite IH. split; intros Hall i Hi.
      * destruct (decide (i = i0)) as [->|Hne]; [exact Hf0|].
        apply Hall. lia.
      * apply Hall. lia.
Qed.
End LoadFacts.

(** ** The scanning loops *)

Lemma wrap32_range z : 0 <= wrap32 z < 2 ^ 32.
Proof. unfold wrap32. apply Z.mod_pos_bound. lia. Qed.

Lemma wrap32_small z : 0 <= z < 2 ^ 32 -> wrap32 z = z.
Proof. unfold wrap32. intros Hz. now apply Z.mod_small. Qed.

Lemma wrap32_add_l a b : wrap32 (wrap32 a + b) = wrap32 (a + b).
Proof. unfold wrap32. now rewrite Z.add_mod_idemp_l by lia. Qed.

Lemma wrap32_add_r a b : wrap32 (a + wrap32 b) = wrap32 (a + b).
Proof. unfold wrap32. now rewrite Z.add_mod_idemp_r by lia. Qed.

Lemma int_succ_Ok i : i < INT_MAX -> int_succ i = Ok (i + 1).
Proof.
  intros Hi. unfold int_succ.
  now replace (i <? INT_MAX) with true by (symmetry; apply Z.ltb_lt; lia).
Qed.

Lemma int_succ_Err i : INT_MAX <= i -> int_succ i = Err SignedOverflow.
Proof.
  intros Hi. unfold int_succ.
  now replace (i <? INT_MAX) with false by (symmetry; apply Z.ltb_ge; lia).
Qed.

Lemma int64_succ_small x : x < 2 ^ 63 - 1 -> int64_succ x = x + 1.
Proof.
  intros Hx. unfold int64_succ.
  now replace (x <? 2 ^ 63 - 1) with true by (symmetry; apply Z.ltb_lt; lia).
Qed.

Lemma vector_resize_Ok impl :
  output_size_ impl <= vector_max_size ->
  vector_resize (output_size_ impl) = Ok (zeros impl).
Proof.
  intros Hsize. unfold vector_resize.
  now replace (_ <=? _) with true by (symmetry; apply Z.leb_le; lia).
Qed.

Lemma counters_alter f i :
  counters f -> counters (alter (fun c => wrap32 (c + 1)) i f).
Proof.
  unfold counters. intros Hf. revert i.
  induction Hf as [|a f Ha Hf IH]; intros [|i]; simpl;
    try constructor; auto using wrap32_range.
  apply IH.
Qed.

Lemma counters_zeros impl : counters (zeros impl).
Proof. apply Forall_replicate. lia. Qed.

Lemma zeros_length impl : length (zeros impl) = Z.to_nat (output_size_ impl).
Proof. apply length_replicate. Qed.

Lemma keeps_ret f : keeps f (mret f).
Proof. intros f' [= <-]. auto. Qed.

Lemma keeps_bind f r k :
  keeps f r -> (forall f', r = Ok f' -> keeps f' (k f')) -> keeps f (r ≫= k).
Proof.
  intros Hr Hk f'' Hbind. apply bind_Ok in Hbind as (f' & Hf' & Hk').
  destruct (Hr f' Hf') as [Hlen Hc]. destruct (Hk f' Hf' f'' Hk') as [Hlen' Hc'].
  split; [congruence | auto].
Qed.

Lemma keeps_bind_const {A} f (m : result A) k :
  (forall a, keeps f (k a)) -> keeps f (m ≫= k).
Proof.
  intros Hk f' (a & _ & Hka)%bind_Ok. now apply (Hk a).
Qed.

Section ScanFacts.
Context {T : Type} `{EqDecision T}.
Variable hf : T -> Z.
Variable impl : Impl.
Variable pool : PoolSet T.
Variable input_data : list T.
Variable end_data : Z.

Implicit Types (f g frequencies : list Z) (sample : NgramItem T).

Lemma IncrementCount_keeps id f : keeps f (IncrementCount impl id f).
Proof.
  intros f'. unfold IncrementCount.
  intros (_ & _ & (_ & _ & (_ & _ & [= <-])%bind_Ok)%bind_Ok)%bind_Ok.
  split; [apply length_alter | apply counters_alter].
Qed.

Lemma count_hit_keeps sample f : keeps f (count_hit impl pool sample f).
Proof.
  unfold count_hit. destruct (set_find pool sample);
    [apply IncrementCount_keeps | apply keeps_ret].
Qed.

Lemma unigram_loop_keeps todo ngram_start f :
  keeps f (unigram_loop hf impl pool input_data todo ngram_start f).
Proof.
  revert ngram_start f. induction todo as [|todo IH]; intros p f; simpl;
    [apply keeps_ret|].
  apply keeps_bind_const. intros v. apply keeps_bind;
    [apply count_hit_keeps | intros f' _; apply IH].
Qed.

Lemma item_loop_keeps todo si start_ngram_size ni ngram_item sample f :
  keeps f (item_loop hf impl pool input_data end_data todo si
             start_ngram_size ni ngram_item sample f).
Proof.
  revert ni ngram_item sample f.
  induction todo as [|todo IH]; intros ni p sample f; simpl;
    [apply keeps_ret|].
  destruct (p <? end_data); [|apply keeps_ret].
  apply keeps_bind_const. intros v.
  apply keeps_bind;
    [|intros f' _; apply keeps_bind_const; intros ni'; apply IH].
  destruct (start_ngram_size <=? ni); [apply count_hit_keeps | apply keeps_ret].
Qed.

Lemma start_loop_keeps todo si start_ngram_size ngram_start f :
  keeps f (start_loop hf impl pool input_data end_data todo si
             start_ngram_size ngram_start f).
Proof.
  revert ngram_start f. induction todo as [|todo IH]; intros p f; simpl;
    [apply keeps_ret|].
  destruct (end_data <=? _); [apply keeps_ret|].
  apply keeps_bind; [apply item_loop_keeps | intros f' _; apply IH].
Qed.

Lemma skip_loop_keeps todo si start_ngram_size f :
  keeps f (skip_loop hf impl pool input_data end_data todo si
             start_ngram_size f).
Proof.
  revert si f. induction todo as [|todo IH]; intros si f; simpl;
    [apply keeps_ret|].
  apply keeps_bind;
    [apply start_loop_keeps
    |intros f' _; apply keeps_bind_const; intros si'; apply IH].
Qed.

(** Whenever the scan returns, the frequencies have one [uint32_t] slot
    per output bin. *)
Lemma ComputeImpl_frequencies_keeps f :
  ComputeImpl_frequencies hf impl pool input_data end_data = Ok f ->
  length f = Z.to_nat (output_size_ impl) /\ counters f.
Proof.
  unfold ComputeImpl_frequencies. intros (z & Hz & Hf)%bind_Ok.
  unfold vector_resize in Hz.
  destruct (output_size_ impl <=? vector_max_size); [|discriminate Hz].
  injection Hz as <-. fold (zeros impl) in Hf.
  assert (Hkeeps : keeps (zeros impl) (Ok f)).
  { rewrite <- Hf. destruct (_ =? 1).
    - apply keeps_bind; [apply unigram_loop_keeps|].
      intros u _. destruct (_ <? _); [apply keeps_ret|].
      apply skip_loop_keeps.
    - apply skip_loop_keeps. }
  destruct (Hkeeps f eq_refl) as [Hlen Hc].
  split; [now rewrite Hlen, zeros_length | apply Hc, counters_zeros].
Qed.

End ScanFacts.

(** ** The skip count *)

Section SkipFacts.
Context {T : Type} `{EqDecision T}.
Variable hf : T -> Z.
Variable impl : Impl.
Variable pool : PoolSet T.
Variable input_data : list T.
Variable end_data : Z.

Implicit Types (f g frequencies : list Z) (sample : NgramItem T) (S : Z).

(** The loops read [N_] and [ngram_indexes_] of the kernel, not [S_]. *)
Lemma count_hit_with_S S sample f :
  count_hit (with_S impl S) pool sample f = count_hit impl pool sample f.
Proof. reflexivity. Qed.

Lemma unigram_loop_with_S S todo ngram_start f :
  unigram_loop hf (with_S impl S) pool input_data todo ngram_start f
  = unigram_loop hf impl pool input_data todo ngram_start f.
Proof.
  revert ngram_start f. induction todo as [|todo IH]; intros p f; simpl;
    [reflexivity|].
  destruct (deref input_data p) as [v|]; simpl; [|reflexivity].
  rewrite count_hit_with_S. destruct (count_hit _ _ _ _); simpl;
    [apply IH | reflexivity].
Qed.

Lemma item_loop_with_S S todo si start_ngram_size ni ngram_item sample f :
  item_loop hf (with_S impl S) pool input_data end_data todo si
    start_ngram_size ni ngram_item sample f
  = item_loop hf impl pool input_data end_data todo si start_ngram_size ni
      ngram_item sample f.
Proof.
  revert ni ngram_item sample f.
  induction todo as [|todo IH]; intros ni p sample f; simpl; [reflexivity|].
  destruct (p <? end_data); [|reflexivity].
  destruct (deref input_data p) as [v|]; simpl; [|reflexivity].
  rewrite count_hit_with_S.
  destruct (if start_ngram_size <=? ni then _ else _); simpl;
    [|reflexivity].
  destruct (int_succ ni); simpl; [apply IH | reflexivity].
Qed.

Lemma start_loop_with_S S todo si start_ngram_size ngram_start f :
  start_loop hf (with_S impl S) pool input_data end_data todo si
    start_ngram_size ngram_start f
  = start_loop hf impl pool input_data end_data todo si start_ngram_size
      ngram_start f.
Proof.
  revert ngram_start f. induction todo as [|todo IH]; intros p f; simpl;
    [reflexivity|].
  destruct (end_data <=? _); [reflexivity|].
  rewrite item_loop_with_S. destruct (item_loop _ _ _ _ _ _ _ _ _ _ _ _);
    simpl; [apply IH | reflexivity].
Qed.

Lemma skip_loop_with_S S todo si start_ngram_size f :
  skip_loop hf (with_S impl S) pool input_data end_data todo si
    start_ngram_size f
  = skip_loop hf impl pool input_data end_data todo si start_ngram_size f.
Proof.
  revert si f. induction todo as [|todo IH]; intros si f; simpl;
    [reflexivity|].
  rewrite start_loop_with_S. destruct (start_loop _ _ _ _ _ _ _ _ _ _);
    simpl; [|reflexivity].
  destruct (int_succ si); simpl; [apply IH | reflexivity].
Qed.

(** The frequencies of [ComputeImpl], in terms of the loops of the kernel
    itself. *)
Lemma ComputeImpl_frequencies_with_S S :
  ComputeImpl_frequencies hf (with_S impl S) pool input_data end_data
  = (vector_resize (output_size_ impl)
     ≫= fun z =>
          if first_order impl =? 1 then
            unigram_loop hf impl pool input_data (Z.to_nat end_data) 0 z
            ≫= fun u =>
                 if N_ impl <? first_order impl + 1 then mret u
                 else skip_loop hf impl pool input_data end_data
                        (Z.to_nat (int64_succ S)) 1 (first_order impl + 1) u
          else
            skip_loop hf impl pool input_data end_data
              (Z.to_nat (int64_succ S)) 1 (first_order impl) z).
Proof.
  unfold ComputeImpl_frequencies, first_order. simpl.
  destruct (vector_resize (output_size_ impl)) as [z|]; simpl;
    [|reflexivity].
  destruct ((if all_ impl then M_ impl else N_ impl) =? 1).
  - rewrite unigram_loop_with_S.
    destruct (unigram_loop _ _ _ _ _ _ _); simpl; [|reflexivity].
    destruct (N_ impl <? _); [reflexivity | apply skip_loop_with_S].
  - apply skip_loop_with_S.
Qed.
End SkipFacts.

(** ** A long input of equal tokens *)

Section ConstantInput.
Context {T : Type} `{EqDecision T}.
Variable hf : T -> Z.
Variable impl : Impl.
Variable a : T.
Variable len : nat.
Hypothesis N_2 : N_ impl = 2.
Hypothesis indexes_0 : ngram_indexes_ impl = [0].

Local Abbreviation pool := [NgramItem_range hf 0 [a; a]].
Local Abbreviation input := (replicate len a).
Local Abbreviation end_data := (Z.of_nat len).

Lemma constant_deref p :
  0 <= p < end_data -> deref input p = Ok a.
Proof.
  intros Hp. unfold deref. rewrite lookup_replicate_2 by lia. reflexivity.
Qed.

(** The window of two tokens at [p] and [p + si] is the bigram of the
    pool. *)
Lemma constant_item_loop si p c :
  0 <= p -> 1 <= si -> p + si < end_data ->
  item_loop hf impl pool input end_data (Z.to_nat (N_ impl)) si 2 1 p
    (Clear NgramItem_sample) [c]
  = Ok [wrap32 (c + 1)].
Proof.
  intros Hp Hsi Hfit. rewrite N_2. change (Z.to_nat 2) with 2%nat.
  cbn [item_loop].
  replace (p <? end_data) with true by (symmetry; apply Z.ltb_lt; lia).
  rewrite constant_deref by lia. cbn [mbind result_bind].
  change (2 <=? 1) with false. cbn [mbind result_bind mret result_ret].
  change (int_succ 1) with (Ok (1 + 1)). cbn [mbind result_bind].
  replace (p + si <? end_data) with true by (symmetry; apply Z.ltb_lt; lia).
  rewrite constant_deref by lia. cbn [mbind result_bind].
  change (2 <=? 1 + 1) with true.
  change (int_succ (1 + 1)) with (Ok (1 + 1 + 1)).
  unfold count_hit, set_find, NgramItem_eqb. simpl.
  rewrite bool_decide_eq_true_2 by reflexivity.
  unfold IncrementCount. rewrite indexes_0. reflexivity.
Qed.

Lemma constant_start_loop todo si p c :
  0 <= c < 2 ^ 32 -> 0 <= p -> 1 <= si -> p + Z.of_nat todo = end_data ->
  start_loop hf impl pool input end_data todo si 2 p [c]
  = Ok [wrap32 (c + Z.max 0 (end_data - si - p))].
Proof.
  intros Hc Hp Hsi. revert p c Hc Hp.
  induction todo as [|todo IH]; intros p c Hc Hp Hend; simpl.
  - replace (Z.max 0 (end_data - si - p)) with 0 by lia.
    now rewrite Z.add_0_r, wrap32_small.
  - replace (p + si * (2 - 1)) with (p + si) by lia.
    destruct (Z.leb_spec end_data (p + si)) as [Hbreak|Hfit].
    + replace (Z.max 0 (end_data - si - p)) with 0 by lia.
      now rewrite Z.add_0_r, wrap32_small.
    + rewrite constant_item_loop by lia. cbn [mbind result_bind].
      rewrite IH; [|apply wrap32_range | lia | lia].
      rewrite wrap32_add_l. do 3 f_equal. lia.
Qed.

Lemma constant_skip_loop todo si c :
  0 <= c < 2 ^ 32 -> 1 <= si -> si + Z.of_nat todo <= INT_MAX ->
  skip_loop hf impl pool input end_data todo si 2 [c]
  = Ok [wrap32 (c + constant_hits todo si end_data)].
Proof.
  revert si c. induction todo as [|todo IH]; intros si c Hc Hsi Hint.
  - simpl. now rewrite Z.add_0_r, wrap32_small.
  - cbn [skip_loop constant_hits].
    rewrite Nat2Z.id, constant_start_loop by lia. cbn [mbind result_bind].
    rewrite int_succ_Ok by lia. cbn [mbind result_bind].
    rewrite IH; [|apply wrap32_range | lia | lia].
    rewrite wrap32_add_l. do 3 f_equal. lia.
Qed.

(** The frequencies of a kernel that tests bigrams only. *)
Lemma constant_frequencies :
  M_ impl = 2 -> output_size_ impl = 1 -> S_ impl + 1 < INT_MAX ->
  ComputeImpl_frequencies hf impl pool input end_data
  = Ok [wrap32 (constant_hits (Z.to_nat (S_ impl + 1)) 1 end_data)].
Proof.
  intros HM Hout HS. unfold ComputeImpl_frequencies.
  rewrite HM, N_2, Hout. replace (if all_ impl then 2 else 2) with 2
    by now destruct (all_ impl).
  change (vector_resize 1) with (Ok [0]). cbn [mbind result_bind].
  change (2 =? 1) with false. cbn iota.
  rewrite int64_succ_small by (unfold INT_MAX in HS; lia).
  now rewrite constant_skip_loop by (unfold INT_MAX in *; lia).
Qed.
End ConstantInput.

(** ** The scan, window by window *)

Section WindowFacts.
Context {T : Type} `{EqDecision T}.
Variable hf : T -> Z.
Variable impl : Impl.
Variable pool : PoolSet T.
Variable input_data : list T.
Variable end_data : Z.
Hypothesis pool_ok : pool_safe impl pool.
Hypothesis indexes_ok : indexes_safe impl.
Hypothesis end_ok : 0 <= end_data <= size input_data.
Hypothesis N_ok : N_ impl < INT_MAX.

Implicit Types (f : list Z) (sample : NgramItem T) (w : list T).

Local Abbreviation tally' := (tally impl pool).
Local Abbreviation window' := (window input_data).
Local Abbreviation fits' := (fits end_data).

Lemma tally_app ws ws' f : tally' (ws ++ ws') f = tally' ws' (tally' ws f).
Proof. unfold tally. apply foldl_app. Qed.

Lemma tally_sized ws f : sized impl f -> sized impl (tally' ws f).
Proof.
  revert f. induction ws as [|w ws IH]; intros f Hf; simpl; [exact Hf|].
  apply IH. destruct (bin_of impl pool w); [|exact Hf].
  unfold sized, bump. now rewrite length_alter.
Qed.

Lemma count_hit_tally sample f :
  sized impl f ->
  count_hit impl pool sample f = Ok (tally' [items_ sample] f).
Proof.
  intros Hf. unfold count_hit, tally, bin_of, lookup_id. simpl.
  rewrite (set_find_items pool {| Id := 0; items_ := items_ sample;
                                  hash_ := 0 |} sample eq_refl).
  destruct (set_find pool sample) as [hit|] eqn:Hfind; [|reflexivity].
  apply set_find_Some in Hfind as [Hin _]. specialize (pool_ok hit Hin).
  unfold IncrementCount.
  replace (Id hit <? size (ngram_indexes_ impl)) with true
    by (symmetry; apply Z.ltb_lt; lia).
  simpl.
  assert (Hidx : 0 <= nth (Z.to_nat (Id hit)) (ngram_indexes_ impl) 0
                 < output_size_ impl).
  { unfold indexes_safe in indexes_ok.
    rewrite Forall_forall in indexes_ok. apply indexes_ok.
    apply list_elem_of_In, nth_In. unfold size in pool_ok. lia. }
  replace (0 <=? nth (Z.to_nat (Id hit)) (ngram_indexes_ impl) 0) with true
    by (symmetry; apply Z.leb_le; lia).
  simpl. rewrite to_size_t_id by lia.
  unfold size. rewrite Hf, zeros_length.
  replace (_ <? _) with true by (symmetry; apply Z.ltb_lt; lia).
  reflexivity.
Qed.

Lemma window_S p si k v :
  input_data !! Z.to_nat (p + Z.of_nat k * si) = Some v ->
  window' p si (S k) = window' p si k ++ [v].
Proof.
  intros Hv. unfold window. rewrite seq_S, omap_app. simpl. now rewrite Hv.
Qed.

Lemma deref_Some p :
  0 <= p < end_data ->
  exists v, input_data !! Z.to_nat p = Some v /\ deref input_data p = Ok v.
Proof.
  intros Hp. unfold deref.
  destruct (input_data !! Z.to_nat p) as [v|] eqn:Hv; [eauto|].
  apply lookup_ge_None in Hv. unfold size in end_ok. lia.
Qed.

(** The orders from [k] on do not fit once the order [k] does not. *)
Lemma windows_from_nil si k0 p k todo :
  0 <= si -> fits' p si k = false ->
  flat_map (fun k => if (k0 <=? Z.of_nat k) && fits' p si k
                     then [window' p si k] else []) (seq k todo) = [].
Proof.
  intros Hsi Hk. apply Z.ltb_ge in Hk. revert k Hk.
  induction todo as [|todo IH]; intros k Hk; simpl; [reflexivity|].
  rewrite IH by nia.
  replace (fits' p si k) with false by (symmetry; apply Z.ltb_ge; lia).
  now rewrite andb_false_r.
Qed.

Lemma item_loop_tally todo si k0 p k sample f :
  0 <= si -> 0 <= p -> (1 <= k)%nat -> sized impl f ->
  Z.of_nat k + Z.of_nat todo <= INT_MAX ->
  items_ sample = window' p si (k - 1) ->
  item_loop hf impl pool input_data end_data todo si k0 (Z.of_nat k)
    (p + (Z.of_nat k - 1) * si) sample f
  = Ok (tally'
          (flat_map (fun k => if (k0 <=? Z.of_nat k) && fits' p si k
                              then [window' p si k] else []) (seq k todo))
          f).
Proof.
  intros Hsi Hp. revert k sample f.
  induction todo as [|todo IH]; intros k sample f Hk Hf Hint Hitems;
    [reflexivity|].
  cbn [item_loop seq flat_map].
  fold (fits' p si k).
  destruct (fits' p si k) eqn:Hfit.
  - apply Z.ltb_lt in Hfit.
    destruct (deref_Some (p + (Z.of_nat k - 1) * si)) as (v & Hv & ->);
      [nia|].
    cbn [mbind result_bind].
    assert (Hwin : items_ (AddItem hf sample v) = window' p si k).
    { simpl. rewrite Hitems.
      replace k with (S (k - 1)) at 2 by lia.
      symmetry. apply window_S.
      now replace (Z.of_nat (k - 1)) with (Z.of_nat k - 1) by lia. }
    rewrite (int_succ_Ok (Z.of_nat k)) by lia.
    replace (Z.of_nat k + 1) with (Z.of_nat (S k)) by lia.
    replace (p + (Z.of_nat k - 1) * si + si)
      with (p + (Z.of_nat (S k) - 1) * si) by lia.
    rewrite andb_true_r.
    destruct (k0 <=? Z.of_nat k).
    + rewrite count_hit_tally by exact Hf. cbn [mbind result_bind].
      rewrite Hwin, tally_app.
      apply IH; [lia | now apply tally_sized | lia|].
      now replace (S k - 1)%nat with k by lia.
    + cbn [mbind result_bind mret result_ret]. simpl app.
      apply IH; [lia | exact Hf | lia|].
      now replace (S k - 1)%nat with k by lia.
  - rewrite andb_false_r. simpl app.
    rewrite (windows_from_nil si k0 p (S k) todo Hsi).
    + reflexivity.
    + apply Z.ltb_ge in Hfit. apply Z.ltb_ge. nia.
Qed.

(** No window starts at or after a start offset where the loop breaks. *)
Lemma windows_at_nil si k0 p :
  0 <= si -> end_data <= Z.of_nat p + si * (k0 - 1) ->
  windows_at impl input_data end_data si k0 p = [].
Proof.
  intros Hsi Hbreak. unfold windows_at.
  induction (seq 1 (Z.to_nat (N_ impl))) as [|k ks IH]; [reflexivity|].
  simpl. rewrite IH.
  destruct (Z.leb_spec k0 (Z.of_nat k)) as [Hk|Hk]; [|reflexivity].
  replace (fits' (Z.of_nat p) si k) with false
    by (symmetry; apply Z.ltb_ge; nia).
  reflexivity.
Qed.

Lemma start_loop_tally todo si k0 p f :
  0 <= si -> sized impl f ->
  start_loop hf impl pool input_data end_data todo si k0 (Z.of_nat p) f
  = Ok (tally' (flat_map (windows_at impl input_data end_data si k0)
                  (seq p todo)) f).
Proof.
  intros Hsi. revert p f.
  induction todo as [|todo IH]; intros p f Hf; [reflexivity|].
  cbn [start_loop seq flat_map].
  destruct (Z.leb_spec end_data (Z.of_nat p + si * (k0 - 1))) as [Hbreak|Hgo].
  - assert (Hnil : forall m q, (p <= q)%nat ->
               flat_map (windows_at impl input_data end_data si k0) (seq q m)
               = []).
    { induction m as [|m IHm]; intros q Hq; simpl; [reflexivity|].
      rewrite windows_at_nil by nia. now rewrite IHm by lia. }
    rewrite windows_at_nil by lia. now rewrite Hnil by lia.
  - pose proof (item_loop_tally (Z.to_nat (N_ impl)) si k0 (Z.of_nat p) 1
                  (Clear NgramItem_sample) f Hsi ltac:(lia) ltac:(lia) Hf
                  ltac:(unfold INT_MAX in *; lia) eq_refl) as Hitems.
    change (Z.of_nat 1) with 1 in Hitems.
    replace (Z.of_nat p + (1 - 1) * si) with (Z.of_nat p) in Hitems by lia.
    rewrite Hitems. cbn [mbind result_bind].
    fold (windows_at impl input_data end_data si k0 p).
    rewrite tally_app.
    replace (Z.of_nat p + 1) with (Z.of_nat (S p)) by lia.
    apply IH. now apply tally_sized.
Qed.

Lemma skip_loop_tally todo si k0 f :
  1 <= si -> si + Z.of_nat todo <= INT_MAX -> sized impl f ->
  skip_loop hf impl pool input_data end_data todo si k0 f
  = Ok (tally'
          (flat_map (fun j => pass_windows impl input_data end_data
                                (si + Z.of_nat j) k0) (seq 0 todo)) f).
Proof.
  revert si f. induction todo as [|todo IH]; intros si f Hsi Hint Hf;
    [reflexivity|].
  cbn [skip_loop seq flat_map].
  pose proof (start_loop_tally (Z.to_nat end_data) si k0 0 f ltac:(lia) Hf)
    as Hpass.
  change (Z.of_nat 0) with 0 in Hpass. rewrite Hpass.
  cbn [mbind result_bind].
  rewrite (int_succ_Ok si) by lia. cbn [mbind result_bind].
  rewrite IH by (try lia; now apply tally_sized).
  fold (pass_windows impl input_data end_data si k0).
  rewrite tally_app. replace (si + Z.of_nat 0) with si by lia.
  do 2 f_equal.
  assert (Hshift : forall m a,
             flat_map (fun j => pass_windows impl input_data end_data
                                  (si + 1 + Z.of_nat j) k0) (seq a m)
             = flat_map (fun j => pass_windows impl input_data end_data
                                    (si + Z.of_nat j) k0) (seq (S a) m)).
  { induction m as [|m IHm]; intros a; [reflexivity|].
    simpl. rewrite IHm. do 2 f_equal. lia. }
  apply Hshift.
Qed.

Lemma unigram_loop_tally todo p f :
  Z.of_nat p + Z.of_nat todo <= end_data -> sized impl f ->
  unigram_loop hf impl pool input_data todo (Z.of_nat p) f
  = Ok (tally' (flat_map (fun p => [window' (Z.of_nat p) 1 1]) (seq p todo))
          f).
Proof.
  revert p f. induction todo as [|todo IH]; intros p f Hend Hf;
    [reflexivity|].
  cbn [unigram_loop seq flat_map].
  destruct (deref_Some (Z.of_nat p)) as (v & Hv & ->); [lia|].
  cbn [mbind result_bind].
  rewrite count_hit_tally by exact Hf. cbn [mbind result_bind].
  assert (Hwin : window' (Z.of_nat p) 1 1 = [v]).
  { unfold window. simpl.
    replace (Z.of_nat p + Z.of_nat 0 * 1) with (Z.of_nat p) by lia.
    now rewrite Hv. }
  rewrite Hwin. simpl app.
  replace (Z.of_nat p + 1) with (Z.of_nat (S p)) by lia.
  change (tally' ([v] :: flat_map (fun p => [window' (Z.of_nat p) 1 1])
                           (seq (S p) todo)) f)
    with (tally' (flat_map (fun p => [window' (Z.of_nat p) 1 1])
                    (seq (S p) todo)) (tally' [[v]] f)).
  apply IH; [lia | now apply tally_sized].
Qed.

(** No window of two or more tokens is looked up when [N_] is below 2. *)
Lemma pass_windows_nil si k0 :
  N_ impl < k0 -> pass_windows impl input_data end_data si k0 = [].
Proof.
  intros HN. unfold pass_windows.
  induction (seq 0 (Z.to_nat end_data)) as [|p ps IH]; [reflexivity|].
  simpl. rewrite IH, app_nil_r. unfold windows_at.
  assert (Hks : forall ks, Forall (fun k => Z.of_nat k <= N_ impl) ks ->
              flat_map (fun k => if (k0 <=? Z.of_nat k)
                                    && fits' (Z.of_nat p) si k
                                 then [window' (Z.of_nat p) si k] else [])
                ks = []).
  { induction 1 as [|k ks Hk _ IHks]; simpl; [reflexivity|].
    rewrite IHks.
    now replace (k0 <=? Z.of_nat k) with false
      by (symmetry; apply Z.leb_gt; lia). }
  apply Hks. apply Forall_forall. intros k [Hk1 Hk]%elem_of_seq. lia.
Qed.

(** From a distance at which the next increment of [si] leaves [int], the
    skip loop ends in the overflow. *)
Lemma skip_loop_overflow todo si k0 f :
  1 <= si <= INT_MAX -> INT_MAX < si + Z.of_nat todo -> sized impl f ->
  skip_loop hf impl pool input_data end_data todo si k0 f
  = Err SignedOverflow.
Proof.
  revert si f. induction todo as [|todo IH]; intros si f Hsi Hint Hf;
    [lia|].
  cbn [skip_loop].
  pose proof (start_loop_tally (Z.to_nat end_data) si k0 0 f ltac:(lia) Hf)
    as Hpass.
  change (Z.of_nat 0) with 0 in Hpass. rewrite Hpass.
  cbn [mbind result_bind].
  destruct (Z.eq_dec si INT_MAX) as [Hmax|Hless].
  - now rewrite int_succ_Err by lia.
  - rewrite int_succ_Ok by lia. cbn [mbind result_bind].
    apply IH; [lia | lia | now apply tally_sized].
Qed.

Hypothesis size_ok : output_size_ impl <= vector_max_size.

(** The frequencies of a scan that cannot fail are the tally of the
    windows listed by [tested_windows]. *)
Lemma ComputeImpl_frequencies_tally :
  S_ impl + 1 < INT_MAX ->
  ComputeImpl_frequencies hf impl pool input_data end_data
  = Ok (tally' (tested_windows impl input_data end_data) (zeros impl)).
Proof.
  intros HS. unfold ComputeImpl_frequencies, tested_windows.
  rewrite vector_resize_Ok by exact size_ok. cbn [mbind result_bind].
  rewrite int64_succ_small by (unfold INT_MAX in HS; lia).
  fold (first_order impl).
  assert (Hz : sized impl (zeros impl)) by reflexivity.
  assert (Hint : 1 + Z.of_nat (Z.to_nat (S_ impl + 1)) <= INT_MAX)
    by (unfold INT_MAX in *; lia).
  destruct (first_order impl =? 1) eqn:Hfirst.
  - pose proof (unigram_loop_tally (Z.to_nat end_data) 0 (zeros impl)
                  ltac:(lia) Hz) as Huni.
    change (Z.of_nat 0) with 0 in Huni. rewrite Huni.
    cbn [mbind result_bind]. fold (unigram_windows input_data end_data).
    rewrite tally_app.
    destruct (Z.ltb_spec (N_ impl) (first_order impl + 1)) as [Hearly|Hmore].
    + assert (Hnil : forall js,
                 flat_map (fun j => pass_windows impl input_data end_data
                                      (1 + Z.of_nat j)
                                      (first_order impl + 1)) js = []).
      { induction js as [|j js IH]; [reflexivity|].
        simpl. now rewrite pass_windows_nil, IH by lia. }
      now rewrite Hnil.
    + rewrite skip_loop_tally by (try lia; now apply tally_sized).
      reflexivity.
  - rewrite skip_loop_tally by (try lia; exact Hz). reflexivity.
Qed.

(** When [S_ + 1] does not fit below [INT_MAX] and the skip loop is
    reached, the scan ends in the overflow of [si]. *)
Lemma ComputeImpl_frequencies_overflow :
  INT_MAX <= int64_succ (S_ impl) ->
  (first_order impl =? 1) && (N_ impl <? first_order impl + 1) = false ->
  ComputeImpl_frequencies hf impl pool input_data end_data
  = Err SignedOverflow.
Proof.
  intros HS Hreached. unfold ComputeImpl_frequencies.
  rewrite vector_resize_Ok by exact size_ok. cbn [mbind result_bind].
  fold (first_order impl).
  assert (Hz : sized impl (zeros impl)) by reflexivity.
  assert (Hint : INT_MAX < 1 + Z.of_nat (Z.to_nat (int64_succ (S_ impl))))
    by (unfold INT_MAX in *; lia).
  destruct (first_order impl =? 1) eqn:Hfirst.
  - pose proof (unigram_loop_tally (Z.to_nat end_data) 0 (zeros impl)
                  ltac:(lia) Hz) as Huni.
    change (Z.of_nat 0) with 0 in Huni. rewrite Huni.
    cbn [mbind result_bind].
    simpl in Hreached. rewrite Hreached.
    apply skip_loop_overflow;
      [unfold INT_MAX; lia | exact Hint | now apply tally_sized].
  - apply skip_loop_overflow; [unfold INT_MAX; lia | exact Hint | exact Hz].
Qed.
End WindowFacts.

(** ** What the tally counts *)

Lemma tally_cons {T : Type} `{EqDecision T} (impl : Impl) (pool : PoolSet T)
      (w : list T) (ws : list (list T)) (f : list Z) :
  tally impl pool (w :: ws) f
  = tally impl pool ws
      (match bin_of impl pool w with Some b => bump b f | None => f end).
Proof. reflexivity. Qed.

Lemma tally_lookup {T : Type} `{EqDecision T} (impl : Impl) (pool : PoolSet T)
      (ws : list (list T)) (f : list Z) (b : nat) (c : Z) :
  f !! b = Some c -> 0 <= c < 2 ^ 32 ->
  tally impl pool ws f !! b
  = Some (wrap32 (c + occurrences impl pool b ws)).
Proof.
  unfold occurrences. revert f c.
  induction ws as [|w ws IH]; intros f c Hc Hrange.
  - simpl. now rewrite Z.add_0_r, wrap32_small.
  - rewrite tally_cons. cbn [List.filter].
    destruct (bin_of impl pool w) as [b'|] eqn:Hbin.
    + destruct (decide (b' = b)) as [->|Hne].
      * rewrite bool_decide_eq_true_2 by reflexivity.
        rewrite (IH (bump b f) (wrap32 (c + 1)));
          [|unfold bump; now rewrite list_lookup_alter_eq, Hc
           |apply wrap32_range].
        rewrite wrap32_add_l. simpl length. do 2 f_equal. lia.
      * rewrite bool_decide_eq_false_2 by congruence.
        apply IH; [|exact Hrange].
        unfold bump. now rewrite list_lookup_alter_ne.
    + rewrite bool_decide_eq_false_2 by congruence. now apply IH.
Qed.

(** The frequencies of a scan that cannot fail: the tally of the tested
    windows, which holds in every bin the number of windows that fall into
    it, modulo 2^32. *)
Lemma frequencies_count_windows {T : Type} `{EqDecision T} (hf : T -> Z)
      (impl : Impl) (pool : PoolSet T) (input_data : list T) (end_data : Z) :
  scan_safe impl pool input_data end_data ->
  exists f,
    ComputeImpl_frequencies hf impl pool input_data end_data = Ok f
    /\ f = tally impl pool (tested_windows impl input_data end_data)
             (zeros impl)
    /\ length f = Z.to_nat (output_size_ impl)
    /\ forall b,
         (b < length f)%nat ->
         f !! b
         = Some (wrap32 (occurrences impl pool b
                           (tested_windows impl input_data end_data))).
Proof.
  intros (Hpool & Hidx & Hend & _ & HN & HS & Hsize).
  exists (tally impl pool (tested_windows impl input_data end_data)
            (zeros impl)).
  split; [now apply ComputeImpl_frequencies_tally|].
  split; [reflexivity|].
  assert (Hlen : length (tally impl pool
                           (tested_windows impl input_data end_data)
                           (zeros impl))
                 = Z.to_nat (output_size_ impl)).
  { rewrite <- zeros_length. apply (tally_sized impl pool). reflexivity. }
  split; [exact Hlen|].
  intros b Hb. rewrite Hlen in Hb.
  rewrite (tally_lookup impl pool _ (zeros impl) b 0); [reflexivity | | lia].
  unfold zeros. now apply lookup_replicate_2.
Qed.

(** One more skip is one more pass, after the others. *)
Lemma tested_windows_succ {T : Type} (impl : Impl) (input_data : list T)
      (end_data : Z) (S : Z) :
  0 <= S + 1 ->
  tested_windows (with_S impl (S + 1)) input_data end_data
  = tested_windows (with_S impl S) input_data end_data
    ++ pass_windows impl input_data end_data (S + 2)
         (if first_order impl =? 1 then first_order impl + 1
          else first_order impl).
Proof.
  intros HS. unfold tested_windows. cbn [S_ with_S].
  change (first_order (with_S impl (S + 1))) with (first_order impl).
  change (first_order (with_S impl S)) with (first_order impl).
  replace (Z.to_nat (S + 1 + 1)) with (Datatypes.S (Z.to_nat (S + 1)))
    by lia.
  rewrite seq_S, flat_map_app. cbn [flat_map]. rewrite app_nil_r, app_assoc.
  do 2 f_equal. lia.
Qed.

(** A window of distance 1 is a slice of the input. *)
Lemma window_contiguous {T : Type} (input_data : list T) (p k : nat) :
  (p + k <= length input_data)%nat ->
  window input_data (Z.of_nat p) 1 k = take k (drop p input_data).
Proof.
  induction k as [|k IH]; intros Hk; [reflexivity|].
  destruct (lookup_lt_is_Some_2 input_data (p + k)) as [v Hv]; [lia|].
  unfold window in *. rewrite seq_S, omap_app, IH by lia. simpl.
  replace (Z.to_nat (Z.of_nat p + Z.of_nat k * 1)) with (p + k)%nat by lia.
  rewrite Hv. symmetry. apply take_S_r. now rewrite lookup_drop.
Qed.

(** With skip count 0 every window looked up is a slice of the scanned
    items. *)
Lemma tested_windows_contiguous {T : Type} (impl : Impl)
      (input_data : list T) (end_data : Z) (w : list T) :
  0 <= end_data <= size input_data ->
  w ∈ tested_windows (with_S impl 0) input_data end_data ->
  exists p k : nat,
    (1 <= k)%nat /\ Z.of_nat p + Z.of_nat k <= end_data
    /\ w = take k (drop p input_data).
Proof.
  intros Hend. unfold tested_windows, size in *. cbn [S_ with_S].
  change (Z.to_nat (0 + 1)) with 1%nat. cbn [seq flat_map].
  rewrite app_nil_r. rewrite elem_of_app.
  intros [Hin|Hin].
  - destruct (first_order (with_S impl 0) =? 1); [|inversion Hin].
    apply list_elem_of_In, in_flat_map in Hin as (p & Hp & Hw).
    apply in_seq in Hp. destruct Hw as [<-|[]].
    exists p, 1%nat. split; [lia|]. split; [lia|].
    apply window_contiguous. lia.
  - apply list_elem_of_In, in_flat_map in Hin as (p & Hp & Hw).
    apply in_seq in Hp. unfold windows_at in Hw.
    apply in_flat_map in Hw as (k & Hk & Hw). apply in_seq in Hk.
    destruct (_ <=? Z.of_nat k); [|destruct Hw].
    cbn [andb] in Hw. unfold fits in Hw.
    destruct (Z.ltb_spec (Z.of_nat p + (Z.of_nat k - 1) * (1 + Z.of_nat 0))
                end_data) as [Hfit|Hout]; [|destruct Hw].
    destruct Hw as [<-|[]].
    exists p, k. split; [lia|]. split; [lia|].
    change (1 + Z.of_nat 0) with 1. apply window_contiguous. lia.
Qed.

(** ** The constructor *)

Lemma enforce_bind {B} cond e (k : unit -> result B) r :
  (ORT_ENFORCE cond e ≫= k) = Ok r -> cond = true /\ k tt = Ok r.
Proof. destruct cond; simpl; [auto | discriminate]. Qed.

Lemma max_element_ge v x : x ∈ v -> x <= max_element v.
Proof.
  destruct v as [|y v]; [intros Hx; inversion Hx|]. simpl.
  assert (Hfold : forall v m, m <= foldl Z.max m v
                            /\ forall x, x ∈ v -> x <= foldl Z.max m v).
  { clear. induction v as [|z v IH]; intros m; simpl.
    - split; [lia | intros x Hx; inversion Hx].
    - destruct (IH (Z.max m z)) as [Hm Hv]. split; [lia|].
      intros x [->|Hx]%elem_of_cons; [lia | auto]. }
  destruct (Hfold v y) as [Hy Hv].
  intros [->|Hx]%elem_of_cons; [exact Hy | auto].
Qed.

Lemma max_element_in v : v <> [] -> max_element v ∈ v.
Proof.
  destruct v as [|y v]; [congruence|]. intros _. simpl.
  assert (Hfold : forall v m, foldl Z.max m v = m \/ foldl Z.max m v ∈ v).
  { clear. induction v as [|z v IH]; intros m; simpl; [auto|].
    destruct (IH (Z.max m z)) as [->|Hin].
    - destruct (Z.max_spec m z) as [[_ ->]|[_ ->]]; [right; left | now left].
    - right. now right. }
  destruct (Hfold v y) as [->|Hin]; [left | now right].
Qed.

Lemma Ngram_attributes_accepted info impl pool_int64s :
  Ngram_attributes info = Ok (impl, pool_int64s) ->
  accepted info impl pool_int64s.
Proof.
  unfold Ngram_attributes. intros H.
  destruct (attr_mode info) as [mode|] eqn:Hmode; [|discriminate].
  repeat (apply enforce_bind in H as [? H]).
  destruct (attr_M info) as [M|] eqn:HM; [|discriminate].
  destruct (attr_N info) as [N|] eqn:HN; [|discriminate].
  destruct (attr_S info) as [S|] eqn:HS; [|discriminate].
  destruct (attr_all info) as [all|] eqn:Hall; [|discriminate].
  destruct (attr_ngram_counts info) as [counts|] eqn:Hcounts; [|discriminate].
  destruct (attr_ngram_indexes info) as [indexes|] eqn:Hindexes;
    [|discriminate].
  simpl in *.
  repeat match goal with
         | Hc : (_ && _) = true |- _ => apply andb_prop in Hc as [? ?]
         | Hc : (_ <? _) = true |- _ => apply Z.ltb_lt in Hc
         | Hc : (_ <=? _) = true |- _ => apply Z.leb_le in Hc
         | Hc : negb _ = true |- _ => apply negb_true_iff in Hc
         end.
  rewrite to_size_t_id in * by lia.
  assert (Hpos : Forall (fun idx => 0 <= idx) indexes).
  { apply Forall_forall. intros idx Hidx%list_elem_of_In.
    match goal with
    | Hall : forallb _ indexes = true |- _ =>
        rewrite forallb_forall in Hall; apply Hall in Hidx
    end.
    now apply Z.leb_le. }
  assert (Hne : indexes <> []) by (now destruct indexes).
  assert (Hmax : 0 <= max_element indexes).
  { rewrite Forall_forall in Hpos. apply Hpos. now apply max_element_in. }
  rewrite (to_size_t_id (max_element indexes + 1)) in H by lia.
  assert (Hrest : forall weights,
             (attr_weights info = None /\ weights = []
              \/ attr_weights info = Some weights
                 /\ size weights = size indexes) ->
             (let status := attr_pool_strings info in
              let pool_strings := fetched [] status in
              (if IsOK status
               then ORT_ENFORCE (negb (empty pool_strings))
                      E_pool_strings_empty
                    ≫= fun _ => mret []
               else
                 let status0 := attr_pool_int64s info in
                 let pool_int64s0 := fetched [] status0 in
                 ORT_ENFORCE (IsOK status0 && negb (empty pool_int64s0))
                   E_pool_int64s_required
                 ≫= fun _ => mret pool_int64s0)
              ≫= fun pool_int64s0 =>
                   mret ({| weighting_criteria_ := mode_criteria mode;
                            N_ := N; M_ := M; S_ := S;
                            all_ := negb (all =? 0);
                            ngram_counts_ := counts;
                            ngram_indexes_ := indexes;
                            weights_ := weights;
                            pool_strings_ := pool_strings;
                            str_set_ := []; int_set_ := [];
                            output_size_ := max_element indexes + 1 |},
                         pool_int64s0)) = Ok (impl, pool_int64s) ->
             accepted info impl pool_int64s).
  { intros weights Hw Hk. apply bind_Ok in Hk as (p & _ & [= <- <-]).
    constructor; simpl; auto.
    exists mode. repeat split; auto. now destruct (mode_criteria mode). }
  destruct (attr_weights info) as [weights|] eqn:Hweights; simpl in H.
  - apply enforce_bind in H as [Hsize H]. apply Z.eqb_eq in Hsize.
    apply (Hrest weights); [right; auto | exact H].
  - apply (Hrest []); [left; auto | exact H].
Qed.

Lemma Ngram_ctor_Ok hash_int64 hash_string info kernel :
  Ngram_ctor hash_int64 hash_string info = Ok kernel ->
  exists impl pool_int64s st,
    Ngram_attributes info = Ok (impl, pool_int64s)
    /\ Ngram_load hash_int64 hash_string impl pool_int64s = Ok st
    /\ kernel = with_sets impl st.
Proof.
  unfold Ngram_ctor. intros ([impl pool_int64s] & Hattr & Hload)%bind_Ok.
  apply bind_Ok in Hload as (st & Hload & [= <-]). eauto 6.
Qed.

(** The constructor fails by [ORT_ENFORCE] only. *)
Lemma Ngram_attributes_Err info f :
  Ngram_attributes info = Err f -> exists e, f = Enforce e.
Proof.
  unfold Ngram_attributes.
  repeat match goal with
         | |- (ORT_ENFORCE ?c ?e ≫= _) = Err _ -> _ =>
             destruct c; simpl; [|intros [= <-]; eauto]
         | |- ((if ?b then _ else _) ≫= _) = Err _ -> _ =>
             destruct b; simpl
         end;
    try (intros Hret; discriminate Hret);
    match goal with
    | |- ((ORT_ENFORCE ?c ?e ≫= _) ≫= _) = Err _ -> _ =>
        destruct c; simpl; [intros Hret; discriminate Hret
                           | intros [= <-]; eauto]
    end.
Qed.

(** ** Loading the pool *)

Lemma Ngram_load_spec hash_int64 hash_string impl pool_int64s :
  match first_failure (all_ impl) (to_size_t (M_ impl)) (to_size_t (N_ impl))
          (ngram_counts_ impl) (pool_strings_ impl) pool_int64s
          (vocabulary_size (pool_strings_ impl) pool_int64s)
          (length (ngram_counts_ impl)) 0 with
  | Some e =>
      Ngram_load hash_int64 hash_string impl pool_int64s = Err (Enforce e)
  | None =>
      exists st,
        Ngram_load hash_int64 hash_string impl pool_int64s = Ok st
        /\ load_inv hash_int64 hash_string (all_ impl) (to_size_t (M_ impl))
             (to_size_t (N_ impl)) (ngram_counts_ impl) (pool_strings_ impl)
             pool_int64s (vocabulary_size (pool_strings_ impl) pool_int64s)
             (length (ngram_counts_ impl)) st
  end.
Proof. apply load_pool_spec. reflexivity. Qed.

(** A run that is not retained moves the counter past its n-grams and
    leaves both sets alone. *)
Lemma load_body_not_retained hash_int64 hash_string all M N ngram_counts
      pool_strings pool_int64s total_items i st :
  ngram_size st = Z.of_nat i + 1 ->
  run_ok ngram_counts total_items i = true ->
  run_retained all M N i = false ->
  load_body hash_int64 hash_string all M N ngram_counts pool_strings
    pool_int64s total_items i st
  = Ok {| ngram_id := ngram_id st + run_count ngram_counts total_items i;
          ngram_size := ngram_size st + 1;
          int_set := int_set st; str_set := str_set st |}.
Proof.
  intros Hsize [Hb Hw]%andb_prop Hret. unfold load_body. rewrite Hsize.
  fold (start_idx_of ngram_counts i) (end_idx_of ngram_counts total_items i).
  fold (run_in_bounds ngram_counts total_items i). rewrite Hb. simpl.
  fold (run_whole ngram_counts total_items i). rewrite Hw. simpl.
  fold (retained_order all M N (Z.of_nat i + 1)).
  fold (run_retained all M N i). rewrite Hret.
  fold (run_count ngram_counts total_items i).
  destruct (Z.ltb_spec 0 (end_idx_of ngram_counts total_items i
                          - start_idx_of ngram_counts i)) as [Hpos|Hzero];
    [reflexivity|].
  unfold mret, result_ret. do 2 f_equal.
  unfold run_in_bounds in Hb. apply andb_prop in Hb as [Hse _].
  apply Z.leb_le in Hse. unfold run_count.
  replace (end_idx_of ngram_counts total_items i
           - start_idx_of ngram_counts i) with 0 by lia.
  rewrite Z.div_0_l by lia. lia.
Qed.

(** Every entry of a loaded set sits under its position in the id space
    of the vocabulary. *)
Lemma pool_holds_position {T : Type} (hf : T -> Z) all M N ngram_counts
      total_items (vocab : list T) i c e :
  pool_holds hf all M N ngram_counts total_items vocab i c -> e ∈ c ->
  0 <= Id e
  /\ ngrams_upto ngram_counts total_items vocab i !! Z.to_nat (Id e)
     = Some (items_ e).
Proof.
  intros Hc (p & g & Hp & _ & ->)%Hc. simpl.
  split; [lia | now rewrite Nat2Z.id].
Qed.

(** In every kernel the constructor builds, an entry of either set sits
    under the position of its n-gram among the n-grams of the vocabulary. *)
Lemma Ngram_ctor_pool_positions hash_int64 hash_string info kernel :
  Ngram_ctor hash_int64 hash_string info = Ok kernel ->
  exists impl pool_int64s,
    Ngram_attributes info = Ok (impl, pool_int64s)
    /\ (forall e,
           e ∈ int_set_ kernel ->
           0 <= Id e
           /\ vocabulary_ngrams (ngram_counts_ impl)
                (vocabulary_size (pool_strings_ impl) pool_int64s)
                pool_int64s !! Z.to_nat (Id e) = Some (items_ e))
    /\ (forall e,
           e ∈ str_set_ kernel ->
           0 <= Id e
           /\ vocabulary_ngrams (ngram_counts_ impl)
                (vocabulary_size (pool_strings_ impl) pool_int64s)
                (pool_strings_ impl) !! Z.to_nat (Id e)
              = Some (items_ e)).
Proof.
  intros (impl & pool_int64s & st & Hattr & Hload & ->)%Ngram_ctor_Ok.
  exists impl, pool_int64s. split; [exact Hattr|].
  pose proof (Ngram_load_spec hash_int64 hash_string impl pool_int64s)
    as Hspec.
  destruct (first_failure _ _ _ _ _ _ _ _ _) as [e|]; [congruence|].
  destruct Hspec as (st' & Hload' & _ & _ & Hsets).
  assert (st' = st) as -> by congruence. simpl.
  destruct (empty (pool_strings_ impl)); destruct Hsets as [Hc Hnone].
  - split;
      [intros e He; exact (pool_holds_position _ _ _ _ _ _ _ _ _ e Hc He)|].
    rewrite Hnone. intros e He. inversion He.
  - split;
      [|intros e He; exact (pool_holds_position _ _ _ _ _ _ _ _ _ e Hc He)].
    rewrite Hnone. intros e He. inversion He.
Qed.

(** What the loop leaves behind when it succeeds: both sets as the
    invariant describes them, and sound runs. *)
Lemma Ngram_load_Ok hash_int64 hash_string impl pool_int64s st :
  Ngram_load hash_int64 hash_string impl pool_int64s = Ok st ->
  load_inv hash_int64 hash_string (all_ impl) (to_size_t (M_ impl))
    (to_size_t (N_ impl)) (ngram_counts_ impl) (pool_strings_ impl)
    pool_int64s (vocabulary_size (pool_strings_ impl) pool_int64s)
    (length (ngram_counts_ impl)) st
  /\ forall i,
       (i < length (ngram_counts_ impl))%nat ->
       run_ok (ngram_counts_ impl)
         (vocabulary_size (pool_strings_ impl) pool_int64s) i = true
       /\ (run_retained (all_ impl) (to_size_t (M_ impl))
             (to_size_t (N_ impl)) i = true ->
           ~ run_duplicated (ngram_counts_ impl) (pool_strings_ impl)
               pool_int64s
               (vocabulary_size (pool_strings_ impl) pool_int64s) i).
Proof.
  intros Hload.
  pose proof (Ngram_load_spec hash_int64 hash_string impl pool_int64s)
    as Hspec.
  destruct (first_failure _ _ _ _ _ _ _ _ _) as [e|] eqn:Hfirst;
    [congruence|].
  destruct Hspec as (st' & Hload' & Hinv).
  assert (st' = st) as -> by congruence.
  split; [exact Hinv|]. intros i Hi.
  rewrite first_failure_None in Hfirst.
  apply run_failure_None, Hfirst. lia.
Qed.

(** C3. The id counter of the loop counts every n-gram of the vocabulary,
    retained or not: when the constructor returns a kernel, its loop has
    ended with the counter at the number of n-grams of all runs, each run
    of order [k] has taken [(end - start) / k] ids whether it was retained
    or not, and the set in use holds exactly the n-grams of retained
    order, each under its position among all the n-grams of the
    vocabulary; the other set is empty. *)
Theorem pool_ids_are_vocabulary_positions (hash_int64 : Z -> Z)
        (hash_string : string -> Z) (info : OpKernelInfo) (kernel : Impl) :
  Ngram_ctor hash_int64 hash_string info = Ok kernel ->
  ids_are_positions hash_int64 hash_string info kernel.
Proof.
  intros (impl & pool_int64s & st & Hattr & Hload & ->)%Ngram_ctor_Ok.
  exists impl, pool_int64s, st.
  split; [exact Hattr|]. split; [exact Hload|].
  split; [reflexivity|]. split; [reflexivity|].
  apply Ngram_attributes_accepted in Hattr.
  destruct (accepted_M _ _ _ Hattr) as [_ HM].
  destruct (accepted_N _ _ _ Hattr) as [_ HN].
  apply Ngram_load_Ok in Hload as [(_ & Hid & Hsets) Hruns].
  rewrite (to_size_t_id (M_ impl)), (to_size_t_id (N_ impl)) in * by lia.
  cbv zeta. simpl. split; [exact Hid|]. split.
  - intros i Hi. destruct (Hruns i Hi) as [[Hb _]%andb_prop _].
    pose proof (run_count_nonneg _ _ i Hb) as Hcount.
    split; [exact Hcount|]. unfold size.
    rewrite ngrams_upto_S, length_app, run_ngrams_length. lia.
  - split; intros Hmode; rewrite Hmode in Hsets;
      destruct Hsets as [Hholds Hnone]; (split; [exact Hnone|]).
    + exact Hholds.
    + unfold vocabulary_ngrams. exact Hholds.
Qed.

(** Items of different lengths are never equal, whatever their tokens. *)
Lemma NgramItem_eqb_length {T : Type} `{EqDecision T} (a o : NgramItem T) :
  length (items_ a) <> length (items_ o) -> NgramItem_eqb a o = false.
Proof.
  intros Hlen. apply not_true_is_false. intros Heq%NgramItem_eqb_eq.
  now rewrite Heq in Hlen.
Qed.

(** C4, amended. When every run passes the bounds check and the whole
    n-gram check, loading the pool fails with a duplicate n-gram error if
    and only if some retained run holds two equal n-grams; n-grams of
    different orders are never equal for the sets. *)
Theorem duplicate_detection_on_sound_runs (hash_int64 : Z -> Z)
        (hash_string : string -> Z) (impl : Impl) (pool_int64s : list Z) :
  runs_ok impl pool_int64s ->
  duplicate_detection hash_int64 hash_string impl pool_int64s
  /\ (forall a o : NgramItem Z,
         length (items_ a) <> length (items_ o) -> NgramItem_eqb a o = false)
  /\ (forall a o : NgramItem string,
         length (items_ a) <> length (items_ o) -> NgramItem_eqb a o = false).
Proof.
  intros Hruns.
  split; [|split; intros a o; apply NgramItem_eqb_length].
  unfold duplicate_detection, duplicate_error, vocabulary_duplicate.
  pose proof (Ngram_load_spec hash_int64 hash_string impl pool_int64s)
    as Hspec.
  set (total := vocabulary_size (pool_strings_ impl) pool_int64s) in *.
  destruct (first_failure _ _ _ _ _ _ _ _ _) as [e|] eqn:Hfirst.
  - apply first_failure_Some in Hfirst as (i & Hi & Hfail & _).
    pose proof (run_failure_ok _ _ _ _ _ _ _ i e (Hruns i ltac:(lia)) Hfail)
      as ->.
    apply run_failure_duplicates in Hfail as (_ & _ & Hret & Hdup).
    split.
    + intros _. exists i. split; [lia | auto].
    + intros _. exists (Z.of_nat i + 1). rewrite Hspec. unfold E_duplicates.
      destruct (empty (pool_strings_ impl)); auto.
  - destruct Hspec as (st & -> & _). split.
    + intros (k & [Hk|Hk]); discriminate.
    + intros (i & Hi & Hret & Hdup). exfalso.
      rewrite first_failure_None in Hfirst.
      specialize (Hfirst i ltac:(lia)).
      apply run_failure_None in Hfirst as [_ Hnodup].
      now apply Hnodup.
Qed.

(** C4 as stated fails: a run that cannot be cut into whole n-grams stops
    the loop before it reaches the duplicates of a later, retained run. *)
Lemma duplicate_detection_counterexample :
  Ngram_attributes broken_run_info = Ok (broken_run_impl, broken_run_pool)
  /\ Ngram_ctor identity_hash fnv1a_hash broken_run_info
     = Err (Enforce (E_whole_ngrams 2))
  /\ ~ duplicate_detection identity_hash fnv1a_hash broken_run_impl
         broken_run_pool.
Proof.
  split; [reflexivity|]. split; [reflexivity|].
  intros [_ Hback]. destruct Hback as (k & [Hk|Hk]).
  - exists 2%nat. split; [simpl; lia|]. split; [reflexivity|].
    exists 0%nat, 1%nat, [7; 7; 7]. split; [lia|]. split; reflexivity.
  - vm_compute in Hk. discriminate Hk.
  - vm_compute in Hk. discriminate Hk.
Qed.

Lemma duplicate_detection_on_sound_runs_witness :
  runs_ok twin_bigram_impl twin_bigram_pool
  /\ duplicate_detection identity_hash fnv1a_hash twin_bigram_impl
       twin_bigram_pool
  /\ Ngram_load identity_hash fnv1a_hash twin_bigram_impl twin_bigram_pool
     = Err (Enforce (E_int64_duplicates 2)).
Proof.
  assert (Hruns : runs_ok twin_bigram_impl twin_bigram_pool).
  { intros [|[|i]] Hi; [reflexivity | reflexivity | simpl in Hi; lia]. }
  split; [exact Hruns|]. split; [|reflexivity].
  exact (proj1 (duplicate_detection_on_sound_runs identity_hash fnv1a_hash
                  twin_bigram_impl twin_bigram_pool Hruns)).
Defined.

Lemma pool_ids_are_vocabulary_positions_witness :
  exists kernel,
    Ngram_ctor identity_hash fnv1a_hash bigrams_only_info = Ok kernel
    /\ map (fun e => (Id e, items_ e)) (str_set_ kernel)
       = [(2, ["a"; "b"]%string)]
    /\ ids_are_positions identity_hash fnv1a_hash bigrams_only_info kernel.
Proof.
  eexists. split; [reflexivity|]. split; [reflexivity|].
  exact (pool_ids_are_vocabulary_positions identity_hash fnv1a_hash
           bigrams_only_info _ eq_refl).
Defined.

(** ** The checks of the attributes *)

(** C10. [M] and [N] must be in bounds of [ngram_counts]: a configuration
    with [M] or [N] above the number of boundaries is refused, by the
    bounds checks themselves when all that the constructor checks before
    them is in order. *)
Theorem M_and_N_inbounds_of_ngram_counts (hash_int64 : Z -> Z)
        (hash_string : string -> Z) (info : OpKernelInfo) (M N : Z)
        (ngram_counts : list Z) :
  attr_M info = Some M -> attr_N info = Some N ->
  attr_ngram_counts info = Some ngram_counts ->
  size ngram_counts < M \/ size ngram_counts < N ->
  (exists e, Ngram_ctor hash_int64 hash_string info = Err (Enforce e))
  /\ (forall mode,
         attr_mode info = Some mode -> mode_criteria mode <> kNone ->
         0 < M -> M <= N ->
         IsOK (attr_S info) = true -> IsOK (attr_all info) = true ->
         ngram_counts <> [] ->
         Ngram_ctor hash_int64 hash_string info
         = Err (Enforce (if size ngram_counts <? M then E_M_inbounds
                         else E_N_inbounds))).
Proof.
  intros HM HN Hcounts Hout. split.
  - unfold Ngram_ctor.
    destruct (Ngram_attributes info) as [[impl pool_int64s]|f] eqn:Hattr.
    + apply Ngram_attributes_accepted in Hattr.
      destruct (accepted_M _ _ _ Hattr) as [HM' _].
      destruct (accepted_N _ _ _ Hattr) as [HN' Hle].
      destruct (accepted_counts _ _ _ Hattr) as [Hc' Hin].
      assert (M_ impl = M) by congruence.
      assert (N_ impl = N) by congruence.
      assert (ngram_counts_ impl = ngram_counts) by congruence.
      subst. lia.
    + apply Ngram_attributes_Err in Hattr as [e ->]. now exists e.
  - intros mode Hmode Hcrit HM0 HMN HS Hall Hne.
    unfold Ngram_ctor, Ngram_attributes.
    rewrite Hmode, HM, HN, Hcounts, HS, Hall. simpl.
    assert (Hrec : negb (is_kNone (mode_criteria mode)) = true)
      by now destruct (mode_criteria mode).
    rewrite Hrec. simpl.
    replace (0 <? M) with true by (symmetry; apply Z.ltb_lt; lia).
    replace (M <=? N) with true by (symmetry; apply Z.leb_le; lia).
    replace (0 <=? N) with true by (symmetry; apply Z.leb_le; lia).
    replace (empty ngram_counts) with false by now destruct ngram_counts.
    simpl. rewrite (to_size_t_id M), (to_size_t_id N) by lia.
    destruct (Z.ltb_spec (size ngram_counts) M) as [HltM|HgeM].
    + replace (M <=? size ngram_counts) with false
        by (symmetry; apply Z.leb_gt; lia).
      reflexivity.
    + replace (M <=? size ngram_counts) with true
        by (symmetry; apply Z.leb_le; lia).
      replace (N <=? size ngram_counts) with false
        by (symmetry; apply Z.leb_gt; lia).
      reflexivity.
Qed.

Lemma M_and_N_inbounds_of_ngram_counts_witness :
  size [0; 2] < 3
  /\ Ngram_ctor identity_hash fnv1a_hash trigram_request_info
     = Err (Enforce E_N_inbounds).
Proof.
  split; [reflexivity|].
  refine (proj2 (M_and_N_inbounds_of_ngram_counts identity_hash fnv1a_hash
                   trigram_request_info 1 3 [0; 2] eq_refl eq_refl eq_refl _)
            "TF"%string eq_refl _ _ _ eq_refl eq_refl _).
  - right. reflexivity.
  - discriminate.
  - reflexivity.
  - discriminate.
  - discriminate.
Defined.

(** C1, on the code: the check after reading [S] looks at [N], so a
    negative skip count is accepted, and with [S = -1] the kernel makes no
    pass over the input for n-grams of more than one token. *)
Theorem negative_S_is_accepted (hash_int64 : Z -> Z)
        (hash_string : string -> Z) (S : Z) :
  exists kernel,
    Ngram_ctor hash_int64 hash_string (scenario_info S) = Ok kernel
    /\ S_ kernel = S
    /\ (S = -1 ->
        forall out,
          Compute hash_int64 hash_string
            {| impl_ := kernel; Input0 := scenario_input; Output0 := out |}
          = (Ok Status_OK,
             {| impl_ := kernel; Input0 := scenario_input;
                Output0 := Some [float_two; float_one; float_zero] |})).
Proof.
  eexists. split; [reflexivity|]. split; [reflexivity|].
  intros -> out. reflexivity.
Qed.

Lemma negative_S_is_accepted_witness :
  exists kernel,
    Ngram_ctor identity_hash fnv1a_hash (scenario_info (-1)) = Ok kernel
    /\ S_ kernel = -1
    /\ Compute identity_hash fnv1a_hash
         {| impl_ := kernel; Input0 := scenario_input; Output0 := None |}
       = (Ok Status_OK,
          {| impl_ := kernel; Input0 := scenario_input;
             Output0 := Some [float_two; float_one; float_zero] |}).
Proof.
  destruct (negative_S_is_accepted identity_hash fnv1a_hash (-1))
    as (kernel & Hctor & HS & Hrun).
  exists kernel. split; [exact Hctor|]. split; [exact HS|].
  exact (Hrun eq_refl None).
Defined.

(** C2. The scenario of the specification: the constructor stores "a", "b"
    and ("a", "b") under the ids 0, 1 and 2, and on the input "a", "b", "a"
    the kernel writes 2.0, 1.0, 1.0. *)
Theorem scenario_TF_output (hash_int64 : Z -> Z) (hash_string : string -> Z) :
  exists kernel,
    Ngram_ctor hash_int64 hash_string (scenario_info 0) = Ok kernel
    /\ map (fun e => (Id e, items_ e)) (str_set_ kernel)
       = [(2, ["a"; "b"]); (1, ["b"]); (0, ["a"])]%string
    /\ ComputeImpl_frequencies hash_string kernel (str_set_ kernel)
         ["a"; "b"; "a"]%string 3 = Ok [2; 1; 1]
    /\ forall out,
         Compute hash_int64 hash_string
           {| impl_ := kernel; Input0 := scenario_input; Output0 := out |}
         = (Ok Status_OK,
            {| impl_ := kernel; Input0 := scenario_input;
               Output0 := Some [float_two; float_one; float_one] |}).
Proof.
  eexists. split; [reflexivity|]. split; [reflexivity|].
  split; [reflexivity|].
  intros out. reflexivity.
Qed.

(** ** Compute *)

Section ComputeFacts.
Variable hash_int64 : Z -> Z.
Variable hash_string : string -> Z.

Local Abbreviation Compute' := (Compute hash_int64 hash_string).
Local Abbreviation dispatch' := (dispatch hash_int64 hash_string).

Lemma Compute_dispatch s :
  Compute' s
  = match dispatch' s with
    | Some (Ok Y) => (Ok Status_OK, with_output s (Some Y))
    | Some (Err f) => (Err f, s)
    | None =>
        (Ok (Status_INVALID_ARGUMENT "Invalid type of the input argument"), s)
    end.
Proof.
  unfold Compute, dispatch, run_ComputeImpl.
  destruct (DataType (Input0 s)); try reflexivity;
    now destruct (ComputeImpl _ _ _ _ _).
Qed.

Lemma dispatch_supported s :
  dispatch' s = None <-> supported (DataType (Input0 s)) = false.
Proof.
  unfold dispatch. destruct (DataType (Input0 s)); simpl; split;
    congruence.
Qed.

End ComputeFacts.

Lemma wrap64_nonneg z : 0 <= wrap64 z.
Proof. unfold wrap64. apply Z.mod_pos_bound. lia. Qed.

Lemma total_items_of_nonneg input_dims : 0 <= total_items_of input_dims.
Proof.
  unfold total_items_of. destruct (_ || _); [lia|].
  assert (Hfold : forall v t, 0 <= t ->
             0 <= foldl (fun total_items dim =>
                           wrap64 (total_items * to_size_t dim)) t v).
  { clear. induction v as [|d v IH]; intros t Ht; simpl; [exact Ht|].
    apply IH, wrap64_nonneg. }
  apply Hfold. lia.
Qed.

Lemma OutputResult_safe impl f :
  output_safe impl -> length f = Z.to_nat (output_size_ impl) ->
  0 <= output_size_ impl ->
  exists Y, OutputResult impl f = Ok Y /\ length Y = length f.
Proof.
  unfold output_safe, OutputResult. intros Hsafe Hlen Hout.
  assert (Hsize : size f = output_size_ impl) by (unfold size; lia).
  destruct (weighting_criteria_ impl); [contradiction| | |].
  - eexists. split; [reflexivity|]. now rewrite length_map.
  - destruct Hsafe as [->|Hw]; simpl.
    + eexists. split; [reflexivity|]. now rewrite length_map.
    + destruct (weights_ impl) as [|w ws] eqn:Hws; simpl.
      * eexists. split; [reflexivity|]. now rewrite length_map.
      * rewrite Hsize, <- Hw, Z.eqb_refl. simpl.
        eexists. split; [reflexivity|].
        rewrite length_zip_with. unfold size in *. simpl in *. lia.
  - destruct Hsafe as [->|Hw]; simpl.
    + eexists. split; [reflexivity|]. now rewrite length_map.
    + destruct (weights_ impl) as [|w ws] eqn:Hws; simpl.
      * eexists. split; [reflexivity|]. now rewrite length_map.
      * rewrite Hsize, <- Hw, Z.eqb_refl. simpl.
        eexists. split; [reflexivity|].
        rewrite length_zip_with. unfold size in *. simpl in *. lia.
Qed.

(** A safe kernel on a supported input that fits returns [OK] and writes
    the encoding of the frequencies, which hold in every bin the number
    of hits of the input, modulo 2^32. *)
Lemma Compute_counts hash_int64 hash_string s :
  kernel_safe (impl_ s) ->
  supported (DataType (Input0 s)) = true -> tensor_fits (Input0 s) ->
  exists f Y,
    Compute hash_int64 hash_string s
    = (Ok Status_OK, with_output s (Some Y))
    /\ OutputResult (impl_ s) f = Ok Y
    /\ length Y = Z.to_nat (output_size_ (impl_ s))
    /\ length f = Z.to_nat (output_size_ (impl_ s))
    /\ forall b,
         (b < length f)%nat ->
         f !! b = Some (wrap32 (hits (impl_ s) (Input0 s) b)).
Proof.
  intros (Hint & Hstr & Hidx & Hout & Hsize & Hfirst & HN & HS & Hmax) Hsup
         Hfits.
  rewrite Compute_dispatch. unfold dispatch, hits.
  pose proof (total_items_of_nonneg (Shape (Input0 s))) as Htotal.
  unfold tensor_fits, elements in Hfits. unfold DataType in *.
  assert (Hrun : forall {T} `{EqDecision T} (hf : T -> Z) (pool : PoolSet T)
                        (data : list T),
             pool_safe (impl_ s) pool ->
             total_items_of (Shape (Input0 s)) <= size data ->
             exists f Y,
               ComputeImpl hf (impl_ s) pool data
                 (total_items_of (Shape (Input0 s))) = Ok Y
               /\ OutputResult (impl_ s) f = Ok Y
               /\ length Y = Z.to_nat (output_size_ (impl_ s))
               /\ length f = Z.to_nat (output_size_ (impl_ s))
               /\ forall b,
                    (b < length f)%nat ->
                    f !! b
                    = Some (wrap32
                              (occurrences (impl_ s) pool b
                                 (tested_windows (impl_ s) data
                                    (total_items_of (Shape (Input0 s))))))).
  { intros T ? hf pool data Hpool Hdata. unfold ComputeImpl.
    destruct (frequencies_count_windows hf (impl_ s) pool data
                (total_items_of (Shape (Input0 s))))
      as (f & Hf & _ & Hlen & Hbins).
    { split; [exact Hpool|]. split; [exact Hidx|].
      split; [split; [exact Htotal | exact Hdata]|].
      split; [exact Hfirst|].
      split; [exact HN|]. split; [exact HS | exact Hmax]. }
    rewrite Hf. simpl.
    destruct (OutputResult_safe (impl_ s) f Hout Hlen Hsize) as (Y & HY & HlenY).
    exists f, Y. rewrite HY. repeat split; auto. congruence. }
  destruct (Buffer (Input0 s)) as [d|d|d|d|d|d] eqn:Hbuf;
    try discriminate; unfold Data_integer, Data_string; rewrite Hbuf.
  - destruct (Hrun Z _ hash_int64 (int_set_ (impl_ s)) d Hint Hfits)
      as (f & Y & -> & Hrest). eauto.
  - destruct (Hrun Z _ hash_int64 (int_set_ (impl_ s)) d Hint Hfits)
      as (f & Y & -> & Hrest). eauto.
  - destruct (Hrun string _ hash_string (str_set_ (impl_ s)) d Hstr Hfits)
      as (f & Y & -> & Hrest). eauto.
Qed.

(** ** Kernels the constructor builds *)

(** When [ngram_indexes] has an entry for every n-gram of the vocabulary,
    the ids of the pool and the output bins are in range. *)
Lemma indexed_vocabulary_kernel_safe hash_int64 hash_string info kernel impl
      pool_int64s :
  Ngram_ctor hash_int64 hash_string info = Ok kernel ->
  Ngram_attributes info = Ok (impl, pool_int64s) ->
  size (vocabulary_ngrams (ngram_counts_ impl)
          (vocabulary_size (pool_strings_ impl) pool_int64s) pool_int64s)
  <= size (ngram_indexes_ impl) ->
  output_size_ kernel = max_element (ngram_indexes_ kernel) + 1
  /\ 0 <= output_size_ kernel
  /\ pool_safe kernel (int_set_ kernel)
  /\ pool_safe kernel (str_set_ kernel)
  /\ indexes_safe kernel
  /\ (output_safe kernel ->
      N_ kernel < INT_MAX -> S_ kernel + 1 < INT_MAX ->
      output_size_ kernel <= vector_max_size ->
      kernel_safe kernel).
Proof.
  intros Hctor Hattr Hsize.
  destruct (Ngram_ctor_pool_positions hash_int64 hash_string info kernel
              Hctor)
    as (impl' & pool' & Hattr' & Hint & Hstr).
  assert (impl' = impl /\ pool' = pool_int64s) as [-> ->]
      by (split; congruence).
  apply Ngram_ctor_Ok in Hctor as (impl' & pool' & st & Hattr'' & _ & ->).
  assert (impl' = impl) as -> by congruence.
  apply Ngram_attributes_accepted in Hattr.
  destruct (accepted_indexes _ _ _ Hattr) as (_ & Hne & Hpos).
  pose proof (accepted_output_size _ _ _ Hattr) as Hout.
  unfold pool_safe, indexes_safe. simpl.
  assert (Hmax : 0 <= max_element (ngram_indexes_ impl)).
  { rewrite Forall_forall in Hpos. apply Hpos. now apply max_element_in. }
  split; [exact Hout|]. split; [lia|].
  assert (Hin : forall {U} (vocab : list U) p g,
             vocabulary_ngrams (ngram_counts_ impl)
               (vocabulary_size (pool_strings_ impl) pool_int64s) vocab
               !! Z.to_nat p = Some g ->
             0 <= p -> 0 <= p < size (ngram_indexes_ impl)).
  { intros U vocab p g Hp%lookup_lt_Some Hp0. unfold vocabulary_ngrams in *.
    rewrite (ngrams_upto_length _ _ vocab pool_int64s) in Hp.
    unfold size in *. lia. }
  assert (Hpool_int : forall e, e ∈ int_set st ->
                       0 <= Id e < size (ngram_indexes_ impl)).
  { intros e [He0 He]%Hint. eapply Hin; eauto. }
  assert (Hpool_str : forall e, e ∈ str_set st ->
                       0 <= Id e < size (ngram_indexes_ impl)).
  { intros e [He0 He]%Hstr. eapply Hin; eauto. }
  assert (Hidx : Forall (fun idx => 0 <= idx < output_size_ impl)
                   (ngram_indexes_ impl)).
  { rewrite Forall_forall in *. intros idx Hidx.
    pose proof (Hpos idx Hidx). pose proof (max_element_ge _ _ Hidx). lia. }
  split; [exact Hpool_int|]. split; [exact Hpool_str|].
  split; [exact Hidx|].
  intros Hsafe HN HS Hfits. unfold kernel_safe.
  split; [exact Hpool_int|]. split; [exact Hpool_str|].
  split; [exact Hidx|]. split; [exact Hsafe|].
  split; [simpl; lia|].
  split; [|split; [exact HN|]; split; [exact HS | exact Hfits]].
  destruct (accepted_M _ _ _ Hattr) as [_ HM].
  destruct (accepted_N _ _ _ Hattr) as [_ HMN].
  unfold first_order. simpl. destruct (all_ impl); lia.
Qed.

(** C8, on the code: the constructor never compares the length of
    [ngram_indexes] with the number of n-grams, so it accepts a pool whose
    ids run past [ngram_indexes]; a hit on such an id breaks the assertion
    of [IncrementCount]. *)
Theorem short_ngram_indexes_break_IncrementCount (hash_int64 : Z -> Z)
        (hash_string : string -> Z) :
  exists kernel,
    Ngram_ctor hash_int64 hash_string short_indexes_info = Ok kernel
    /\ output_size_ kernel = max_element (ngram_indexes_ kernel) + 1
    /\ map (fun e => (Id e, items_ e)) (int_set_ kernel)
       = [(2, [3]); (1, [2]); (0, [1])]
    /\ size (ngram_indexes_ kernel) = 1
    /\ forall out,
         Compute hash_int64 hash_string
           {| impl_ := kernel; Input0 := short_indexes_input; Output0 := out |}
         = (Err (Assert A_id_in_ngram_indexes),
            {| impl_ := kernel; Input0 := short_indexes_input;
               Output0 := out |}).
Proof.
  eexists. split; [reflexivity|]. split; [reflexivity|].
  split; [reflexivity|]. split; [reflexivity|].
  intros out. reflexivity.
Qed.

(** ** The encoder *)

(** C6. In mode TFIDF without weights the encoder writes the counts as
    floats, as mode TF does. *)
Theorem TFIDF_without_weights_is_TF (hash_int64 : Z -> Z)
        (hash_string : string -> Z) (info : OpKernelInfo) (kernel : Impl)
        (frequences : list Z) :
  Ngram_ctor hash_int64 hash_string info = Ok kernel ->
  attr_mode info = Some "TFIDF"%string ->
  attr_weights info = None ->
  OutputResult kernel frequences = Ok (map float_of_uint32 frequences)
  /\ forall kernel_TF,
       weighting_criteria_ kernel_TF = kTF ->
       OutputResult kernel_TF frequences = OutputResult kernel frequences.
Proof.
  intros (impl & pool_int64s & st & Hattr & _ & ->)%Ngram_ctor_Ok Hmode Hw.
  apply Ngram_attributes_accepted in Hattr.
  destruct (accepted_mode _ _ _ Hattr) as (mode & Hmode' & Hcrit & _).
  assert (mode = "TFIDF"%string) as -> by congruence.
  assert (Hnone : weights_ impl = []).
  { destruct (accepted_weights _ _ _ Hattr) as [[_ ?]|[? _]]; congruence. }
  assert (Hout : OutputResult (with_sets impl st) frequences
                 = Ok (map float_of_uint32 frequences)).
  { unfold OutputResult. simpl. now rewrite Hcrit, Hnone. }
  split; [exact Hout|].
  intros kernel_TF HTF. rewrite Hout. unfold OutputResult. now rewrite HTF.
Qed.

Lemma TFIDF_without_weights_is_TF_witness :
  exists kernel,
    Ngram_ctor identity_hash fnv1a_hash scenario_TFIDF_info = Ok kernel
    /\ OutputResult kernel [2; 1; 1] = Ok [float_two; float_one; float_one].
Proof.
  eexists. split; [reflexivity|].
  exact (proj1 (TFIDF_without_weights_is_TF identity_hash fnv1a_hash
                  scenario_TFIDF_info _ [2; 1; 1] eq_refl eq_refl eq_refl)).
Defined.

(** ** Invocations *)


(** C9. An input of an element type other than [int32_t], [int64_t] and
    string makes Compute return the status [INVALID_ARGUMENT] and leaves
    the session as it was. After it, a safe kernel serves an input of a
    supported type as it would have before: it returns [OK] and writes
    the encoding of the frequencies that hold in every bin the number of
    hits of the new input, modulo 2^32, one float per bin. *)
Theorem unsupported_input_fails_that_call_only (hash_int64 : Z -> Z)
        (hash_string : string -> Z) (s : Session) :
  supported (DataType (Input0 s)) = false ->
  Compute hash_int64 hash_string s
  = (Ok (Status_INVALID_ARGUMENT "Invalid type of the input argument"), s)
  /\ forall X,
       supported (DataType X) = true ->
       kernel_safe (impl_ s) -> tensor_fits X ->
       exists f Y,
         Compute hash_int64 hash_string
           (with_input (snd (Compute hash_int64 hash_string s)) X)
         = (Ok Status_OK,
            {| impl_ := impl_ s; Input0 := X; Output0 := Some Y |})
         /\ OutputResult (impl_ s) f = Ok Y
         /\ length Y = Z.to_nat (output_size_ (impl_ s))
         /\ length f = Z.to_nat (output_size_ (impl_ s))
         /\ forall b,
              (b < length f)%nat ->
              f !! b = Some (wrap32 (hits (impl_ s) X b)).
Proof.
  intros Hno.
  assert (Hfail : Compute hash_int64 hash_string s
                  = (Ok (Status_INVALID_ARGUMENT
                           "Invalid type of the input argument"), s)).
  { rewrite Compute_dispatch.
    now rewrite (proj2 (dispatch_supported hash_int64 hash_string s) Hno). }
  split; [exact Hfail|].
  intros X Hyes Hsafe Hfits. rewrite Hfail. simpl.
  destruct (Compute_counts hash_int64 hash_string (with_input s X) Hsafe Hyes
              Hfits) as (f & Y & HY & Hrest).
  exists f, Y. split; [exact HY | exact Hrest].
Qed.

Lemma unsupported_input_fails_that_call_only_witness :
  exists kernel,
    Ngram_ctor identity_hash fnv1a_hash (scenario_info 0) = Ok kernel
    /\ let s := {| impl_ := kernel; Input0 := float_input;
                   Output0 := None |} in
       Compute identity_hash fnv1a_hash s
       = (Ok (Status_INVALID_ARGUMENT "Invalid type of the input argument"),
          s)
       /\ Compute identity_hash fnv1a_hash
            (with_input (snd (Compute identity_hash fnv1a_hash s))
               scenario_input)
          = (Ok Status_OK,
             {| impl_ := kernel; Input0 := scenario_input;
                Output0 := Some [float_two; float_one; float_one] |})
       /\ exists f Y,
            Compute identity_hash fnv1a_hash
              (with_input (snd (Compute identity_hash fnv1a_hash s))
                 scenario_input)
            = (Ok Status_OK,
               {| impl_ := kernel; Input0 := scenario_input;
                  Output0 := Some Y |})
            /\ OutputResult kernel f = Ok Y
            /\ length Y = 3%nat
            /\ length f = 3%nat
            /\ forall b,
                 (b < length f)%nat ->
                 f !! b = Some (wrap32 (hits kernel scenario_input b)).
Proof.
  eexists. split; [reflexivity|]. cbv zeta.
  match goal with
  | |- Compute _ _ ?s = _ /\ _ =>
      destruct (unsupported_input_fails_that_call_only identity_hash
                  fnv1a_hash s eq_refl) as [Hfail Hnext]
  end.
  split; [exact Hfail|]. split; [reflexivity|].
  apply (Hnext scenario_input eq_refl).
  - destruct (indexed_vocabulary_kernel_safe identity_hash fnv1a_hash
                (scenario_info 0) _ _ _ eq_refl eq_refl)
      as (_ & _ & _ & _ & _ & Hsafe).
    + vm_compute. discriminate.
    + apply Hsafe; [exact I | | |]; vm_compute;
        first [reflexivity | discriminate].
  - vm_compute. discriminate.
Defined.
(** ** Skip counts, compared *)

(** C5, amended. With skip count 0 every window the matcher looks up is a
    slice of the input, and the frequencies count these windows. For a
    skip count [S >= 0] and a scan with skip count [S + 1] that cannot
    fail, which has [S + 2] below [INT_MAX], the frequency of a bin for
    [S + 1] is its frequency for [S] plus the number of hits among the
    windows of distance [S + 2], modulo 2^32; where that sum stays below
    2^32, the frequency does not decrease. *)
Theorem skip_count_adds_a_pass {T : Type} `{EqDecision T} (hf : T -> Z)
        (impl : Impl) (pool : PoolSet T) (input_data : list T)
        (end_data : Z) (S : Z) :
  0 <= S ->
  scan_safe (with_S impl (S + 1)) pool input_data end_data ->
  (exists f,
      ComputeImpl_frequencies hf (with_S impl 0) pool input_data end_data
      = Ok f
      /\ (forall b,
             (b < length f)%nat ->
             f !! b
             = Some (wrap32
                       (occurrences impl pool b
                          (tested_windows (with_S impl 0) input_data
                             end_data))))
      /\ forall w,
           w ∈ tested_windows (with_S impl 0) input_data end_data ->
           exists p k : nat,
             (1 <= k)%nat /\ Z.of_nat p + Z.of_nat k <= end_data
             /\ w = take k (drop p input_data))
  /\ exists f0 f1,
       ComputeImpl_frequencies hf (with_S impl S) pool input_data end_data
       = Ok f0
       /\ ComputeImpl_frequencies hf (with_S impl (S + 1)) pool input_data
            end_data = Ok f1
       /\ length f1 = length f0
       /\ forall b c0,
            f0 !! b = Some c0 ->
            let added :=
              occurrences impl pool b
                (pass_windows impl input_data end_data (S + 2)
                   (if first_order impl =? 1 then first_order impl + 1
                    else first_order impl)) in
            f1 !! b = Some (wrap32 (c0 + added))
            /\ (c0 + added < 2 ^ 32 ->
                f1 !! b = Some (c0 + added) /\ c0 <= c0 + added).
Proof.
  intros HS (Hpool & Hidx & Hend & Hfirst & HN & HS1 & Hsize).
  cbn [S_ N_ output_size_ with_S] in HN, HS1, Hsize.
  assert (Hsafe : forall S', S' <= S + 1 ->
             scan_safe (with_S impl S') pool input_data end_data).
  { intros S' HS'. split; [exact Hpool|]. split; [exact Hidx|].
    split; [exact Hend|]. split; [exact Hfirst|].
    split; [exact HN|]. split; [|exact Hsize].
    cbn [S_ with_S]. lia. }
  split.
  - destruct (frequencies_count_windows hf (with_S impl 0) pool input_data
                end_data (Hsafe 0 ltac:(lia))) as (f & Hf & _ & _ & Hbins).
    exists f. split; [exact Hf|]. split; [exact Hbins|].
    intros w. now apply tested_windows_contiguous.
  - destruct (frequencies_count_windows hf (with_S impl S) pool input_data
                end_data (Hsafe S ltac:(lia)))
      as (f0 & Hf0 & Htally0 & Hlen0 & Hbins0).
    destruct (frequencies_count_windows hf (with_S impl (S + 1)) pool
                input_data end_data (Hsafe (S + 1) ltac:(lia)))
      as (f1 & Hf1 & Htally1 & Hlen1 & _).
    exists f0, f1. split; [exact Hf0|]. split; [exact Hf1|].
    split; [rewrite Hlen0, Hlen1; reflexivity|].
    intros b c0 Hc0. cbv zeta.
    assert (Hb : (b < length f0)%nat) by (now apply lookup_lt_Some in Hc0).
    assert (Hrange : 0 <= c0 < 2 ^ 32).
    { rewrite (Hbins0 b Hb) in Hc0. injection Hc0 as <-.
      apply wrap32_range. }
    assert (Hnext : f1 !! b
                    = Some (wrap32
                              (c0 + occurrences impl pool b
                                      (pass_windows impl input_data end_data
                                         (S + 2)
                                         (if first_order impl =? 1
                                          then first_order impl + 1
                                          else first_order impl))))).
    { rewrite Htally1, tested_windows_succ by lia.
      change (tally (with_S impl (S + 1)) pool) with (tally impl pool).
      rewrite (tally_app impl pool).
      change (zeros (with_S impl (S + 1))) with (zeros (with_S impl S)).
      change (tally impl pool (tested_windows (with_S impl S) input_data
                                 end_data) (zeros (with_S impl S)))
        with (tally (with_S impl S) pool
                (tested_windows (with_S impl S) input_data end_data)
                (zeros (with_S impl S))).
      rewrite <- Htally0. now apply tally_lookup. }
    split; [exact Hnext|]. intros Hsum. rewrite Hnext.
    assert (Hadded : 0 <= occurrences impl pool b
                            (pass_windows impl input_data end_data (S + 2)
                               (if first_order impl =? 1
                                then first_order impl + 1
                                else first_order impl)))
      by (unfold occurrences; lia).
    split; [|lia]. f_equal. apply wrap32_small. lia.
Qed.

Lemma skip_count_adds_a_pass_witness :
  exists kernel,
    Ngram_ctor identity_hash fnv1a_hash (scenario_info 0) = Ok kernel
    /\ ComputeImpl_frequencies fnv1a_hash (with_S kernel 0)
         (str_set_ kernel) gapped_input 3 = Ok [1; 1; 0]
    /\ ComputeImpl_frequencies fnv1a_hash (with_S kernel 1)
         (str_set_ kernel) gapped_input 3 = Ok [1; 1; 1]
    /\ occurrences kernel (str_set_ kernel) 2
         (pass_windows kernel gapped_input 3 2 2) = 1
    /\ exists f0 f1,
         ComputeImpl_frequencies fnv1a_hash (with_S kernel 0)
           (str_set_ kernel) gapped_input 3 = Ok f0
         /\ ComputeImpl_frequencies fnv1a_hash (with_S kernel (0 + 1))
              (str_set_ kernel) gapped_input 3 = Ok f1
         /\ length f1 = length f0
         /\ forall b c0,
              f0 !! b = Some c0 ->
              let added :=
                occurrences kernel (str_set_ kernel) b
                  (pass_windows kernel gapped_input 3 (0 + 2)
                     (if first_order kernel =? 1 then first_order kernel + 1
                      else first_order kernel)) in
              f1 !! b = Some (wrap32 (c0 + added))
              /\ (c0 + added < 2 ^ 32 ->
                  f1 !! b = Some (c0 + added) /\ c0 <= c0 + added).
Proof.
  eexists. split; [reflexivity|]. split; [reflexivity|].
  split; [reflexivity|]. split; [reflexivity|].
  match goal with
  | |- exists f0 f1, ComputeImpl_frequencies _ (with_S ?k 0) _ _ _ = _ /\ _ =>
      destruct (indexed_vocabulary_kernel_safe identity_hash fnv1a_hash
                  (scenario_info 0) k _ _ eq_refl eq_refl)
        as (_ & _ & _ & Hpool & Hidx & _);
        [vm_compute; discriminate|];
      apply (skip_count_adds_a_pass fnv1a_hash k (str_set_ k)
               gapped_input 3 0)
  end.
  - lia.
  - split; [exact Hpool|]. split; [exact Hidx|].
    split; [vm_compute; split; discriminate|].
    split; [vm_compute; split; [reflexivity | discriminate]|].
    split; [vm_compute; reflexivity|].
    split; [vm_compute; reflexivity|]. vm_compute. discriminate.
Defined.

(** The kernel of the single bigram (5, 5) is what the constructor builds,
    whatever the skip count. *)
Lemma bigram_kernel_constructed hash_int64 hash_string S :
  Ngram_ctor hash_int64 hash_string (bigram_info S)
  = Ok (bigram_kernel hash_int64 S).
Proof. reflexivity. Qed.

Lemma bigram_kernel_frequencies hash_int64 S (len : nat) :
  S + 1 < INT_MAX ->
  ComputeImpl_frequencies hash_int64 (bigram_kernel hash_int64 S)
    (int_set_ (bigram_kernel hash_int64 S)) (replicate len 5) (Z.of_nat len)
  = Ok [wrap32 (constant_hits (Z.to_nat (S + 1)) 1 (Z.of_nat len))].
Proof.
  intros HS.
  exact (constant_frequencies hash_int64 (bigram_kernel hash_int64 S) 5 len
           eq_refl eq_refl eq_refl eq_refl HS).
Qed.

(** C5 as stated fails: on 2^17 equal tokens the single counter holds
    4294938835 for skip count 38389 and, after wrapping, 64220 for skip
    count 38390. *)
Lemma skip_monotone_counterexample :
  Ngram_ctor identity_hash fnv1a_hash (bigram_info 38389)
  = Ok (bigram_kernel identity_hash 38389)
  /\ ComputeImpl_frequencies identity_hash (bigram_kernel identity_hash 38389)
       (int_set_ (bigram_kernel identity_hash 38389)) long_input 131072
     = Ok [4294938835]
  /\ ComputeImpl_frequencies identity_hash (bigram_kernel identity_hash 38390)
       (int_set_ (bigram_kernel identity_hash 38390)) long_input 131072
     = Ok [64220]
  /\ ~ skip_monotone identity_hash (bigram_kernel identity_hash 38389)
         (int_set_ (bigram_kernel identity_hash 38389)) long_input 131072
         38389.
Proof.
  assert (Hlen : 131072 = Z.of_nat (Z.to_nat 131072))
    by (rewrite Z2Nat.id; lia).
  assert (H0 : ComputeImpl_frequencies identity_hash
                 (bigram_kernel identity_hash 38389)
                 (int_set_ (bigram_kernel identity_hash 38389)) long_input
                 131072 = Ok [4294938835]).
  { unfold long_input. rewrite Hlen at 2.
    rewrite bigram_kernel_frequencies, <- Hlen by (vm_compute; reflexivity).
    vm_compute. reflexivity. }
  assert (H1 : ComputeImpl_frequencies identity_hash
                 (bigram_kernel identity_hash 38390)
                 (int_set_ (bigram_kernel identity_hash 38390)) long_input
                 131072 = Ok [64220]).
  { unfold long_input. rewrite Hlen at 2.
    rewrite bigram_kernel_frequencies, <- Hlen by (vm_compute; reflexivity).
    vm_compute. reflexivity. }
  split; [apply bigram_kernel_constructed|].
  split; [exact H0|]. split; [exact H1|].
  intros Hmono. specialize (Hmono [4294938835] [64220] H0 H1).
  apply Forall2_cons in Hmono as [Hle _]. lia.
Qed.

(** * Further properties of the kernel *)

(** ** Samples against constructed items *)

Lemma AddItem_fold {T : Type} (hf : T -> Z) (s : NgramItem T) (g : list T) :
  Id (foldl (AddItem hf) s g) = Id s
  /\ items_ (foldl (AddItem hf) s g) = items_ s ++ g
  /\ hash_ (foldl (AddItem hf) s g) = foldl (RunningHash hf) (hash_ s) g.
Proof.
  revert s. induction g as [|v g IH]; intros s; simpl.
  - now rewrite app_nil_r.
  - destruct (IH (AddItem hf s v)) as (HId & Hitems & Hhash).
    rewrite HId, Hitems, Hhash. simpl. now rewrite <- app_assoc.
Qed.

(** X1. A sample that [Clear] emptied and [AddItem] filled with the tokens [g]
    carries the items and the hash of the item the constructor builds from
    [g], under whatever id, and [operator==] holds between the two: the
    hash agrees with the equality the sets use. *)
Theorem sample_matches_constructed_item {T : Type} `{EqDecision T}
        (hf : T -> Z) (s : NgramItem T) (id : Z) (g : list T) :
  items_ (foldl (AddItem hf) (Clear s) g) = g
  /\ Hash (foldl (AddItem hf) (Clear s) g) = Hash (NgramItem_range hf id g)
  /\ NgramItem_eqb (NgramItem_range hf id g) (foldl (AddItem hf) (Clear s) g)
     = true
  /\ Id (foldl (AddItem hf) (Clear s) g) = Id s.
Proof.
  destruct (AddItem_fold hf (Clear s) g) as (HId & Hitems & Hhash).
  simpl in *. split; [exact Hitems|]. split; [exact Hhash|].
  split; [|exact HId]. apply NgramItem_eqb_eq. now rewrite Hitems.
Qed.

(** ** Emplace *)

(** X2. [Emplace] moves the id past every n-gram it is given, inserted or not;
    the set keeps its entries and grows by at most one entry per n-gram,
    and by exactly that many if and only if the n-grams are pairwise
    different and none of them was stored before. *)
Theorem Emplace_counts_every_ngram {T : Type} `{EqDecision T} (hf : T -> Z)
        (first : list T) (ngrams ngram_size : nat) (ngram_id : Z)
        (c : PoolSet T) :
  let r := Emplace hf first ngrams ngram_size ngram_id c in
  fst r = ngram_id + Z.of_nat ngrams
  /\ (forall e, e ∈ c -> e ∈ snd r)
  /\ (length c <= length (snd r) <= length c + ngrams)%nat
  /\ (length (snd r) = (length c + ngrams)%nat
      <-> NoDup (ngrams_of first ngrams ngram_size)
          /\ forall g e,
               g ∈ ngrams_of first ngrams ngram_size -> e ∈ c ->
               items_ e <> g).
Proof.
  cbv zeta. rewrite Emplace_emplace_all. simpl.
  split; [reflexivity|]. split; [intros e; apply emplace_all_mono|].
  pose proof (emplace_all_length_le hf ngram_id
                (ngrams_of first ngrams ngram_size) c) as Hle.
  pose proof (emplace_all_length_eq hf ngram_id
                (ngrams_of first ngrams ngram_size) c) as Heq.
  rewrite ngrams_of_length in Hle, Heq. split; [exact Hle | exact Heq].
Qed.

(** ** IncrementCount *)

(** X3. When [IncrementCount] returns, it has added one, modulo 2^32, to the
    slot that [ngram_indexes_] gives for the id, and has left every other
    slot and the number of slots as they were; an id without an entry in
    [ngram_indexes_] breaks its first assertion. *)
Theorem IncrementCount_touches_one_slot (impl : Impl) (ngram_id : Z)
        (frequencies : list Z) :
  (forall frequencies',
      IncrementCount impl ngram_id frequencies = Ok frequencies' ->
      let output_idx :=
        Z.to_nat (nth (Z.to_nat ngram_id) (ngram_indexes_ impl) 0) in
      length frequencies' = length frequencies
      /\ (exists c, frequencies !! output_idx = Some c
                    /\ frequencies' !! output_idx = Some (wrap32 (c + 1)))
      /\ forall j, j <> output_idx -> frequencies' !! j = frequencies !! j)
  /\ (size (ngram_indexes_ impl) <= ngram_id ->
      IncrementCount impl ngram_id frequencies
      = Err (Assert A_id_in_ngram_indexes)).
Proof.
  split.
  - intros f'. unfold IncrementCount.
    intros (_ & _ & (_ & Hpos%ORT_ENFORCE_Ok
                     & (_ & Hin%ASSERT_Ok & [= <-])%bind_Ok)%bind_Ok)%bind_Ok.
    cbv zeta. apply Z.leb_le in Hpos. apply Z.ltb_lt in Hin.
    rewrite to_size_t_id in Hin by exact Hpos. unfold size in Hin.
    split; [apply length_alter|]. split.
    + destruct (lookup_lt_is_Some_2 frequencies
                  (Z.to_nat (nth (Z.to_nat ngram_id) (ngram_indexes_ impl) 0)))
        as [c Hc]; [lia|].
      exists c. split; [exact Hc|].
      rewrite list_lookup_alter_eq, Hc. reflexivity.
    + intros j Hj. now apply list_lookup_alter_ne.
  - intros Hid. unfold IncrementCount.
    replace (ngram_id <? size (ngram_indexes_ impl)) with false
      by (symmetry; apply Z.ltb_ge; lia).
    reflexivity.
Qed.

(** ** What the loop of the constructor accepts *)

(** X4. The loop succeeds exactly when every run lies inside the vocabulary,
    holds whole n-grams and, if it is retained, no n-gram twice; when it
    fails, it reports what the first faulty run violates. *)
Theorem Ngram_load_accepts_sound_runs (hash_int64 : Z -> Z)
        (hash_string : string -> Z) (impl : Impl) (pool_int64s : list Z) :
  let all := all_ impl in
  let M := to_size_t (M_ impl) in
  let N := to_size_t (N_ impl) in
  let counts := ngram_counts_ impl in
  let total := vocabulary_size (pool_strings_ impl) pool_int64s in
  (is_ok (Ngram_load hash_int64 hash_string impl pool_int64s) = true
   <-> forall i,
         (i < length counts)%nat ->
         run_ok counts total i = true
         /\ (run_retained all M N i = true ->
             ~ run_duplicated counts (pool_strings_ impl) pool_int64s total i))
  /\ (forall f,
         Ngram_load hash_int64 hash_string impl pool_int64s = Err f ->
         exists i e,
           (i < length counts)%nat /\ f = Enforce e
           /\ run_failure all M N counts (pool_strings_ impl) pool_int64s
                total i = Some e
           /\ forall j,
                (j < i)%nat ->
                run_failure all M N counts (pool_strings_ impl) pool_int64s
                  total j = None).
Proof.
  cbv zeta.
  pose proof (Ngram_load_spec hash_int64 hash_string impl pool_int64s)
    as Hspec.
  destruct (first_failure _ _ _ _ _ _ _ _ _) as [e|] eqn:Hfirst.
  - rewrite Hspec. simpl.
    apply first_failure_Some in Hfirst as (i & Hi & Hfail & Hbefore).
    split.
    + split; [discriminate|]. intros Hall.
      destruct (Hall i ltac:(lia)) as [Hok Hnodup].
      assert (Hnone : run_failure (all_ impl) (to_size_t (M_ impl))
                        (to_size_t (N_ impl)) (ngram_counts_ impl)
                        (pool_strings_ impl) pool_int64s
                        (vocabulary_size (pool_strings_ impl) pool_int64s) i
                      = None)
        by (apply run_failure_None; auto).
      congruence.
    + intros f [= <-]. exists i, e. split; [lia|]. split; [reflexivity|].
      split; [exact Hfail|]. intros j Hj. apply Hbefore. lia.
  - destruct Hspec as (st & -> & _). simpl. split.
    + split; [|reflexivity]. intros _ i Hi.
      rewrite first_failure_None in Hfirst.
      apply run_failure_None, Hfirst. lia.
    + intros f Hf. discriminate Hf.
Qed.

(** X5. A negative boundary is read as a [size_t] beyond any vocabulary: the
    run that starts there is out of bounds, so the loop fails; a negative
    first boundary fails the bounds check of the first run. *)
Theorem negative_boundary_is_refused (hash_int64 : Z -> Z)
        (hash_string : string -> Z) (impl : Impl) (pool_int64s : list Z)
        (i : nat) :
  (i < length (ngram_counts_ impl))%nat ->
  - 2 ^ 63 <= nth i (ngram_counts_ impl) 0 < 0 ->
  vocabulary_size (pool_strings_ impl) pool_int64s < 2 ^ 63 ->
  (exists e,
      Ngram_load hash_int64 hash_string impl pool_int64s = Err (Enforce e))
  /\ (i = 0%nat ->
      Ngram_load hash_int64 hash_string impl pool_int64s
      = Err (Enforce (E_counts_out_of_bounds 1))).
Proof.
  intros Hi Hneg Hsmall.
  pose proof (Ngram_load_spec hash_int64 hash_string impl pool_int64s)
    as Hspec.
  set (total := vocabulary_size (pool_strings_ impl) pool_int64s) in *.
  assert (Hbad : run_in_bounds (ngram_counts_ impl) total i = false).
  { unfold run_in_bounds. apply andb_false_iff.
    destruct (Z.leb_spec (end_idx_of (ngram_counts_ impl) total i) total)
      as [Hend|Hend]; [left | now right].
    apply Z.leb_gt. unfold start_idx_of, to_size_t.
    replace (nth i (ngram_counts_ impl) 0 <? 0) with true
      by (symmetry; apply Z.ltb_lt; lia).
    assert (nth i (ngram_counts_ impl) 0 mod 2 ^ 64
            = nth i (ngram_counts_ impl) 0 + 2 ^ 64) as ->.
    { symmetry. apply Z.mod_unique with (q := -1); lia. }
    lia. }
  assert (Hfail : run_failure (all_ impl) (to_size_t (M_ impl))
                    (to_size_t (N_ impl)) (ngram_counts_ impl)
                    (pool_strings_ impl) pool_int64s total i
                  = Some (E_counts_out_of_bounds (Z.of_nat i + 1))).
  { unfold run_failure. now rewrite Hbad. }
  split.
  - destruct (first_failure _ _ _ _ _ _ _ _ _) as [e|] eqn:Hfirst;
      [now exists e|].
    rewrite first_failure_None in Hfirst. specialize (Hfirst i ltac:(lia)).
    congruence.
  - intros Hzero. change 1 with (Z.of_nat 0 + 1). rewrite <- Hzero.
    assert (Hfirst : first_failure (all_ impl) (to_size_t (M_ impl))
                       (to_size_t (N_ impl)) (ngram_counts_ impl)
                       (pool_strings_ impl) pool_int64s total
                       (length (ngram_counts_ impl)) 0
                     = Some (E_counts_out_of_bounds (Z.of_nat i + 1))).
    { apply first_failure_Some. exists i. split; [lia|].
      split; [exact Hfail|]. intros j Hj. lia. }
    now rewrite Hfirst in Hspec.
Qed.

(** ** Looking up what the constructor stored *)

Lemma NoDup_of_no_duplicate {T : Type} `{EqDecision T} (gs : list (list T)) :
  ~ duplicate_in gs -> NoDup gs.
Proof.
  intros Hnone. destruct (decide (NoDup gs)) as [Hnd|Hdup]; [exact Hnd|].
  now apply not_NoDup_duplicate_in in Hdup.
Qed.

Section LookupFacts.
Context {T : Type} `{EqDecision T}.
Variable hf : T -> Z.
Variables (all : bool) (M N : Z).
Variable ngram_counts : list Z.
Variable total_items : Z.
Variable vocab : list T.
Variable n : nat.
Variable c : PoolSet T.
Hypothesis total_items_eq : total_items = size vocab.
Hypothesis c_holds :
  pool_holds hf all M N ngram_counts total_items vocab n c.
Hypothesis runs_sound :
  forall i,
    (i < n)%nat ->
    run_ok ngram_counts total_items i = true
    /\ (retained_order all M N (Z.of_nat i + 1) = true ->
        NoDup (run_ngrams ngram_counts total_items vocab i)).

Local Abbreviation runs := (run_ngrams ngram_counts total_items vocab).
Local Abbreviation upto := (ngrams_upto ngram_counts total_items vocab).

(** A position of the id space lies in one run. *)
Lemma ngrams_upto_lookup m p g :
  upto m !! p = Some g ->
  exists i t,
    (i < m)%nat /\ runs i !! t = Some g /\ p = (length (upto i) + t)%nat.
Proof.
  induction m as [|m IH]; [discriminate|].
  rewrite ngrams_upto_S. intros [Hp|[Hle Hp]]%lookup_app_Some.
  - destruct (IH Hp) as (i & t & Hi & Ht & ->). exists i, t.
    split; [lia | auto].
  - exists m, (p - length (upto m))%nat. split; [lia|].
    split; [exact Hp | lia].
Qed.

(** A retained n-gram has one position. *)
Lemma retained_position_unique p p' g :
  upto n !! p = Some g -> upto n !! p' = Some g ->
  retained_order all M N (size g) = true -> p = p'.
Proof.
  intros (i & t & Hi & Ht & ->)%ngrams_upto_lookup
         (i' & t' & Hi' & Ht' & ->)%ngrams_upto_lookup Hret.
  destruct (runs_sound i Hi) as [Hok Hnd].
  destruct (runs_sound i' Hi') as [Hok' _].
  pose proof (run_ngrams_item_length _ _ _ _ _ total_items_eq Hok
                (list_elem_of_lookup_2 _ _ _ Ht)) as Hlen.
  pose proof (run_ngrams_item_length _ _ _ _ _ total_items_eq Hok'
                (list_elem_of_lookup_2 _ _ _ Ht')) as Hlen'.
  assert (i' = i) as -> by lia.
  unfold size in Hret. rewrite Hlen in Hret.
  replace (Z.of_nat (S i)) with (Z.of_nat i + 1) in Hret by lia.
  now rewrite (NoDup_lookup _ _ _ _ (Hnd Hret) Ht Ht').
Qed.

Lemma pool_lookup_spec (sample : NgramItem T) :
  match set_find c sample with
  | Some e =>
      items_ e = items_ sample
      /\ 0 <= Id e
      /\ retained_order all M N (size (items_ sample)) = true
      /\ upto n !! Z.to_nat (Id e) = Some (items_ sample)
      /\ forall p, upto n !! p = Some (items_ sample) -> p = Z.to_nat (Id e)
  | None =>
      forall p,
        upto n !! p = Some (items_ sample) ->
        retained_order all M N (size (items_ sample)) = false
  end.
Proof.
  destruct (set_find c sample) as [e|] eqn:Hfind.
  - apply set_find_Some in Hfind as [Hin Hitems].
    apply c_holds in Hin as (p & g & Hp & Hret & ->). simpl in *. subst g.
    rewrite Nat2Z.id. split; [reflexivity|]. split; [lia|].
    split; [exact Hret|]. split; [exact Hp|].
    intros p' Hp'. eapply retained_position_unique; eauto.
  - intros p Hp. apply not_true_is_false. intros Hret.
    rewrite set_find_None in Hfind.
    apply (Hfind (NgramItem_range hf (Z.of_nat p) (items_ sample)));
      [|reflexivity].
    apply c_holds. exists p, (items_ sample). auto.
Qed.
End LookupFacts.

(** X6. Looking an n-gram up in the set of a constructed kernel finds the
    entry whose id is the one position of that n-gram in the vocabulary,
    if its order is retained, and finds nothing if the vocabulary holds it
    at no retained order. Stated for the integer vocabulary and for the
    string vocabulary. *)
Theorem lookup_returns_the_position (hash_int64 : Z -> Z)
        (hash_string : string -> Z) (info : OpKernelInfo) (kernel impl : Impl)
        (pool_int64s : list Z) :
  Ngram_attributes info = Ok (impl, pool_int64s) ->
  Ngram_ctor hash_int64 hash_string info = Ok kernel ->
  let total := vocabulary_size (pool_strings_ impl) pool_int64s in
  let retained := retained_order (all_ impl) (M_ impl) (N_ impl) in
  (empty (pool_strings_ impl) = true ->
   forall sample : NgramItem Z,
     let ngrams := vocabulary_ngrams (ngram_counts_ impl) total pool_int64s in
     match set_find (int_set_ kernel) sample with
     | Some e =>
         items_ e = items_ sample /\ 0 <= Id e
         /\ retained (size (items_ sample)) = true
         /\ ngrams !! Z.to_nat (Id e) = Some (items_ sample)
         /\ forall p, ngrams !! p = Some (items_ sample) -> p = Z.to_nat (Id e)
     | None =>
         forall p,
           ngrams !! p = Some (items_ sample) ->
           retained (size (items_ sample)) = false
     end)
  /\ (empty (pool_strings_ impl) = false ->
      forall sample : NgramItem string,
        let ngrams :=
          vocabulary_ngrams (ngram_counts_ impl) total (pool_strings_ impl) in
        match set_find (str_set_ kernel) sample with
        | Some e =>
            items_ e = items_ sample /\ 0 <= Id e
            /\ retained (size (items_ sample)) = true
            /\ ngrams !! Z.to_nat (Id e) = Some (items_ sample)
            /\ forall p,
                 ngrams !! p = Some (items_ sample) -> p = Z.to_nat (Id e)
        | None =>
            forall p,
              ngrams !! p = Some (items_ sample) ->
              retained (size (items_ sample)) = false
        end).
Proof.
  intros Hattr (impl' & pool' & st & Hattr' & Hload & ->)%Ngram_ctor_Ok.
  assert (impl' = impl /\ pool' = pool_int64s) as [-> ->]
      by (split; congruence).
  apply Ngram_attributes_accepted in Hattr.
  destruct (accepted_M _ _ _ Hattr) as [_ HM].
  destruct (accepted_N _ _ _ Hattr) as [_ HN].
  apply Ngram_load_Ok in Hload as [(_ & _ & Hsets) Hruns].
  rewrite (to_size_t_id (M_ impl)), (to_size_t_id (N_ impl)) in * by lia.
  cbv zeta. simpl. unfold run_duplicated, run_retained in Hruns.
  split; intros Hmode; rewrite Hmode in Hsets, Hruns;
    destruct Hsets as [Hc _]; intros sample.
  - apply (pool_lookup_spec hash_int64 (all_ impl) (M_ impl) (N_ impl)
             (ngram_counts_ impl) _ pool_int64s _ (int_set st));
      [unfold vocabulary_size; now rewrite Hmode | exact Hc |].
    intros i Hi. destruct (Hruns i Hi) as [Hok Hnodup].
    split; [exact Hok|]. intros Hret. now apply NoDup_of_no_duplicate, Hnodup.
  - apply (pool_lookup_spec hash_string (all_ impl) (M_ impl) (N_ impl)
             (ngram_counts_ impl) _ (pool_strings_ impl) _ (str_set st));
      [unfold vocabulary_size; now rewrite Hmode | exact Hc |].
    intros i Hi. destruct (Hruns i Hi) as [Hok Hnodup].
    split; [exact Hok|]. intros Hret. now apply NoDup_of_no_duplicate, Hnodup.
Qed.

(** ** What the constructor accepts *)

(** X7. The attribute checks pass exactly for a known mode, [0 < M <= N <=
    ngram_counts.size()], a present [S] of any sign, a present [all],
    non-empty [ngram_counts], non-empty [ngram_indexes] without a negative
    entry, [weights] absent or as many as [ngram_indexes], and a non-empty
    [pool_strings] or, only if [pool_strings] is absent, a non-empty
    [pool_int64s]. *)
Theorem Ngram_attributes_accepts_iff (info : OpKernelInfo) :
  is_ok (Ngram_attributes info) = attributes_valid info.
Proof.
  unfold Ngram_attributes, attributes_valid.
  assert (Hfail : forall c e (k : unit -> result (Impl * list Z)),
             (c = true -> is_ok (k tt) = false) ->
             is_ok (ORT_ENFORCE c e ≫= k) = false).
  { intros [|] e k Hk; [now apply Hk | reflexivity]. }
  destruct (attr_mode info) as [mode|]; [|reflexivity].
  destruct (attr_M info) as [M|];
    [|simpl; repeat (first [reflexivity | apply Hfail; intros _])].
  destruct (attr_N info) as [N|];
    [|simpl; repeat (first [reflexivity | apply Hfail; intros _])].
  destruct (attr_S info) as [S|];
    [|simpl; repeat (first [reflexivity | apply Hfail; intros _])].
  destruct (attr_all info) as [all|];
    [|simpl; repeat (first [reflexivity | apply Hfail; intros _])].
  destruct (attr_ngram_counts info) as [counts|];
    [|simpl; repeat (first [reflexivity | apply Hfail; intros _])].
  destruct (attr_ngram_indexes info) as [indexes|];
    [|simpl; repeat (first [reflexivity | apply Hfail; intros _])].
  simpl.
  destruct (is_kNone (mode_criteria mode)); [reflexivity|]. simpl.
  destruct (Z.ltb_spec 0 M) as [HM|HM]; [|reflexivity]. simpl.
  destruct (Z.leb_spec M N) as [HN|HN]; [|reflexivity]. simpl.
  replace (0 <=? N) with true by (symmetry; apply Z.leb_le; lia). simpl.
  destruct (empty counts); [reflexivity|]. simpl.
  rewrite (to_size_t_id M), (to_size_t_id N) by lia.
  destruct (Z.leb_spec N (size counts)) as [HNc|HNc].
  - replace (M <=? size counts) with true by (symmetry; apply Z.leb_le; lia).
    simpl.
    destruct (empty indexes); [reflexivity|]. simpl.
    destruct (forallb _ indexes); [|reflexivity]. simpl.
    destruct (attr_weights info) as [weights|]; simpl.
    + destruct (size weights =? size indexes); [|reflexivity]. simpl.
      destruct (attr_pool_strings info) as [ps|]; simpl.
      * now destruct (empty ps).
      * destruct (attr_pool_int64s info) as [pi|]; [|reflexivity]. simpl.
        now destruct (empty pi).
    + destruct (attr_pool_strings info) as [ps|]; simpl.
      * now destruct (empty ps).
      * destruct (attr_pool_int64s info) as [pi|]; [|reflexivity]. simpl.
        now destruct (empty pi).
  - destruct (M <=? size counts); reflexivity.
Qed.

Lemma pool_strings_take_precedence_aux hash_int64 hash_string info kernel :
  Ngram_ctor hash_int64 hash_string info = Ok kernel ->
  IsOK (attr_pool_strings info) = true ->
  int_set_ kernel = []
  /\ attr_pool_strings info = Some (pool_strings_ kernel)
  /\ forall sample : NgramItem Z, set_find (int_set_ kernel) sample = None.
Proof.
  intros (impl & pool_int64s & st & Hattr & Hload & ->)%Ngram_ctor_Ok Hps.
  assert (Hfields : attr_pool_strings info = Some (pool_strings_ impl)
                    /\ empty (pool_strings_ impl) = false).
  { revert Hattr. unfold Ngram_attributes.
    destruct (attr_pool_strings info) as [ps|]; [|discriminate Hps].
    intros Hattr.
    repeat (apply enforce_bind in Hattr as [_ Hattr]).
    destruct (attr_weights info); simpl in Hattr.
    - apply enforce_bind in Hattr as [_ Hattr].
      apply bind_Ok in Hattr as (p & Hp & [= <- _]).
      apply bind_Ok in Hp as (_ & Hne%ORT_ENFORCE_Ok & _). simpl.
      split; [reflexivity | now apply negb_true_iff].
    - apply bind_Ok in Hattr as (p & Hp & [= <- _]).
      apply bind_Ok in Hp as (_ & Hne%ORT_ENFORCE_Ok & _). simpl.
      split; [reflexivity | now apply negb_true_iff]. }
  destruct Hfields as [Hfield Hmode].
  apply Ngram_load_Ok in Hload as [(_ & _ & Hsets) _].
  rewrite Hmode in Hsets. destruct Hsets as [_ Hnone]. simpl.
  rewrite Hnone. split; [reflexivity|]. split; [exact Hfield | reflexivity].
Qed.

(** X8. When [pool_strings] is given, [pool_int64s] is not read: the integer
    set of the kernel stays empty and inputs of integers never hit. *)
Theorem pool_strings_take_precedence (hash_int64 : Z -> Z)
        (hash_string : string -> Z) (info : OpKernelInfo) (kernel : Impl) :
  Ngram_ctor hash_int64 hash_string info = Ok kernel ->
  IsOK (attr_pool_strings info) = true ->
  int_set_ kernel = []
  /\ attr_pool_strings info = Some (pool_strings_ kernel)
  /\ forall sample : NgramItem Z, set_find (int_set_ kernel) sample = None.
Proof. apply pool_strings_take_precedence_aux. Qed.

(** ** The encoder *)

Lemma OutputResult_succeeds_iff_aux (impl : Impl) (frequences : list Z) :
  (is_ok (OutputResult impl frequences) = true
   <-> weighting_criteria_ impl <> kNone
       /\ (weighted impl = true -> size frequences = size (weights_ impl)))
  /\ forall Y, OutputResult impl frequences = Ok Y ->
               length Y = length frequences.
Proof.
  unfold OutputResult, weighted.
  destruct (weighting_criteria_ impl); simpl.
  - split; [|discriminate]. split; [discriminate | now intros [? _]].
  - split; [|intros Y [= <-]; apply length_map].
    split; [intros _; split; [discriminate|discriminate] | reflexivity].
  - destruct (empty (weights_ impl)) eqn:Hw; simpl.
    + split; [|intros Y [= <-]; apply length_map].
      split; [intros _; split; [discriminate|discriminate] | reflexivity].
    + destruct (Z.eqb_spec (size frequences) (size (weights_ impl)))
        as [Hsize|Hsize]; simpl.
      * split; [split; [intros _; split; [discriminate | auto] | reflexivity]|].
        intros Y [= <-]. rewrite length_zip_with. unfold size in Hsize. lia.
      * split; [|discriminate].
        split; [discriminate | intros [_ Hs]; now specialize (Hs eq_refl)].
  - destruct (empty (weights_ impl)) eqn:Hw; simpl.
    + split; [|intros Y [= <-]; apply length_map].
      split; [intros _; split; [discriminate|discriminate] | reflexivity].
    + destruct (Z.eqb_spec (size frequences) (size (weights_ impl)))
        as [Hsize|Hsize]; simpl.
      * split; [split; [intros _; split; [discriminate | auto] | reflexivity]|].
        intros Y [= <-]. rewrite length_zip_with. unfold size in Hsize. lia.
      * split; [|discriminate].
        split; [discriminate | intros [_ Hs]; now specialize (Hs eq_refl)].
Qed.

(** X9. [OutputResult] fails only on its assertions: for the mode [kNone],
    and when it uses the weights and their number differs from the number
    of frequencies. When it returns, it has written one float per
    frequency. *)
Theorem OutputResult_succeeds_iff (impl : Impl) (frequences : list Z) :
  (is_ok (OutputResult impl frequences) = true
   <-> weighting_criteria_ impl <> kNone
       /\ (weighted impl = true -> size frequences = size (weights_ impl)))
  /\ forall Y, OutputResult impl frequences = Ok Y ->
               length Y = length frequences.
Proof. apply OutputResult_succeeds_iff_aux. Qed.

(** X10. In mode IDF the encoder sees only whether a count is zero: it writes
    the same floats for the frequencies and for their presence flags. *)
Theorem IDF_ignores_magnitude (impl : Impl) (frequences : list Z) :
  weighting_criteria_ impl = kIDF ->
  OutputResult impl (map presence frequences) = OutputResult impl frequences.
Proof.
  intros Hmode. unfold OutputResult. rewrite Hmode.
  assert (Hflag : forall c, (0 <? presence c) = (0 <? c)).
  { intros c. unfold presence. now destruct (0 <? c) eqn:Hc. }
  destruct (negb (empty (weights_ impl))).
  - unfold size. rewrite length_map.
    destruct (ASSERT _ _); simpl; [|reflexivity]. unfold mret, result_ret.
    f_equal. generalize (weights_ impl).
    induction frequences as [|c f IH]; intros [|w ws]; simpl;
      try reflexivity.
    now rewrite Hflag, IH.
  - unfold mret, result_ret. f_equal. rewrite map_map.
    apply map_ext. intros c. now rewrite Hflag.
Qed.

(** X11. With weights and mode IDF or TFIDF, a constructed kernel passes the
    assertion of [OutputResult] exactly when [ngram_indexes] names as many
    bins as it has entries: the constructor ties the weights to the
    entries, the encoder to the bins. *)
Theorem weights_need_a_bin_per_entry (hash_int64 : Z -> Z)
        (hash_string : string -> Z) (info : OpKernelInfo) (kernel : Impl)
        (frequences : list Z) :
  Ngram_ctor hash_int64 hash_string info = Ok kernel ->
  IsOK (attr_weights info) = true ->
  weighting_criteria_ kernel = kIDF \/ weighting_criteria_ kernel = kTFIDF ->
  length frequences = Z.to_nat (output_size_ kernel) ->
  is_ok (OutputResult kernel frequences) = true
  <-> max_element (ngram_indexes_ kernel) + 1 = size (ngram_indexes_ kernel).
Proof.
  intros (impl & pool_int64s & st & Hattr & _ & ->)%Ngram_ctor_Ok Hw Hmode
         Hlen.
  apply Ngram_attributes_accepted in Hattr.
  destruct (accepted_indexes _ _ _ Hattr) as (_ & Hne & Hpos).
  pose proof (accepted_output_size _ _ _ Hattr) as Hout.
  assert (Hmax : 0 <= max_element (ngram_indexes_ impl)).
  { rewrite Forall_forall in Hpos. apply Hpos. now apply max_element_in. }
  assert (Hweights : size (weights_ impl) = size (ngram_indexes_ impl)).
  { destruct (accepted_weights _ _ _ Hattr) as [[Hnone _]|[_ Hsize]];
      [|exact Hsize].
    rewrite Hnone in Hw. discriminate Hw. }
  assert (Hnonempty : empty (weights_ impl) = false).
  { destruct (weights_ impl), (ngram_indexes_ impl); try reflexivity;
      try congruence. discriminate Hweights. }
  rewrite (proj1 (OutputResult_succeeds_iff_aux (with_sets impl st)
                    frequences)).
  simpl in *. unfold weighted. simpl. unfold size in *.
  destruct Hmode as [Hmode|Hmode]; rewrite Hmode, Hnonempty; simpl;
    (split; [intros [_ Hsize]; specialize (Hsize eq_refl); lia
            | intros Hdense; split; [discriminate | intros _; lia]]).
Qed.
(** ** What the frequencies count *)

(** X12. The frequencies of a scan that cannot fail count, for each bin and
    modulo 2^32, the windows among [tested_windows] whose n-gram is in the
    pool under an id of that bin: single tokens, and for every distance
    from 1 to [S_ + 1], start offset and retained order the window that
    ends inside the input. A scan cannot fail when ids and bins are in
    range, the items lie inside the buffer, the first order is between 1
    and [N_], [N_] and [S_ + 1] are below [INT_MAX] and the frequencies
    fit a vector. Neither the hasher nor the order of the lookups
    matters. *)
Theorem frequencies_count_the_tested_windows {T : Type} `{EqDecision T}
        (hf : T -> Z) (impl : Impl) (pool : PoolSet T) (input_data : list T)
        (end_data : Z) :
  scan_safe impl pool input_data end_data ->
  exists f,
    ComputeImpl_frequencies hf impl pool input_data end_data = Ok f
    /\ length f = Z.to_nat (output_size_ impl)
    /\ forall b,
         (b < length f)%nat ->
         f !! b
         = Some (wrap32 (occurrences impl pool b
                           (tested_windows impl input_data end_data))).
Proof.
  intros Hsafe.
  destruct (frequencies_count_windows hf impl pool input_data end_data Hsafe)
    as (f & Hf & _ & Hlen & Hbins).
  exists f. split; [exact Hf|]. split; [exact Hlen | exact Hbins].
Qed.

(** ** Short inputs *)

Section ShortInput.
Context {T : Type} `{EqDecision T}.
Variable hf : T -> Z.
Variable impl : Impl.
Variable pool : PoolSet T.
Variable input_data : list T.
Variable end_data : Z.

Lemma start_loop_breaks si k0 f :
  end_data <= si * (k0 - 1) \/ end_data <= 0 ->
  start_loop hf impl pool input_data end_data (Z.to_nat end_data) si k0 0 f
  = Ok f.
Proof.
  intros [Hbreak|Hnone].
  - destruct (Z.to_nat end_data); [reflexivity|]. simpl.
    now replace (end_data <=? 0 + si * (k0 - 1)) with true
      by (symmetry; apply Z.leb_le; lia).
  - now replace (Z.to_nat end_data) with 0%nat by lia.
Qed.

(** On an input too short for the order [k0] every pass breaks at once:
    the loop only counts [si] up, as far as [int] lets it. *)
Lemma skip_loop_breaks todo si k0 f :
  1 <= si <= INT_MAX -> end_data < k0 ->
  skip_loop hf impl pool input_data end_data todo si k0 f
  = if si + Z.of_nat todo <=? INT_MAX then Ok f else Err SignedOverflow.
Proof.
  revert si. induction todo as [|todo IH]; intros si Hsi Hshort.
  - destruct (Z.leb_spec (si + Z.of_nat 0) INT_MAX); [reflexivity | lia].
  - cbn [skip_loop]. rewrite start_loop_breaks
      by (destruct (Z.le_gt_cases end_data 0); [now right | left; nia]).
    cbn [mbind result_bind].
    destruct (Z.eq_dec si INT_MAX) as [Hmax|Hless].
    + rewrite int_succ_Err by lia. cbn [mbind result_bind].
      now replace (si + Z.of_nat (S todo) <=? INT_MAX) with false
        by (symmetry; apply Z.leb_gt; lia).
    + rewrite int_succ_Ok by lia. cbn [mbind result_bind].
      rewrite IH by lia. now replace (si + 1 + Z.of_nat todo)
        with (si + Z.of_nat (S todo)) by lia.
Qed.
End ShortInput.

Lemma short_input_counts_nothing_aux {T : Type} `{EqDecision T} (hf : T -> Z)
        (impl : Impl) (pool : PoolSet T) (input_data : list T)
        (end_data : Z) :
  0 <= end_data < first_order impl -> first_order impl < INT_MAX ->
  output_size_ impl <= vector_max_size ->
  ComputeImpl_frequencies hf impl pool input_data end_data
  = if ((first_order impl =? 1) && (N_ impl <? 2))
       || (int64_succ (S_ impl) <? INT_MAX)
    then Ok (zeros impl)
    else Err SignedOverflow.
Proof.
  intros Hshort _ Hsize. unfold ComputeImpl_frequencies.
  rewrite vector_resize_Ok by exact Hsize. cbn [mbind result_bind].
  fold (first_order impl).
  assert (Hloop : forall k0,
             end_data < k0 ->
             skip_loop hf impl pool input_data end_data
               (Z.to_nat (int64_succ (S_ impl))) 1 k0 (zeros impl)
             = if int64_succ (S_ impl) <? INT_MAX then Ok (zeros impl)
               else Err SignedOverflow).
  { intros k0 Hk0. rewrite skip_loop_breaks by (unfold INT_MAX; lia).
    destruct (Z.ltb_spec (int64_succ (S_ impl)) INT_MAX) as [Hlt|Hge].
    - now replace (_ <=? INT_MAX) with true
        by (symmetry; apply Z.leb_le; unfold INT_MAX in *; lia).
    - now replace (_ <=? INT_MAX) with false
        by (symmetry; apply Z.leb_gt; unfold INT_MAX in *; lia). }
  destruct (Z.eqb_spec (first_order impl) 1) as [Hone|Hmore].
  - replace (Z.to_nat end_data) with 0%nat by lia.
    cbn [unigram_loop mbind result_bind mret result_ret].
    rewrite Hone. change (1 + 1) with 2.
    destruct (N_ impl <? 2); [reflexivity|].
    cbn [andb orb]. apply Hloop. lia.
  - cbn [andb orb]. apply Hloop. lia.
Qed.

(** X13. An input of fewer tokens than the first order tested, itself below
    [INT_MAX], has no window to look up and no token is read. The
    frequencies are zero when the skip loop is not entered (unigrams
    only) or [S_ + 1], computed on [int64_t], is below [INT_MAX];
    otherwise the loop counts [si] up to [INT_MAX] and overflows it. *)
Theorem short_input_counts_nothing {T : Type} `{EqDecision T} (hf : T -> Z)
        (impl : Impl) (pool : PoolSet T) (input_data : list T)
        (end_data : Z) :
  0 <= end_data < first_order impl -> first_order impl < INT_MAX ->
  output_size_ impl <= vector_max_size ->
  ComputeImpl_frequencies hf impl pool input_data end_data
  = if ((first_order impl =? 1) && (N_ impl <? 2))
       || (int64_succ (S_ impl) <? INT_MAX)
    then Ok (zeros impl)
    else Err SignedOverflow.
Proof. apply short_input_counts_nothing_aux. Qed.

(** X14. A tensor of shape [0] is scanned as one token that its buffer does
    not hold: a kernel whose first order is 1 reads past the end of the
    buffer; a kernel of longer n-grams returns the zero frequencies, when
    [S_ + 1] is below [INT_MAX], and overflows [si] otherwise. *)
Theorem empty_tensor_is_scanned_as_one_token {T : Type} `{EqDecision T}
        (hf : T -> Z) (impl : Impl) (pool : PoolSet T) :
  output_size_ impl <= vector_max_size ->
  total_items_of [0] = 1
  /\ (first_order impl = 1 ->
      ComputeImpl_frequencies hf impl pool [] (total_items_of [0])
      = Err ReadPastEnd)
  /\ (1 < first_order impl < INT_MAX ->
      ComputeImpl_frequencies hf impl pool [] (total_items_of [0])
      = if int64_succ (S_ impl) <? INT_MAX then Ok (zeros impl)
        else Err SignedOverflow).
Proof.
  intros Hsize. split; [reflexivity|]. split.
  - intros Hone. unfold ComputeImpl_frequencies.
    rewrite vector_resize_Ok by exact Hsize. cbn [mbind result_bind].
    fold (first_order impl). now rewrite Hone.
  - intros Hmore.
    rewrite short_input_counts_nothing_aux;
      [|change (total_items_of [0]) with 1; lia | lia | exact Hsize].
    now replace (first_order impl =? 1) with false
      by (symmetry; apply Z.eqb_neq; lia).
Qed.

(** ** The shape of the result *)

(** X15. Whenever Compute returns [OK], it has written exactly [output_size_]
    floats to the output tensor and changed nothing else; whenever it
    fails or returns another status, the session is as it was. *)
Theorem Compute_writes_output_size_floats (hash_int64 : Z -> Z)
        (hash_string : string -> Z) (s s' : Session) (r : result Status) :
  Compute hash_int64 hash_string s = (r, s') ->
  (r = Ok Status_OK ->
   exists Y, s' = with_output s (Some Y)
             /\ length Y = Z.to_nat (output_size_ (impl_ s)))
  /\ (r <> Ok Status_OK -> s' = s).
Proof.
  rewrite Compute_dispatch.
  assert (Hlen : forall {U} `{EqDecision U} (hf : U -> Z) (pool : PoolSet U)
                        (data : list U) total Y,
             ComputeImpl hf (impl_ s) pool data total = Ok Y ->
             length Y = Z.to_nat (output_size_ (impl_ s))).
  { intros U ? hf pool data total Y (f & Hf & HY)%bind_Ok.
    apply ComputeImpl_frequencies_keeps in Hf as [Hlen _].
    apply (proj2 (OutputResult_succeeds_iff_aux _ _)) in HY. congruence. }
  destruct (dispatch hash_int64 hash_string s) as [[Y|f]|] eqn:Hd;
    intros [= <- <-].
  - split; [|congruence]. intros _. exists Y. split; [reflexivity|].
    unfold dispatch in Hd.
    destruct (DataType (Input0 s)); try discriminate Hd;
      injection Hd as Hd; eapply Hlen; exact Hd.
  - split; [discriminate | reflexivity].
  - split; [discriminate | reflexivity].
Qed.

(** ** Skip counts that change nothing *)

(** X16. A negative skip count, which the constructor lets through, leaves no
    pass over n-grams of two or more tokens: the frequencies are those of
    the unigram pass. *)
Theorem negative_skip_counts_unigrams_only {T : Type} `{EqDecision T}
        (hf : T -> Z) (impl : Impl) (pool : PoolSet T) (input_data : list T)
        (end_data : Z) (S : Z) :
  S < 0 ->
  ComputeImpl_frequencies hf (with_S impl S) pool input_data end_data
  = unigram_pass hf impl pool input_data end_data.
Proof.
  intros HS. rewrite ComputeImpl_frequencies_with_S. unfold unigram_pass.
  rewrite int64_succ_small by lia.
  replace (Z.to_nat (S + 1)) with 0%nat by lia.
  destruct (vector_resize (output_size_ impl)) as [z|]; simpl;
    [|reflexivity].
  destruct (first_order impl =? 1); [|reflexivity].
  destruct (unigram_loop _ _ _ _ _ _ _); simpl; [|reflexivity].
  now destruct (N_ impl <? _).
Qed.

(** X17. A kernel of unigrams only returns after the unigram pass: its
    frequencies are the same for every skip count. *)
Theorem unigram_kernel_ignores_skip {T : Type} `{EqDecision T} (hf : T -> Z)
        (impl : Impl) (pool : PoolSet T) (input_data : list T)
        (end_data : Z) (S S' : Z) :
  first_order impl = 1 -> N_ impl < 2 ->
  ComputeImpl_frequencies hf (with_S impl S) pool input_data end_data
  = ComputeImpl_frequencies hf (with_S impl S') pool input_data end_data.
Proof.
  intros Hfirst HN. rewrite !ComputeImpl_frequencies_with_S, Hfirst.
  change (1 =? 1) with true. cbv iota.
  destruct (vector_resize (output_size_ impl)) as [z|]; simpl;
    [|reflexivity].
  destruct (unigram_loop _ _ _ _ _ _ _); simpl; [|reflexivity].
  now replace (N_ impl <? 1 + 1) with true by (symmetry; apply Z.ltb_lt; lia).
Qed.

(** ** The number of items *)

Lemma wrap64_mul_l a b : wrap64 (wrap64 a * b) = wrap64 (a * b).
Proof. unfold wrap64. now rewrite Z.mul_mod_idemp_l by lia. Qed.

(** X18. The number of items Compute scans is the product of the dimensions
    modulo 2^64, but 1 for a tensor without dimensions and for the shape
    [0]. *)
Theorem total_items_of_is_the_product (input_dims : list Z) :
  total_items_of input_dims
  = if empty input_dims
       || ((size input_dims =? 1) && (nth 0 input_dims 0 =? 0))
    then 1
    else wrap64 (dims_product input_dims).
Proof.
  unfold total_items_of. destruct (_ || _) eqn:Hone; [reflexivity|].
  assert (Hne : input_dims <> []) by (now destruct input_dims).
  clear Hone.
  assert (Hfold : forall v t,
             v <> [] ->
             foldl (fun total_items dim =>
                      wrap64 (total_items * to_size_t dim)) t v
             = wrap64 (t * dims_product v)).
  { clear. induction v as [|d v IH]; intros t Hne; [congruence|].
    simpl. destruct v as [|d' v].
    - simpl. now rewrite Z.mul_1_r.
    - rewrite IH by discriminate. rewrite wrap64_mul_l. f_equal.
      cbn [dims_product foldr]. ring. }
  rewrite Hfold by exact Hne. now rewrite Z.mul_1_l.
Qed.

(** ** Inputs of the other element type *)

(** X19. A kernel built from [pool_strings] finds nothing in an input of
    integers, and one built from [pool_int64s] nothing in an input of
    strings: the frequencies are zero, provided the scan stays inside
    the input, [N] and [S + 1] are below [INT_MAX] and the frequencies
    fit a vector. *)
Theorem other_element_type_counts_nothing (hash_int64 : Z -> Z)
        (hash_string : string -> Z) (info : OpKernelInfo) (kernel : Impl)
        (end_data : Z) :
  Ngram_ctor hash_int64 hash_string info = Ok kernel ->
  N_ kernel < INT_MAX -> S_ kernel + 1 < INT_MAX ->
  output_size_ kernel <= vector_max_size ->
  (IsOK (attr_pool_strings info) = true ->
   forall input_data : list Z,
     0 <= end_data <= size input_data ->
     ComputeImpl_frequencies hash_int64 kernel (int_set_ kernel) input_data
       end_data = Ok (zeros kernel))
  /\ (IsOK (attr_pool_strings info) = false ->
      forall input_data : list string,
        0 <= end_data <= size input_data ->
        ComputeImpl_frequencies hash_string kernel (str_set_ kernel)
          input_data end_data = Ok (zeros kernel)).
Proof.
  intros Hctor HN HS Hsize.
  assert (Hempty : forall {U} `{EqDecision U} (hf : U -> Z)
                          (input_data : list U),
             indexes_safe kernel ->
             0 <= end_data <= size input_data ->
             ComputeImpl_frequencies hf kernel [] input_data end_data
             = Ok (zeros kernel)).
  { intros U ? hf input_data Hidx Hend.
    rewrite (ComputeImpl_frequencies_tally hf kernel [] input_data end_data);
      [|intros e He; inversion He | exact Hidx | exact Hend | exact HN
       |exact Hsize | exact HS].
    f_equal. generalize (zeros kernel).
    induction (tested_windows kernel input_data end_data) as [|w ws IH];
      intros f; [reflexivity|].
    rewrite tally_cons. apply IH. }
  assert (Hidx : indexes_safe kernel).
  { pose proof Hctor as (impl & pool_int64s & st & Hattr & _ & ->)
      %Ngram_ctor_Ok.
    apply Ngram_attributes_accepted in Hattr.
    destruct (accepted_indexes _ _ _ Hattr) as (_ & Hne & Hpos).
    pose proof (accepted_output_size _ _ _ Hattr) as Hout.
    unfold indexes_safe. simpl. rewrite Forall_forall in *.
    intros idx Hin. pose proof (Hpos idx Hin).
    pose proof (max_element_ge _ _ Hin). lia. }
  split.
  - intros Hps input_data Hend.
    destruct (pool_strings_take_precedence_aux hash_int64 hash_string info
                kernel Hctor Hps) as [-> _].
    now apply Hempty.
  - intros Hps input_data Hend.
    pose proof Hctor as (impl & pool_int64s & st & Hattr & Hload & ->)
      %Ngram_ctor_Ok.
    assert (Hmode : empty (pool_strings_ impl) = true).
    { revert Hattr. unfold Ngram_attributes.
      destruct (attr_pool_strings info) as [ps|]; [discriminate Hps|].
      intros Hattr.
      repeat (apply enforce_bind in Hattr as [_ Hattr]).
      destruct (attr_weights info); simpl in Hattr.
      - apply enforce_bind in Hattr as [_ Hattr].
        now apply bind_Ok in Hattr as (p & _ & [= <- _]).
      - now apply bind_Ok in Hattr as (p & _ & [= <- _]). }
    apply Ngram_load_Ok in Hload as [(_ & _ & Hsets) _].
    rewrite Hmode in Hsets. destruct Hsets as [_ Hnone].
    change (str_set_ (with_sets impl st)) with (str_set st).
    rewrite Hnone. now apply Hempty.
Qed.

(** ** A constructed kernel at work *)

(** X20. A kernel the constructor accepted answers every call on a tensor of
    integers or strings that holds its elements, provided [ngram_indexes]
    has an entry for every n-gram of the vocabulary, the encoder finds
    its weights (the mode is TF, or there are no weights, or
    [ngram_indexes] names as many bins as it has entries), [N] and
    [S + 1] are below [INT_MAX] and the frequencies fit a vector. The
    call returns [OK] and leaves in the output the encoding of the
    frequencies, which hold in every bin the number of hits of the
    input, modulo 2^32. *)
Theorem constructed_kernel_serves_every_input (hash_int64 : Z -> Z)
        (hash_string : string -> Z) (info : OpKernelInfo) (kernel impl : Impl)
        (pool_int64s : list Z) (s : Session) :
  Ngram_ctor hash_int64 hash_string info = Ok kernel ->
  Ngram_attributes info = Ok (impl, pool_int64s) ->
  size (vocabulary_ngrams (ngram_counts_ impl)
          (vocabulary_size (pool_strings_ impl) pool_int64s) pool_int64s)
  <= size (ngram_indexes_ impl) ->
  weighting_criteria_ kernel = kTF \/ weights_ kernel = []
  \/ max_element (ngram_indexes_ kernel) + 1 = size (ngram_indexes_ kernel) ->
  N_ kernel < INT_MAX -> S_ kernel + 1 < INT_MAX ->
  max_element (ngram_indexes_ kernel) + 1 <= vector_max_size ->
  impl_ s = kernel ->
  supported (DataType (Input0 s)) = true -> tensor_fits (Input0 s) ->
  exists f Y,
    Compute hash_int64 hash_string s = (Ok Status_OK, with_output s (Some Y))
    /\ OutputResult kernel f = Ok Y
    /\ length Y = Z.to_nat (max_element (ngram_indexes_ kernel) + 1)
    /\ length f = length Y
    /\ forall b,
         (b < length f)%nat ->
         f !! b = Some (wrap32 (hits kernel (Input0 s) b)).
Proof.
  intros Hctor Hattr Hsize Hweights HN HS Hmax Hs Hsup Hfits.
  destruct (indexed_vocabulary_kernel_safe hash_int64 hash_string info kernel
              impl pool_int64s Hctor Hattr Hsize)
    as (Hout & _ & _ & _ & _ & Hsafe).
  assert (Hkernel : kernel_safe kernel).
  { apply Hsafe; [|exact HN | exact HS | rewrite Hout; exact Hmax].
    unfold output_safe.
    apply Ngram_ctor_Ok in Hctor as (impl' & pool' & st & Hattr' & _ & ->).
    assert (impl' = impl) as -> by congruence.
    apply Ngram_attributes_accepted in Hattr.
    destruct (accepted_mode _ _ _ Hattr) as (mode & _ & _ & Hnone).
    pose proof (accepted_output_size _ _ _ Hattr) as Hsz.
    simpl in *.
    destruct (weighting_criteria_ impl) eqn:Hmode; try exact I;
      try congruence;
      (destruct Hweights as [Hw|[Hw|Hw]]; [discriminate Hw | now left |]);
      (destruct (accepted_weights _ _ _ Hattr) as [[_ Hnil]|[_ Hlen]];
       [now left | right; lia]). }
  rewrite <- Hs in Hkernel.
  destruct (Compute_counts hash_int64 hash_string s Hkernel Hsup Hfits)
    as (f & Y & HY & Hresult & HlenY & Hlenf & Hbins).
  rewrite Hs in *. exists f, Y.
  split; [exact HY|]. split; [exact Hresult|].
  split; [now rewrite <- Hout|]. split; [congruence | exact Hbins].
Qed.

(** ** The properties at work on examples *)

Lemma negative_boundary_is_refused_witness :
  Ngram_load identity_hash fnv1a_hash negative_boundary_impl twin_bigram_pool
  = Err (Enforce (E_counts_out_of_bounds 1)).
Proof.
  apply (proj2 (negative_boundary_is_refused identity_hash fnv1a_hash
                  negative_boundary_impl twin_bigram_pool 0
                  ltac:(simpl; lia) ltac:(simpl; lia)
                  ltac:(vm_compute; reflexivity))).
  reflexivity.
Defined.

Lemma lookup_returns_the_position_witness :
  exists kernel,
    Ngram_ctor identity_hash fnv1a_hash (scenario_info 0) = Ok kernel
    /\ forall sample : NgramItem string,
         let ngrams :=
           vocabulary_ngrams [0; 2] 4 ["a"; "b"; "a"; "b"]%string in
         match set_find (str_set_ kernel) sample with
         | Some e =>
             items_ e = items_ sample /\ 0 <= Id e
             /\ retained_order true 1 2 (size (items_ sample)) = true
             /\ ngrams !! Z.to_nat (Id e) = Some (items_ sample)
             /\ forall p,
                  ngrams !! p = Some (items_ sample) -> p = Z.to_nat (Id e)
         | None =>
             forall p,
               ngrams !! p = Some (items_ sample) ->
               retained_order true 1 2 (size (items_ sample)) = false
         end.
Proof.
  eexists. split; [reflexivity|].
  exact (proj2 (lookup_returns_the_position identity_hash fnv1a_hash
                  (scenario_info 0) _ _ _ eq_refl eq_refl) eq_refl).
Defined.

Lemma pool_strings_take_precedence_witness :
  exists kernel,
    Ngram_ctor identity_hash fnv1a_hash both_pools_info = Ok kernel
    /\ int_set_ kernel = []
    /\ attr_pool_strings both_pools_info = Some (pool_strings_ kernel)
    /\ forall sample : NgramItem Z, set_find (int_set_ kernel) sample = None.
Proof.
  eexists. split; [reflexivity|].
  exact (pool_strings_take_precedence identity_hash fnv1a_hash
           both_pools_info _ eq_refl eq_refl).
Defined.

Lemma IDF_ignores_magnitude_witness :
  OutputResult idf_impl (map presence [2; 0; 1])
  = OutputResult idf_impl [2; 0; 1]
  /\ OutputResult idf_impl [2; 0; 1]
     = Ok [float_one; float_zero; float_one].
Proof.
  split; [|reflexivity].
  exact (IDF_ignores_magnitude idf_impl [2; 0; 1] eq_refl).
Defined.

Lemma weights_need_a_bin_per_entry_witness :
  exists kernel,
    Ngram_ctor identity_hash fnv1a_hash sparse_weights_info = Ok kernel
    /\ (is_ok (OutputResult kernel [0; 0; 0; 0; 0; 0]) = true
        <-> max_element (ngram_indexes_ kernel) + 1
            = size (ngram_indexes_ kernel))
    /\ OutputResult kernel [0; 0; 0; 0; 0; 0]
       = Err (Assert A_weights_match_frequencies).
Proof.
  eexists. split; [reflexivity|]. split; [|reflexivity].
  apply (weights_need_a_bin_per_entry identity_hash fnv1a_hash
           sparse_weights_info _ [0; 0; 0; 0; 0; 0] eq_refl eq_refl).
  - left. reflexivity.
  - reflexivity.
Defined.

Lemma frequencies_count_the_tested_windows_witness :
  exists kernel,
    Ngram_ctor identity_hash fnv1a_hash (scenario_info 1) = Ok kernel
    /\ exists f,
         ComputeImpl_frequencies fnv1a_hash kernel (str_set_ kernel)
           gapped_input 3 = Ok f
         /\ length f = Z.to_nat (output_size_ kernel)
         /\ forall b,
              (b < length f)%nat ->
              f !! b
              = Some (wrap32 (occurrences kernel (str_set_ kernel) b
                                (tested_windows kernel gapped_input 3))).
Proof.
  eexists. split; [reflexivity|].
  apply frequencies_count_the_tested_windows.
  destruct (indexed_vocabulary_kernel_safe identity_hash fnv1a_hash
              (scenario_info 1) _ _ _ eq_refl eq_refl)
    as (_ & _ & _ & Hstr & Hidx & _).
  - vm_compute. discriminate.
  - split; [exact Hstr|]. split; [exact Hidx|].
    split; [vm_compute; split; discriminate|].
    split; [vm_compute; split; [reflexivity | discriminate]|].
    split; [vm_compute; reflexivity|].
    split; [vm_compute; reflexivity|]. vm_compute. discriminate.
Defined.

Lemma short_input_counts_nothing_witness :
  ComputeImpl_frequencies identity_hash (bigram_kernel identity_hash 3)
    (int_set_ (bigram_kernel identity_hash 3)) [5] 1
  = Ok [0]
  /\ ComputeImpl_frequencies identity_hash
       (bigram_kernel identity_hash 2147483646)
       (int_set_ (bigram_kernel identity_hash 2147483646)) [5] 1
     = Err SignedOverflow
  /\ ComputeImpl_frequencies identity_hash
       (bigram_kernel identity_hash 9223372036854775807)
       (int_set_ (bigram_kernel identity_hash 9223372036854775807)) [5] 1
     = Ok [0].
Proof.
  split; [|split].
  - exact (short_input_counts_nothing identity_hash
             (bigram_kernel identity_hash 3)
             (int_set_ (bigram_kernel identity_hash 3)) [5] 1
             ltac:(vm_compute; split; [discriminate | reflexivity])
             eq_refl ltac:(vm_compute; discriminate)).
  - exact (short_input_counts_nothing identity_hash
             (bigram_kernel identity_hash 2147483646)
             (int_set_ (bigram_kernel identity_hash 2147483646)) [5] 1
             ltac:(vm_compute; split; [discriminate | reflexivity])
             eq_refl ltac:(vm_compute; discriminate)).
  - exact (short_input_counts_nothing identity_hash
             (bigram_kernel identity_hash 9223372036854775807)
             (int_set_ (bigram_kernel identity_hash 9223372036854775807))
             [5] 1 ltac:(vm_compute; split; [discriminate | reflexivity])
             eq_refl ltac:(vm_compute; discriminate)).
Defined.

Lemma empty_tensor_is_scanned_as_one_token_witness :
  exists kernel,
    Ngram_ctor identity_hash fnv1a_hash (scenario_info 0) = Ok kernel
    /\ ComputeImpl_frequencies fnv1a_hash kernel (str_set_ kernel) []
         (total_items_of [0])
       = Err ReadPastEnd
    /\ ComputeImpl_frequencies identity_hash (bigram_kernel identity_hash 0)
         (int_set_ (bigram_kernel identity_hash 0)) [] (total_items_of [0])
       = Ok [0].
Proof.
  eexists. split; [reflexivity|]. split.
  - match goal with
    | |- ComputeImpl_frequencies _ ?k _ _ _ = _ =>
        apply (empty_tensor_is_scanned_as_one_token fnv1a_hash k
                 (str_set_ k));
          [vm_compute; discriminate | reflexivity]
    end.
  - apply (empty_tensor_is_scanned_as_one_token identity_hash
             (bigram_kernel identity_hash 0)
             (int_set_ (bigram_kernel identity_hash 0)));
      [vm_compute; discriminate | split; reflexivity].
Defined.

Lemma Compute_writes_output_size_floats_witness :
  exists kernel,
    Ngram_ctor identity_hash fnv1a_hash (scenario_info 0) = Ok kernel
    /\ let s := {| impl_ := kernel; Input0 := scenario_input;
                   Output0 := None |} in
       exists Y,
         snd (Compute identity_hash fnv1a_hash s) = with_output s (Some Y)
         /\ length Y = 3%nat.
Proof.
  eexists. split; [reflexivity|]. cbv zeta.
  match goal with
  | |- exists Y, snd (Compute _ _ ?s) = _ /\ _ =>
      destruct (Compute_writes_output_size_floats identity_hash fnv1a_hash
                  s _ _ eq_refl) as [Hok _]
  end.
  destruct (Hok eq_refl) as (Y & HY & Hlen).
  exists Y. split; [exact HY | exact Hlen].
Defined.

Lemma negative_skip_counts_unigrams_only_witness :
  exists kernel,
    Ngram_ctor identity_hash fnv1a_hash (scenario_info 0) = Ok kernel
    /\ ComputeImpl_frequencies fnv1a_hash (with_S kernel (-1))
         (str_set_ kernel) gapped_input 3
       = unigram_pass fnv1a_hash kernel (str_set_ kernel) gapped_input 3
    /\ unigram_pass fnv1a_hash kernel (str_set_ kernel) gapped_input 3
       = Ok [1; 1; 0].
Proof.
  eexists. split; [reflexivity|]. split; [|reflexivity].
  apply negative_skip_counts_unigrams_only. reflexivity.
Defined.

Lemma unigram_kernel_ignores_skip_witness :
  exists kernel,
    Ngram_ctor identity_hash fnv1a_hash (unigram_info 0) = Ok kernel
    /\ ComputeImpl_frequencies identity_hash (with_S kernel 0)
         (int_set_ kernel) [2; 2; 9] 3
       = ComputeImpl_frequencies identity_hash (with_S kernel 7)
           (int_set_ kernel) [2; 2; 9] 3
    /\ ComputeImpl_frequencies identity_hash (with_S kernel 7)
         (int_set_ kernel) [2; 2; 9] 3
       = Ok [0; 2; 0].
Proof.
  eexists. split; [reflexivity|]. split; [|reflexivity].
  apply unigram_kernel_ignores_skip; reflexivity.
Defined.

Lemma other_element_type_counts_nothing_witness :
  exists kernel,
    Ngram_ctor identity_hash fnv1a_hash (scenario_info 0) = Ok kernel
    /\ ComputeImpl_frequencies identity_hash kernel (int_set_ kernel)
         [1; 2; 3] 3
       = Ok [0; 0; 0].
Proof.
  eexists. split; [reflexivity|].
  apply (proj1 (other_element_type_counts_nothing identity_hash fnv1a_hash
                  (scenario_info 0) _ 3 eq_refl
                  ltac:(vm_compute; reflexivity)
                  ltac:(vm_compute; reflexivity)
                  ltac:(vm_compute; discriminate)) eq_refl [1; 2; 3]).
  vm_compute. split; discriminate.
Defined.

Lemma constructed_kernel_serves_every_input_witness :
  exists kernel,
    Ngram_ctor identity_hash fnv1a_hash (scenario_info 0) = Ok kernel
    /\ let s := {| impl_ := kernel; Input0 := scenario_input;
                   Output0 := None |} in
       Compute identity_hash fnv1a_hash s
       = (Ok Status_OK,
          with_output s (Some [float_two; float_one; float_one]))
       /\ exists f Y,
            Compute identity_hash fnv1a_hash s
            = (Ok Status_OK, with_output s (Some Y))
            /\ OutputResult kernel f = Ok Y
            /\ length Y = 3%nat
            /\ length f = length Y
            /\ forall b,
                 (b < length f)%nat ->
                 f !! b = Some (wrap32 (hits kernel scenario_input b)).
Proof.
  eexists. split; [reflexivity|]. cbv zeta. split; [reflexivity|].
  match goal with
  | |- exists f Y, Compute _ _ ?s = _ /\ _ =>
      apply (constructed_kernel_serves_every_input identity_hash fnv1a_hash
               (scenario_info 0) _ _ _ s eq_refl eq_refl)
  end.
  - vm_compute. discriminate.
  - left. reflexivity.
  - vm_compute. reflexivity.
  - vm_compute. reflexivity.
  - vm_compute. discriminate.
  - reflexivity.
  - reflexivity.
  - vm_compute. discriminate.
Defined.

(** * Properties of TransposeBase *)

Lemma perm_check_spec (rank : Z) (perm : list Z) (seen : list bool) :
  Z.of_nat (length seen) = rank ->
  match perm_check rank perm seen with
  | Done seen' =>
      Forall (fun i => 0 <= i < rank) perm /\ NoDup perm
      /\ (forall i, i ∈ perm -> seen !! Z.to_nat i = Some false)
      /\ length seen' = length seen
  | Thrown (T_outside_range i) => i ∈ perm /\ ~ 0 <= i < rank
  | Thrown (T_repeated i) =>
      0 <= i < rank
      /\ exists l1 l2,
           perm = l1 ++ i :: l2
           /\ (seen !! Z.to_nat i = Some true \/ i ∈ l1)
  | Thrown T_vector_past_end => False
  end.
Proof.
  revert seen. induction perm as [|i perm IH]; intros seen Hlen; simpl.
  - split; [apply Forall_nil_2|]. split; [apply NoDup_nil_2|].
    split; [|reflexivity]. intros i Hi. inversion Hi.
  - destruct ((i <? 0) || (i >=? rank)) eqn:Hrange.
    { split; [left | lia]. }
    assert (Hi : 0 <= i < rank) by lia.
    destruct (seen !! Z.to_nat i) as [[|]|] eqn:Hseen.
    + split; [exact Hi|]. exists [], perm. split; [reflexivity | now left].
    + specialize (IH (<[Z.to_nat i := true]> seen)).
      rewrite length_insert in IH. specialize (IH Hlen).
      destruct (perm_check rank perm (<[Z.to_nat i := true]> seen))
        as [seen'|[j|j|]].
      * destruct IH as (Hall & Hnodup & Hfresh & Hlen').
        split; [constructor; [exact Hi | exact Hall]|].
        split.
        { constructor; [|exact Hnodup]. intros Hin.
          specialize (Hfresh i Hin).
          rewrite list_lookup_insert_eq in Hfresh by lia.
          discriminate Hfresh. }
        split; [|exact Hlen'].
        intros j [->|Hj]%elem_of_cons; [exact Hseen|].
        specialize (Hfresh j Hj).
        destruct (decide (Z.to_nat i = Z.to_nat j)) as [Heq|Hne].
        { rewrite Heq, list_lookup_insert_eq in Hfresh;
            [discriminate Hfresh|].
          rewrite <- Heq. lia. }
        now rewrite list_lookup_insert_ne in Hfresh.
      * destruct IH as [Hin Hout]. split; [now right | exact Hout].
      * destruct IH as [Hj (l1 & l2 & -> & Hwhy)].
        split; [exact Hj|]. exists (i :: l1), l2. split; [reflexivity|].
        destruct Hwhy as [Hset|Hin]; [|right; now right].
        destruct (decide (Z.to_nat i = Z.to_nat j)) as [Heq|Hne].
        -- assert (i = j) as <- by lia. right. left.
        -- rewrite list_lookup_insert_ne in Hset by exact Hne. now left.
      * exact IH.
    + apply lookup_ge_None in Hseen. lia.
Qed.

Lemma axes_elem_of (rank : nat) (i : Z) :
  i ∈ axes rank <-> 0 <= i < Z.of_nat rank.
Proof.
  unfold axes. rewrite list_elem_of_fmap. split.
  - intros (j & -> & Hj%elem_of_seq). lia.
  - intros Hi. exists (Z.to_nat i). split; [lia|]. apply elem_of_seq. lia.
Qed.

Lemma axes_NoDup (rank : nat) : NoDup (axes rank).
Proof.
  unfold axes. apply NoDup_fmap_2; [|apply NoDup_seq].
  intros x y. lia.
Qed.

Lemma axes_length (rank : nat) : length (axes rank) = rank.
Proof. unfold axes. now rewrite length_fmap, length_seq. Qed.

(** A list without repetition and in range is a permutation of the axes
    of its length, and only such a list. *)
Lemma permutation_of_axes (perm : list Z) :
  Forall (fun i => 0 <= i < size perm) perm /\ NoDup perm
  <-> perm ≡ₚ axes (length perm).
Proof.
  split.
  - intros [Hall Hnodup]. apply submseteq_length_Permutation.
    + apply NoDup_submseteq; [exact Hnodup|].
      intros i Hi. apply axes_elem_of.
      rewrite Forall_forall in Hall. apply Hall, Hi.
    + now rewrite axes_length.
  - intros Hperm. split.
    + apply Forall_forall. intros i Hi. rewrite Hperm in Hi.
      now apply axes_elem_of in Hi.
    + rewrite Hperm. apply axes_NoDup.
Qed.

Lemma TransposeBase_ctor_spec (perm : list Z) :
  match TransposeBase_ctor (Some perm) with
  | Done this =>
      this = {| perm_specified_ := true; perm_ := perm |}
      /\ perm ≡ₚ axes (length perm)
  | Thrown (T_outside_range i) => i ∈ perm /\ ~ 0 <= i < size perm
  | Thrown (T_repeated i) =>
      0 <= i < size perm /\ exists l1 l2 l3, perm = l1 ++ i :: l2 ++ i :: l3
  | Thrown T_vector_past_end => False
  end.
Proof.
  unfold TransposeBase_ctor. simpl.
  pose proof (perm_check_spec (size perm) perm
                (replicate (Z.to_nat (size perm)) false)) as Hspec.
  rewrite length_replicate in Hspec. unfold size in *.
  specialize (Hspec ltac:(lia)).
  destruct (perm_check _ perm _) as [seen'|[i|i|]].
  - destruct Hspec as (Hall & Hnodup & _).
    split; [reflexivity|]. now apply permutation_of_axes.
  - exact Hspec.
  - destruct Hspec as [Hi (l1 & l2 & -> & [Hset|Hin])].
    + apply lookup_replicate in Hset as [[=] _].
    + split; [exact Hi|].
      apply list_elem_of_split in Hin as (l0 & l1' & ->).
      exists l0, l1', l2. now rewrite <- app_assoc.
  - exact Hspec.
Qed.

(** X21. The constructor accepts a given [perm] exactly when it is a
    permutation of [0, ..., rank - 1] for its own length [rank]; it then
    keeps it as it is. It reads no flag past the end of [seen]. Without
    the attribute it accepts and marks the permutation as not specified. *)
Theorem TransposeBase_accepts_permutations (perm : list Z) :
  (is_done (TransposeBase_ctor (Some perm)) = true
   <-> perm ≡ₚ axes (length perm))
  /\ (forall this,
         TransposeBase_ctor (Some perm) = Done this ->
         perm_specified_ this = true /\ perm_ this = perm)
  /\ TransposeBase_ctor (Some perm) <> Thrown T_vector_past_end
  /\ TransposeBase_ctor None
     = Done {| perm_specified_ := false; perm_ := [] |}.
Proof.
  pose proof (TransposeBase_ctor_spec perm) as Hspec.
  split; [|split; [|split; [|reflexivity]]].
  - destruct (TransposeBase_ctor (Some perm)) as [this|f]; simpl.
    + split; [intros _; apply Hspec | reflexivity].
    + split; [discriminate|]. intros Hperm.
      apply permutation_of_axes in Hperm as [Hall Hnodup].
      destruct f as [i|i|].
      * destruct Hspec as [Hin Hout]. rewrite Forall_forall in Hall.
        destruct (Hout (Hall i Hin)).
      * destruct Hspec as [_ (l1 & l2 & l3 & ->)].
        apply NoDup_app in Hnodup as (_ & _ & Hnodup).
        apply NoDup_cons in Hnodup as [Hnotin _].
        destruct Hnotin. apply elem_of_app. right. left.
      * destruct Hspec.
  - intros this Hthis. rewrite Hthis in Hspec.
    destruct Hspec as [-> _]. split; reflexivity.
  - intros Hthrown. rewrite Hthrown in Hspec. exact Hspec.
Qed.

(** X22. A rejected [perm] is rejected for a value it holds: one outside
    [0, rank) or one that it holds twice. *)
Theorem TransposeBase_rejects_for_a_value (perm : list Z)
        (f : transpose_failure) :
  TransposeBase_ctor (Some perm) = Thrown f ->
  (exists i, f = T_outside_range i /\ i ∈ perm /\ ~ 0 <= i < size perm)
  \/ (exists i l1 l2 l3,
         f = T_repeated i /\ 0 <= i < size perm
         /\ perm = l1 ++ i :: l2 ++ i :: l3).
Proof.
  intros Hthrown. pose proof (TransposeBase_ctor_spec perm) as Hspec.
  rewrite Hthrown in Hspec. destruct f as [i|i|].
  - left. exists i. now split.
  - right. destruct Hspec as [Hi (l1 & l2 & l3 & Hperm)].
    exists i, l1, l2, l3. now split.
  - destruct Hspec.
Qed.

(** ** ComputeOutputShape *)

Lemma default_perm_loop_length todo i rank default_perm :
  length (default_perm_loop todo i rank default_perm) = length default_perm.
Proof.
  revert i default_perm. induction todo as [|todo IH]; intros i dp; simpl;
    [reflexivity|].
  now rewrite IH, length_insert.
Qed.

Lemma default_perm_loop_lookup todo (k : nat) rank default_perm (j : nat) :
  (k + todo <= length default_perm)%nat ->
  default_perm_loop todo (Z.of_nat k) rank default_perm !! j
  = if decide (k <= j < k + todo)%nat then Some (rank - Z.of_nat j - 1)
    else default_perm !! j.
Proof.
  revert k default_perm. induction todo as [|todo IH]; intros k dp Hlen;
    simpl.
  - destruct (decide _); [lia | reflexivity].
  - replace (Z.of_nat k + 1) with (Z.of_nat (S k)) by lia.
    rewrite IH by (rewrite length_insert; lia). rewrite Nat2Z.id.
    destruct (decide (S k <= j < S k + todo)%nat).
    + destruct (decide _); [reflexivity | lia].
    + destruct (decide (k = j)) as [<-|Hne].
      * rewrite list_lookup_insert_eq by lia.
        destruct (decide _); [reflexivity | lia].
      * rewrite list_lookup_insert_ne by exact Hne.
        destruct (decide _); [lia | reflexivity].
Qed.

Lemma output_dims_loop_spec todo (k : nat) input_dims p_perm output_dims :
  (k + todo <= length output_dims)%nat ->
  match output_dims_loop todo (Z.of_nat k) input_dims p_perm output_dims with
  | Done output_dims' =>
      length output_dims' = length output_dims
      /\ forall j,
           output_dims' !! j
           = if decide (k <= j < k + todo)%nat
             then picked input_dims p_perm j
             else output_dims !! j
  | Thrown f =>
      f = T_vector_past_end
      /\ exists j, (k <= j < k + todo)%nat
                   /\ picked input_dims p_perm j = None
  end.
Proof.
  revert k output_dims. induction todo as [|todo IH]; intros k od Hlen;
    simpl.
  - split; [reflexivity|]. intros j. destruct (decide _); [lia|reflexivity].
  - rewrite Nat2Z.id.
    destruct (p_perm !! k) as [v|] eqn:Hv.
    + destruct (input_dims !! Z.to_nat (to_size_t v)) as [d|] eqn:Hd.
      * replace (Z.of_nat k + 1) with (Z.of_nat (S k)) by lia.
        specialize (IH (S k) (<[k := d]> od)).
        rewrite length_insert in IH. specialize (IH ltac:(lia)).
        destruct (output_dims_loop todo _ input_dims p_perm _)
          as [od'|f].
        -- destruct IH as [Hlen' Hlookup]. split; [exact Hlen'|].
           intros j. rewrite Hlookup.
           destruct (decide (S k <= j < S k + todo)%nat).
           ++ destruct (decide _); [reflexivity | lia].
           ++ destruct (decide (k = j)) as [<-|Hne].
              ** rewrite list_lookup_insert_eq by lia.
                 destruct (decide _); [|lia].
                 unfold picked. now rewrite Hv.
              ** rewrite list_lookup_insert_ne by exact Hne.
                 destruct (decide _); [lia | reflexivity].
        -- destruct IH as [-> (j & Hj & Hnone)]. split; [reflexivity|].
           exists j. split; [lia | exact Hnone].
      * split; [reflexivity|]. exists k. split; [lia|].
        unfold picked. now rewrite Hv.
    + split; [reflexivity|]. exists k. split; [lia|].
      unfold picked. now rewrite Hv.
Qed.

Lemma resize_rank_length (input_dims v : list Z) :
  length (resize (Z.to_nat (size input_dims)) 0 v) = length input_dims.
Proof. unfold size. now rewrite length_resize, Nat2Z.id. Qed.

(** X23. Without a specified permutation the axes are reversed: the output
    shape is the input shape read backwards and the permutation used is
    [rank - 1, ..., 0], whatever the two vectors held before. Doing it
    twice gives the input shape again. *)
Theorem default_transpose_reverses_the_shape (this : TransposeBase)
        (input_dims output_dims default_perm : list Z) :
  perm_specified_ this = false ->
  ComputeOutputShape this input_dims output_dims default_perm
  = Done {| output_dims_ := reverse input_dims;
            default_perm_ := reverse (axes (length input_dims));
            p_perm_ := reverse (axes (length input_dims)) |}
  /\ forall output_dims' default_perm',
       ComputeOutputShape this (reverse input_dims) output_dims'
         default_perm'
       = Done {| output_dims_ := input_dims;
                 default_perm_ := reverse (axes (length input_dims));
                 p_perm_ := reverse (axes (length input_dims)) |}.
Proof.
  intros Hdefault.
  assert (Hone : forall dims od dp,
             ComputeOutputShape this dims od dp
             = Done {| output_dims_ := reverse dims;
                       default_perm_ := reverse (axes (length dims));
                       p_perm_ := reverse (axes (length dims)) |}).
  { intros dims od dp. unfold ComputeOutputShape. rewrite Hdefault.
    set (n := length dims).
    assert (Hperm : default_perm_loop (Z.to_nat (size dims)) 0 (size dims)
                      (resize (Z.to_nat (size dims)) 0 dp)
                    = reverse (axes n)).
    { apply list_eq. intros j.
      rewrite (default_perm_loop_lookup _ 0)
        by (rewrite resize_rank_length; unfold size; lia).
      unfold size. rewrite Nat2Z.id. fold n.
      destruct (decide (0 <= j < 0 + n)%nat) as [Hj|Hj].
      - symmetry. rewrite reverse_lookup by (rewrite axes_length; lia).
        rewrite axes_length. unfold axes.
        rewrite list_lookup_fmap, lookup_seq_lt by lia. simpl.
        f_equal. lia.
      - rewrite !lookup_ge_None_2; [reflexivity | |].
        + rewrite length_reverse, axes_length. lia.
        + rewrite length_resize. lia. }
    rewrite Hperm.
    pose proof (output_dims_loop_spec (Z.to_nat (size dims)) 0 dims
                  (reverse (axes n))
                  (resize (Z.to_nat (size dims)) 0 od)) as Hspec.
    rewrite resize_rank_length in Hspec. unfold size in Hspec.
    rewrite Nat2Z.id in Hspec. fold n in Hspec.
    specialize (Hspec ltac:(lia)). unfold size. rewrite Nat2Z.id. fold n.
    assert (Hpicked : forall j,
               (j < n)%nat ->
               picked dims (reverse (axes n)) j = reverse dims !! j).
    { intros j Hj. unfold picked.
      rewrite reverse_lookup by (rewrite axes_length; lia).
      rewrite axes_length. unfold axes.
      rewrite list_lookup_fmap, lookup_seq_lt by lia. simpl.
      rewrite to_size_t_id by lia. rewrite Nat2Z.id.
      rewrite reverse_lookup by (fold n; lia). reflexivity. }
    change (Z.of_nat 0) with 0 in Hspec.
    destruct (output_dims_loop n 0 dims (reverse (axes n)) _) as [od'|f].
    - destruct Hspec as [Hlen Hlookup]. do 2 f_equal.
      apply list_eq. intros j. rewrite Hlookup.
      destruct (decide (0 <= j < 0 + n)%nat) as [Hj|Hj].
      + apply Hpicked. lia.
      + rewrite !lookup_ge_None_2; [reflexivity | |].
        * rewrite length_reverse. fold n. lia.
        * rewrite length_resize. lia.
    - destruct Hspec as [_ (j & Hj & Hnone)].
      rewrite Hpicked in Hnone by lia.
      apply lookup_ge_None in Hnone. rewrite length_reverse in Hnone.
      fold n in Hnone. lia. }
  split; [apply Hone|]. intros od dp.
  rewrite Hone, reverse_involutive, length_reverse. reflexivity.
Qed.

(** X24. With a permutation that the constructor accepted and that has as
    many entries as the input has axes, the output shape takes its [j]-th
    dimension from the input axis [perm[j]]; it holds the dimensions of
    the input, each once. *)
Theorem specified_transpose_permutes_the_shape (perm : list Z)
        (this : TransposeBase)
        (input_dims output_dims default_perm : list Z) :
  TransposeBase_ctor (Some perm) = Done this ->
  length perm = length input_dims ->
  exists shape,
    ComputeOutputShape this input_dims output_dims default_perm = Done shape
    /\ p_perm_ shape = perm
    /\ default_perm_ shape = resize (length input_dims) 0 default_perm
    /\ output_dims_ shape
       = (fun v => nth (Z.to_nat v) input_dims 0) <$> perm
    /\ output_dims_ shape ≡ₚ input_dims.
Proof.
  intros Hctor Hrank.
  pose proof (TransposeBase_ctor_spec perm) as Hspec.
  rewrite Hctor in Hspec. destruct Hspec as [-> Hperm].
  set (n := length input_dims) in *.
  set (pick := fun v => nth (Z.to_nat v) input_dims 0).
  assert (Hrange : forall j v, perm !! j = Some v -> 0 <= v < Z.of_nat n).
  { intros j v Hv. apply list_elem_of_lookup_2 in Hv.
    rewrite Hperm, Hrank in Hv. now apply axes_elem_of in Hv. }
  assert (Hpicked : forall j,
             (j < n)%nat -> picked input_dims perm j = (pick <$> perm) !! j).
  { intros j Hj. unfold picked. rewrite list_lookup_fmap.
    destruct (perm !! j) as [v|] eqn:Hv; simpl.
    - pose proof (Hrange j v Hv) as Hv'.
      rewrite to_size_t_id by lia. unfold pick.
      destruct (lookup_lt_is_Some_2 input_dims (Z.to_nat v)) as [d Hd];
        [fold n; lia|].
      rewrite Hd. f_equal. symmetry. now apply nth_lookup_Some with (d := 0).
    - apply lookup_ge_None in Hv. lia. }
  unfold ComputeOutputShape. simpl.
  pose proof (output_dims_loop_spec (Z.to_nat (size input_dims)) 0
                input_dims perm
                (resize (Z.to_nat (size input_dims)) 0 output_dims))
    as Hspec.
  rewrite resize_rank_length in Hspec. unfold size in *.
  rewrite Nat2Z.id in *. fold n in Hspec |- *.
  specialize (Hspec ltac:(lia)). change (Z.of_nat 0) with 0 in Hspec.
  destruct (output_dims_loop n 0 input_dims perm _) as [od'|f].
  - destruct Hspec as [Hlen Hlookup].
    assert (Hout : od' = pick <$> perm).
    { apply list_eq. intros j. rewrite Hlookup.
      destruct (decide (0 <= j < 0 + n)%nat) as [Hj|Hj].
      - apply Hpicked. lia.
      - rewrite !lookup_ge_None_2; [reflexivity | |].
        + rewrite length_fmap. lia.
        + rewrite length_resize. lia. }
    eexists. split; [reflexivity|]. simpl.
    split; [reflexivity|]. split; [|split; [exact Hout|]].
    + reflexivity.
    + rewrite Hout, Hperm, Hrank. fold n.
      replace (pick <$> axes n) with input_dims; [reflexivity|].
      apply list_eq. intros j. unfold axes.
      rewrite <- list_fmap_compose, list_lookup_fmap.
      destruct (decide (j < n)%nat) as [Hj|Hj].
      * rewrite lookup_seq_lt by exact Hj. simpl. unfold pick.
        rewrite Nat2Z.id.
        destruct (lookup_lt_is_Some_2 input_dims j) as [d Hd];
          [fold n; lia|].
        rewrite Hd. f_equal. symmetry.
        now apply nth_lookup_Some with (d := 0).
      * rewrite lookup_seq_ge by lia. simpl. apply lookup_ge_None_2.
        fold n. lia.
  - destruct Hspec as [_ (j & Hj & Hnone)].
    rewrite Hpicked in Hnone by lia.
    apply lookup_ge_None in Hnone. rewrite length_fmap in Hnone. lia.
Qed.

(** X25. The constructor validates [perm] against its own length only, and
    [ComputeOutputShape] never compares that length with the rank of the
    input: a specified permutation of fewer entries than the input has
    axes is read past its end. *)
Theorem short_perm_is_read_past_its_end (this : TransposeBase)
        (input_dims output_dims default_perm : list Z) :
  perm_specified_ this = true ->
  (length (perm_ this) < length input_dims)%nat ->
  ComputeOutputShape this input_dims output_dims default_perm
  = Thrown T_vector_past_end.
Proof.
  intros Hspecified Hshort. unfold ComputeOutputShape. rewrite Hspecified.
  pose proof (output_dims_loop_spec (Z.to_nat (size input_dims)) 0
                input_dims (perm_ this)
                (resize (Z.to_nat (size input_dims)) 0 output_dims))
    as Hspec.
  rewrite resize_rank_length in Hspec. unfold size in *.
  rewrite Nat2Z.id in *. specialize (Hspec ltac:(lia)).
  change (Z.of_nat 0) with 0 in Hspec.
  destruct (output_dims_loop _ 0 input_dims (perm_ this) _) as [od'|f].
  - destruct Hspec as [Hlen Hlookup].
    specialize (Hlookup (length (perm_ this))).
    destruct (decide _) as [_|Hout]; [|lia].
    unfold picked in Hlookup.
    rewrite (lookup_ge_None_2 (perm_ this)) in Hlookup by lia.
    apply lookup_ge_None in Hlookup. rewrite Hlen in Hlookup. lia.
  - now destruct Hspec as [-> _].
Qed.

(** ** TransposeBase on examples *)

Lemma TransposeBase_rejects_for_a_value_witness :
  (exists i, T_repeated 1 = T_outside_range i /\ i ∈ [1; 1; 0]
             /\ ~ 0 <= i < size [1; 1; 0])
  \/ (exists i l1 l2 l3,
         T_repeated 1 = T_repeated i /\ 0 <= i < size [1; 1; 0]
         /\ [1; 1; 0] = l1 ++ i :: l2 ++ i :: l3).
Proof.
  exact (TransposeBase_rejects_for_a_value [1; 1; 0] (T_repeated 1) eq_refl).
Defined.

Lemma default_transpose_reverses_the_shape_witness :
  ComputeOutputShape {| perm_specified_ := false; perm_ := [] |}
    sample_dims [9] []
  = Done {| output_dims_ := [7; 6; 5]; default_perm_ := [2; 1; 0];
            p_perm_ := [2; 1; 0] |}.
Proof.
  exact (proj1 (default_transpose_reverses_the_shape
                  {| perm_specified_ := false; perm_ := [] |}
                  sample_dims [9] [] eq_refl)).
Defined.

Lemma specified_transpose_permutes_the_shape_witness :
  exists shape,
    ComputeOutputShape {| perm_specified_ := true; perm_ := rotate_perm |}
      sample_dims [] [4; 4; 4; 4]
    = Done shape
    /\ p_perm_ shape = rotate_perm
    /\ default_perm_ shape = [4; 4; 4]
    /\ output_dims_ shape = [7; 5; 6]
    /\ output_dims_ shape ≡ₚ sample_dims.
Proof.
  exact (specified_transpose_permutes_the_shape rotate_perm
           {| perm_specified_ := true; perm_ := rotate_perm |}
           sample_dims [] [4; 4; 4; 4] eq_refl eq_refl).
Defined.

Lemma short_perm_is_read_past_its_end_witness :
  ComputeOutputShape {| perm_specified_ := true; perm_ := [1; 0] |}
    sample_dims [] []
  = Thrown T_vector_past_end.
Proof.
  exact (short_perm_is_read_past_its_end
           {| perm_specified_ := true; perm_ := [1; 0] |}
           sample_dims [] [] eq_refl ltac:(simpl; lia)).
Defined.
